(** * peopleremover: occupancy carving over registered 3D scans

    A shallow embedding of [src/peopleremover/peopleremover.cc] and the
    properties of its voxelizer, carving visitor, 3D-DDA ray walker,
    max-range estimator, classifier and option validation.

    Conventions.
    - [size_t] is the 64-bit unsigned type and [ssize_t] the 64-bit signed
      type of an LP64 platform; both are carried as [Z] with the wrap-around
      written out ([uwrap], [swrap]).
    - [double] is IEEE-754 binary64, carried by the executable specification
      [spec_float] of the standard library (precision 53, emax 1024), so every
      arithmetic step rounds to nearest-even exactly as the hardware does.
    - [std::set<size_t>] is its ascending sequence of elements;
      [std::unordered_map] is a [gmap]; [std::set<voxel>] is a [gset]. *)

From Stdlib Require Import ZArith Lia Bool List String.
From Stdlib Require Import Floats.SpecFloat.
From stdpp Require Import base option list sorting gmap strings pretty.

#[local] Set Warnings "-clear-no-such-hyp".

Local Open Scope Z_scope.

(** ** Outcomes of a run *)

(** Why a run did not produce a value. *)
Inductive failure : Type :=
| Undefined                (* undefined behaviour of the C++ program *)
| Exit (code : Z)          (* [exit(code)] *)
| Throw (what : string)    (* an exception leaving [main] *)
| Unfinished.              (* a loop still running when the fuel of the model ran out *)

Inductive outcome (A : Type) : Type :=
| Ret (a : A)
| Fail (f : failure).

Arguments Ret {A} a.
Arguments Fail {A} f.

#[global] Instance outcome_ret : MRet outcome := fun A a => Ret a.

#[global] Instance outcome_bind : MBind outcome := fun A B k m =>
  match m with
  | Ret a => k a
  | Fail f => Fail f
  end.

Definition of_option {A : Type} (o : option A) : outcome A :=
  match o with
  | Some a => Ret a
  | None => Fail Undefined
  end.

(** ** Machine integers *)

Definition SIZE_MAX : Z := 2 ^ 64 - 1.

(** Arithmetic on [size_t] is modulo [2^64]. *)
Definition uwrap (n : Z) : Z := n mod 2 ^ 64.

(** Conversion of a 64-bit pattern to [ssize_t] (two's complement). *)
Definition swrap (n : Z) : Z := (n + 2 ^ 63) mod 2 ^ 64 - 2 ^ 63.

Definition in_ssize_t (n : Z) : bool := (- 2 ^ 63 <=? n) && (n <? 2 ^ 63).

(** ** IEEE-754 binary64 *)

Module Double.

Definition prec : Z := 53.
Definition emax : Z := 1024.

Abbreviation double := spec_float.

(** [m * 2^e], rounded to nearest-even (exact whenever it is representable). *)
Definition dyadic (m e : Z) : double := binary_normalize prec emax m e false.

(** Integer to [double] conversion. *)
Definition of_Z (n : Z) : double := dyadic n 0.

Definition zero : double := S754_zero false.
Definition one : double := of_Z 1.
Definition infinity : double := S754_infinity false.

Definition add : double -> double -> double := SFadd prec emax.
Definition sub : double -> double -> double := SFsub prec emax.
Definition mul : double -> double -> double := SFmul prec emax.
Definition div : double -> double -> double := SFdiv prec emax.
Definition sqrt : double -> double := SFsqrt prec emax.

(** The C++ comparison operators; every one of them is false on a NaN
    operand except [!=], which is then true. *)
Definition eqb (a b : double) : bool := SFeqb a b.
Definition neb (a b : double) : bool := negb (SFeqb a b).
Definition ltb (a b : double) : bool := SFltb a b.
Definition gtb (a b : double) : bool := SFltb b a.
Definition leb (a b : double) : bool := SFleb a b.

(** [std::min(a, b)] is [(b < a) ? b : a]. *)
Definition min (a b : double) : double := if ltb b a then b else a.

Definition is_nan (a : double) : bool :=
  match a with
  | S754_nan => true
  | _ => false
  end.

(** Neither an infinity nor a NaN. *)
Definition is_finite (a : double) : bool :=
  match a with
  | S754_zero _ | S754_finite _ _ _ => true
  | _ => false
  end.

Definition is_zero (a : double) : bool :=
  match a with
  | S754_zero _ => true
  | _ => false
  end.

(** The sign bit of a double that is not a NaN. *)
Definition sign_is (s : bool) (a : double) : Prop :=
  match a with
  | S754_zero t | S754_infinity t | S754_finite t _ _ => t = s
  | S754_nan => False
  end.

(** The representations that stand for a binary64 value: a finite double
    has its canonical significand and exponent (at most 53 bits, exponent
    from -1074 to 971). *)
Definition valid_double (a : double) : Prop := valid_binary prec emax a = true.

(** ISO C [fmod]: the value [x - n*y] for the integer [n] obtained by
    truncating [x/y]; it has the sign of [x], a magnitude below that of
    [y], and is always representable, so no rounding takes place.  The
    operands are aligned to the common exponent [ez] and the remainder is
    taken on the integer significands. *)
Definition fmod (x y : double) : double :=
  match x, y with
  | S754_nan, _ | _, S754_nan => S754_nan
  | S754_infinity _, _ => S754_nan
  | _, S754_zero _ => S754_nan
  | S754_zero _, _ => x
  | S754_finite _ _ _, S754_infinity _ => x
  | S754_finite sx mx ex, S754_finite _ my ey =>
      let ez := Z.min ex ey in
      let ax := Zpos (fst (shl_align mx ex ez)) in
      let ay := Zpos (fst (shl_align my ey ez)) in
      binary_normalize prec emax (cond_Zopp sx (Z.rem ax ay)) ez sx
  end.

(** Truncation toward zero of a finite value. *)
Definition trunc (x : double) : option Z :=
  match x with
  | S754_zero _ => Some 0
  | S754_finite s m e => Some (cond_Zopp s (Z.shiftl (Zpos m) e))
  | _ => None
  end.

(** The floating-integral conversion [ssize_t q = x]: the fractional part
    is discarded; the behaviour is undefined when the truncated value does
    not fit (and for infinities and NaN). *)
Definition to_ssize_t (x : double) : option Z :=
  match trunc x with
  | Some n => if in_ssize_t n then Some n else None
  | None => None
  end.

End Double.

Import Double.

(** ** Voxels and points *)

Record voxel : Type := Voxel { x : Z; y : Z; z : Z }.

#[global] Instance voxel_eq_dec : EqDecision voxel.
Proof. solve_decision. Defined.

#[global] Instance voxel_countable : Countable voxel :=
  inj_countable' (fun v => (x v, y v, z v))
                 (fun t => Voxel (fst (fst t)) (snd (fst t)) (snd t))
                 (fun v => match v with Voxel _ _ _ => eq_refl end).

(** [voxel::operator<]: lexicographic on [(x, y, z)]. *)
Definition voxel_lt (a b : voxel) : bool :=
  if negb (x a =? x b) then x a <? x b
  else if negb (y a =? y b) then y a <? y b
  else z a <? z b.

(** A [double[3]]. *)
Record point : Type := Point { p0 : double; p1 : double; p2 : double }.

(** A position: three finite doubles. *)
Definition valid_point (p : point) : Prop :=
  (valid_double (p0 p) /\ is_finite (p0 p) = true)
  /\ (valid_double (p1 p) /\ is_finite (p1 p) = true)
  /\ (valid_double (p2 p) /\ is_finite (p2 p) = true).

(** The two positions are the same: their coordinates compare equal. *)
Definition same_position (s e : point) : bool :=
  eqb (p0 e) (p0 s) && eqb (p1 e) (p1 s) && eqb (p2 e) (p2 s).

(** ** Voxelizer *)

(** [py_div]: the quotient is truncated by the conversion to [ssize_t] and
    lowered by one when the [fmod] remainder is non-zero and of the other
    sign than the divisor. *)
Definition py_div (a b : double) : option Z :=
  match to_ssize_t (div a b) with
  | Some q =>
      let r := fmod a b in
      if neb r zero && xorb (ltb r zero) (ltb b zero)
      then Some (swrap (q - 1))
      else Some q
  | None => None
  end.

Definition py_mod (a b : double) : double :=
  let r := fmod a b in
  if neb r zero && xorb (ltb r zero) (ltb b zero) then add r b else r.

Definition voxel_of_point (p : point) (voxel_size : double) : option voxel :=
  match py_div (p0 p) voxel_size, py_div (p1 p) voxel_size, py_div (p2 p) voxel_size with
  | Some cx, Some cy, Some cz => Some (Voxel cx cy cz)
  | _, _, _ => None
  end.

(** *** The mathematical floor of a quotient of two doubles *)

(** The exact value of a finite double as [n * 2^e]. *)
Definition exact_value (a : double) : option (Z * Z) :=
  match a with
  | S754_zero _ => Some (0, 0)
  | S754_finite s m e => Some (cond_Zopp s (Zpos m), e)
  | _ => None
  end.

(** [floor_quotient a b] is the integer [⌊a/b⌋] of the real quotient of the
    values of [a] and [b], for finite [a] and finite non-zero [b]. *)
Definition floor_quotient (a b : double) : option Z :=
  match exact_value a, exact_value b with
  | Some (na, ea), Some (nb, eb) =>
      if nb =? 0 then None
      else
        let e := Z.min ea eb in
        Some ((na * 2 ^ (ea - e)) / (nb * 2 ^ (eb - e)))
  | _, _ => None
  end.

(** Whether the real quotient minus [q] lies in [[0, 1)]. *)
Definition fraction_in_unit (a b : double) (q : Z) : option bool :=
  match exact_value a, exact_value b with
  | Some (na, ea), Some (nb, eb) =>
      if nb =? 0 then None
      else
        let e := Z.min ea eb in
        let n := na * 2 ^ (ea - e) in
        let d := nb * 2 ^ (eb - e) in
        (* 0 <= n/d - q < 1, cleared of the denominator d (of either sign) *)
        Some (if 0 <? d
              then (q * d <=? n) && (n <? (q + 1) * d)
              else (n <=? q * d) && ((q + 1) * d <? n))
  | _, _ => None
  end.


(** ** [std::set<size_t>] as its ascending sequence of elements *)

Module SizeSet.

Abbreviation t := (list Z).

(** The class invariant of [std::set]: strictly ascending, no duplicates. *)
Definition wf (s : t) : Prop := StronglySorted Z.lt s.

Fixpoint insert (k : Z) (s : t) : t :=
  match s with
  | [] => [k]
  | h :: r =>
      if k <? h then k :: s
      else if k =? h then s
      else h :: insert k r
  end.

(** [s.find(k) != s.end()] *)
Definition find (k : Z) (s : t) : bool := existsb (Z.eqb k) s.

(** [s.lower_bound(k)]: the first element that is not less than [k], or
    [None] for [s.end()]. *)
Fixpoint lower_bound (k : Z) (s : t) : option Z :=
  match s with
  | [] => None
  | h :: r => if h <? k then lower_bound k r else Some h
  end.

End SizeSet.

(** ** The carving visitor *)

Record visitor_args : Type := VisitorArgs {
  empty_voxels : gset voxel;
  voxel_occupied_by_slice : gmap voxel (list Z);
  current_slice : Z;
  diff : Z
}.

(** [args->empty_voxels->insert(voxel)] *)
Definition mark_free (vox : voxel) (args : visitor_args) : visitor_args :=
  {| empty_voxels := {[ vox ]} ∪ empty_voxels args;
     voxel_occupied_by_slice := voxel_occupied_by_slice args;
     current_slice := current_slice args;
     diff := diff args |}.

(** Whether the window test of the visitor aborts the search for a voxel
    occupied by the scans [scanslices]. *)
Definition window_hit (current_slice diff : Z) (scanslices : list Z) : bool :=
  if diff =? 0 then
    SizeSet.find current_slice scanslices
  else
    let window_start := uwrap (current_slice - diff) in
    let window_start := if diff >? current_slice then 0 else window_start in
    match SizeSet.lower_bound window_start scanslices with
    | Some lower_bound => lower_bound <=? uwrap (current_slice + diff)
    | None => false
    end.

(** [visitor] returns [false] to stop the walk and [true] to continue; the
    second component is the argument block after the call. *)
Definition visitor (vox : voxel) (args : visitor_args) : bool * visitor_args :=
  match voxel_occupied_by_slice args !! vox with
  | None => (true, args)
  | Some scanslices =>
      if window_hit (current_slice args) (diff args) scanslices
      then (false, args)
      else (true, mark_free vox args)
  end.

(** ** The ray walker *)

(** What [walk_voxels] has set up for one axis before its loop. *)
Record axis : Type := Axis {
  step : Z;             (* stepX: 1, -1, or 0 for no movement on the axis *)
  tDelta : double;      (* tDeltaX *)
  tMaxStart : double;   (* tMaxX before the loop, i.e. tMaxXStart *)
  maxMult : double;     (* maxMultX *)
  start_c : Z           (* start_voxel.x, and cur_voxel.x, after the corner correction *)
}.

(** The per-axis variables that the loop updates. *)
Record axis_state : Type := AxisState {
  mult : Z;             (* multX *)
  tMax : double;        (* tMaxX *)
  cur : Z               (* cur_voxel.x *)
}.

(** The block [if (direction[0] == 0) { ... } else { ... }] of one axis.
    Signed overflow, undefined in C++, is taken as two's-complement
    wrap-around. *)
Definition setup_axis (direction start_pos voxel_size : double)
    (start_voxel end_voxel : Z) : axis :=
  if eqb direction zero then
    {| step := 0; tDelta := zero; tMaxStart := infinity; maxMult := infinity;
       start_c := start_voxel |}
  else
    let step := if gtb direction zero then 1 else -1 in
    let tDelta := div (mul (of_Z step) voxel_size) direction in
    let tMax :=
      mul tDelta (sub one (py_mod (mul (of_Z step) (div start_pos voxel_size)) one)) in
    let maxMult := of_Z (swrap (swrap (end_voxel - start_voxel) * step)) in
    if (step =? -1) && eqb tMax tDelta && negb (start_voxel =? end_voxel) then
      {| step := step; tDelta := tDelta; tMaxStart := tMax;
         maxMult := sub maxMult one; start_c := swrap (start_voxel - 1) |}
    else
      {| step := step; tDelta := tDelta; tMaxStart := tMax;
         maxMult := maxMult; start_c := start_voxel |}.

Definition enter_loop (a : axis) : axis_state :=
  {| mult := 0; tMax := tMaxStart a; cur := start_c a |}.

(** The block [if (minVal == tMaxX) { ... }]; the flag is [steppedX]. *)
Definition advance (minVal : double) (a : axis) (s : axis_state) : axis_state * bool :=
  if eqb minVal (tMax s) then
    let mult' := uwrap (mult s + 1) in
    ({| mult := mult';
        tMax := add (tMaxStart a) (mul (of_Z mult') (tDelta a));
        cur := swrap (start_c a + mult' * step a) |}, true)
  else (s, false).

(** The block [if (steppedX) { ... }] that builds [add_voxel]: [None] is the
    [break], otherwise the coordinate of [add_voxel] on this axis. *)
Definition graced (a : axis) (s : axis_state) (stepped : bool) : option Z :=
  if stepped then
    if step a <? 0 then
      if gtb (of_Z (mult s)) (add (maxMult a) one) then None
      else Some (swrap (cur s + 1))
    else if gtb (of_Z (mult s)) (maxMult a) then None
    else Some (cur s)
  else Some (cur s).

(** [steppedX && multX > maxMultX] *)
Definition over_budget (a : axis) (s : axis_state) (stepped : bool) : bool :=
  stepped && gtb (of_Z (mult s)) (maxMult a).

(** The set-up of the three axes for a ray and the voxels of its ends. *)
Definition setup_x (start_pos end_pos : point) (voxel_size : double)
    (start_voxel end_voxel : voxel) : axis :=
  setup_axis (sub (p0 end_pos) (p0 start_pos)) (p0 start_pos) voxel_size
             (x start_voxel) (x end_voxel).

Definition setup_y (start_pos end_pos : point) (voxel_size : double)
    (start_voxel end_voxel : voxel) : axis :=
  setup_axis (sub (p1 end_pos) (p1 start_pos)) (p1 start_pos) voxel_size
             (y start_voxel) (y end_voxel).

Definition setup_z (start_pos end_pos : point) (voxel_size : double)
    (start_voxel end_voxel : voxel) : axis :=
  setup_axis (sub (p2 end_pos) (p2 start_pos)) (p2 start_pos) voxel_size
             (z start_voxel) (z end_voxel).

(** [cur_voxel] after the set-up: the start voxel, moved by one on every
    axis that got the corner correction. *)
Definition corrected_start (start_pos end_pos : point) (voxel_size : double)
    (start_voxel end_voxel : voxel) : voxel :=
  Voxel (start_c (setup_x start_pos end_pos voxel_size start_voxel end_voxel))
        (start_c (setup_y start_pos end_pos voxel_size start_voxel end_voxel))
        (start_c (setup_z start_pos end_pos voxel_size start_voxel end_voxel)).

(** How a call of the walker ended: by returning, or with the fuel of the
    model used up while the loop was still running. *)
Inductive walk_end : Type := Returned | OutOfFuel.

Section Walker.

(** The block behind [void *data], and the callback. *)
Context {D : Type}.
Variable visit : voxel -> D -> bool * D.

(** One iteration of the [while (1)] loop: [None] when it leaves the loop
    by a [break], otherwise the axis variables for the next iteration. *)
Definition loop_iteration (ax ay az : axis) (sx sy sz : axis_state) (data : D)
    : option (axis_state * axis_state * axis_state) * D :=
  let minVal := min (min (tMax sx) (tMax sy)) (tMax sz) in
  let '(sx, steppedX) := advance minVal ax sx in
  let '(sy, steppedY) := advance minVal ay sy in
  let '(sz, steppedZ) := advance minVal az sz in
  let cur_voxel := Voxel (cur sx) (cur sy) (cur sz) in
  let corner :=
    ((steppedX && steppedY) || (steppedY && steppedZ) || (steppedX && steppedZ))
    && ((step ax =? 1) || (step ay =? 1) || (step az =? 1))
    && ((step ax =? -1) || (step ay =? -1) || (step az =? -1)) in
  (* [(true, data)] when the iteration goes on after the corner block *)
  let '(go, data) :=
    if corner then
      match graced ax sx steppedX, graced ay sy steppedY, graced az sz steppedZ with
      | Some gx, Some gy, Some gz => visit (Voxel gx gy gz) data
      | _, _, _ => (false, data)
      end
    else (true, data) in
  if negb go then (None, data)
  else if over_budget ax sx steppedX then (None, data)
  else if over_budget ay sy steppedY then (None, data)
  else if over_budget az sz steppedZ then (None, data)
  else
    let '(go, data) := visit cur_voxel data in
    if negb go then (None, data)
    else (Some (sx, sy, sz), data).

(** The [while (1)] loop; [fuel] bounds the number of iterations. *)
Fixpoint walk_loop (fuel : nat) (ax ay az : axis) (sx sy sz : axis_state)
    (data : D) : walk_end * D :=
  match fuel with
  | O => (OutOfFuel, data)
  | S fuel' =>
      match loop_iteration ax ay az sx sy sz data with
      | (None, data) => (Returned, data)
      | (Some (sx, sy, sz), data) => walk_loop fuel' ax ay az sx sy sz data
      end
  end.

(** [e - s == 0] on every axis: the walker returns without any visit. *)
Definition degenerate (start_pos end_pos : point) : bool :=
  eqb (sub (p0 end_pos) (p0 start_pos)) zero
  && eqb (sub (p1 end_pos) (p1 start_pos)) zero
  && eqb (sub (p2 end_pos) (p2 start_pos)) zero.

Definition walk_voxels (fuel : nat) (start_pos end_pos : point) (voxel_size : double)
    (data : D) : outcome (walk_end * D) :=
  if degenerate start_pos end_pos then Ret (Returned, data)
  else
    start_voxel ← of_option (voxel_of_point start_pos voxel_size);
    end_voxel ← of_option (voxel_of_point end_pos voxel_size);
    (* the value returned by this call is discarded *)
    let data := snd (visit start_voxel data) in
    if bool_decide (start_voxel = end_voxel) then Ret (Returned, data)
    else
      let ax := setup_x start_pos end_pos voxel_size start_voxel end_voxel in
      let ay := setup_y start_pos end_pos voxel_size start_voxel end_voxel in
      let az := setup_z start_pos end_pos voxel_size start_voxel end_voxel in
      let cur_voxel := Voxel (start_c ax) (start_c ay) (start_c az) in
      (* and so is the value returned by this one *)
      let data := snd (visit cur_voxel data) in
      if bool_decide (cur_voxel = end_voxel) then Ret (Returned, data)
      else Ret (walk_loop fuel ax ay az (enter_loop ax) (enter_loop ay) (enter_loop az) data).

End Walker.

(** A visitor that also records, in call order, every voxel it is given
    together with the value it returned ([false] is stop). *)
Definition traced {D : Type} (visit : voxel -> D -> bool * D)
    (vox : voxel) (ld : list (voxel * bool) * D) : bool * (list (voxel * bool) * D) :=
  let '(go, d) := visit vox (snd ld) in
  (go, (fst ld ++ [(vox, go)], d)).

(** How one walk ended, and the voxels it delivered with the visitor's
    answers. *)
Definition deliveries {D : Type} (visit : voxel -> D -> bool * D) (fuel : nat)
    (start_pos end_pos : point) (voxel_size : double) (data : D)
    : outcome (walk_end * list (voxel * bool)) :=
  r ← walk_voxels (traced visit) fuel start_pos end_pos voxel_size ([], data);
  mret (fst r, fst (snd r)).

(** ** Scans and options *)

Inductive maxrange_method_t : Type := NONE | NORMALS | ONENEAREST.

Inductive normal_method_t : Type :=
  KNEAREST | RANGE | ANGLE | KNEAREST_GLOBAL | RANGE_GLOBAL.

(** One scan as [main] holds it after ingest: its index [i], the entry
    [trajectory[i]] (position and pose matrix), [points_by_slice[i]],
    [orig_points_by_slice[i]] and [reflectances_by_slice[i]]. *)
Record scan (M : Type) : Type := Scan {
  slice : Z;
  rPos : point;
  transMatOrg : M;
  points : list point;
  orig_points : list point;
  reflectances : list double
}.

Arguments Scan {M}.
Arguments slice {M}.
Arguments rPos {M}.
Arguments transMatOrg {M}.
Arguments points {M}.
Arguments orig_points {M}.
Arguments reflectances {M}.

(** ** Option validation *)

(** The three checks on the scan number range at the head of [main]. *)
Definition msg_negative_start : string := "Cannot start at a negative scan number.".
Definition msg_negative_end : string := "Cannot end at a negative scan number.".
Definition msg_end_before_start (start end_ : Z) : string :=
  "<end> (" +:+ pretty end_ +:+ ") cannot be smaller than <start> ("
    +:+ pretty start +:+ ").".

Definition check_scan_range (start end_ : Z) : outcome unit :=
  if start <? 0 then Fail (Throw msg_negative_start)
  else if end_ <? -1 then Fail (Throw msg_negative_end)
  else if (0 <? end_) && (end_ <? start) then Fail (Throw (msg_end_before_start start end_))
  else Ret tt.

(** ** Max-range estimation *)

(** [std::stable_sort] with the comparator [lt]: insertion from the right,
    each element placed before the first one that is not less than it, so
    that elements the comparator does not separate keep their order. *)
Fixpoint stable_insert {A : Type} (lt : A -> A -> bool) (a : A) (l : list A) : list A :=
  match l with
  | [] => [a]
  | h :: r => if lt h a then h :: stable_insert lt a r else a :: l
  end.

Definition stable_sort {A : Type} (lt : A -> A -> bool) (l : list A) : list A :=
  foldr (stable_insert lt) [] l.

(** [a[0]*b[0]+a[1]*b[1]+a[2]*b[2]] *)
Definition dot (a b : point) : double :=
  add (add (mul (p0 a) (p0 b)) (mul (p1 a) (p1 b))) (mul (p2 a) (p2 b)).

(** [sqrt(3*voxel_size*voxel_size)] *)
Definition voxel_diagonal_of (voxel_size : double) : double :=
  sqrt (mul (mul (of_Z 3) voxel_size) voxel_size).

Section MaxRange.

(** Collaborators from other translation units of the repository
    ([slam6d/globals.icc], [slam6d/normals.h], [spherical_quadtree]) and
    from the C library, taken as parameters. *)
Variable Len : point -> double.
Variable Normalize3 : point -> point.
Variable asin : double -> double.
(** [calculateNormal(points, normal, eigen)], the normal it writes. *)
Variable calculateNormal : list point -> point.
(** [QuadTree(pts).search(direction, angle)], indices into [pts]. *)
Variable qtree_search : list point -> point -> double -> list nat.

Variables voxel_size fuzz : double.
Variable normal_method : normal_method_t.

Definition voxel_diagonal : double := voxel_diagonal_of voxel_size.

(** [2*asin(voxel_diagonal/(distances[j]-voxel_diagonal))] *)
Definition shadow_angle (distance : double) : double :=
  mul (of_Z 2) (asin (div voxel_diagonal (sub distance voxel_diagonal))).

(** The comparator of the distance sort. *)
Definition closer (distances : list double) (a b : nat) : bool :=
  match distances !! a, distances !! b with
  | Some da, Some db => ltb da db
  | _, _ => false
  end.

Definition sorted_point_indices (distances : list double) : list nat :=
  stable_sort (closer distances) (seq 0 (length distances)).

(** One iteration of the loop over the shadow of a seed: the neighbour
    [k], the plane given by [normal] and [dividend]. Reading outside a
    vector is undefined. *)
Definition shadow_step (orig : list point) (distances : list double)
    (normal : point) (dividend : double)
    (maxranges : list double) (k : nat) : outcome (list double) :=
  p_k ← of_option (orig !! k);
  let p_k_norm := Normalize3 p_k in
  let divisor := dot p_k_norm normal in
  if eqb divisor zero then Ret maxranges
  else
    let d := div dividend divisor in
    distance_k ← of_option (distances !! k);
    if gtb d distance_k then Ret maxranges
    else
      let d := if ltb d zero then zero else d in
      maxrange_k ← of_option (maxranges !! k);
      if ltb maxrange_k d then Ret maxranges
      else Ret (<[k := d]> maxranges).

Fixpoint shadow_loop (orig : list point) (distances : list double)
    (normal : point) (dividend : double)
    (maxranges : list double) (shadow : list nat) : outcome (list double) :=
  match shadow with
  | [] => Ret maxranges
  | k :: rest =>
      maxranges ← shadow_step orig distances normal dividend maxranges k;
      shadow_loop orig distances normal dividend maxranges rest
  end.

(** The [switch (normal_method)] of the seed. *)
Definition seed_normal (orig : list point) (distance : double) (p_norm : point)
    : outcome point :=
  match normal_method with
  | ANGLE =>
      let angle := shadow_angle distance in
      let angular_indices := qtree_search orig p_norm angle in
      angular_points ← of_option (mapM (fun k => orig !! k) angular_indices);
      Ret (calculateNormal angular_points)
  | _ => Fail (Exit 1)
  end.

(** One iteration of the loop over [sorted_point_indices]: the point [j]
    as a seed. *)
Definition seed_step (orig : list point) (distances : list double)
    (maxranges : list double) (j : nat) : outcome (list double) :=
  p ← of_option (orig !! j);
  maxrange_j ← of_option (maxranges !! j);
  if neb maxrange_j infinity then Ret maxranges
  else
    let p_norm := Normalize3 p in
    distance_j ← of_option (distances !! j);
    normal ← seed_normal orig distance_j p_norm;
    let angle_cos := dot normal p_norm in
    let normal :=
      if leb zero angle_cos
      then Point (mul (p0 normal) (of_Z (-1))) (mul (p1 normal) (of_Z (-1)))
                 (mul (p2 normal) (of_Z (-1)))
      else normal in
    let p_base :=
      Point (add (p0 p) (mul (p0 normal) (add voxel_diagonal fuzz)))
            (add (p1 p) (mul (p1 normal) (add voxel_diagonal fuzz)))
            (add (p2 p) (mul (p2 normal) (add voxel_diagonal fuzz))) in
    let dividend := dot p_base normal in
    let divisor := dot p_norm normal in
    if eqb divisor zero then Ret (<[j := zero]> maxranges)
    else if gtb (div dividend divisor) distance_j then Fail (Exit 1)
    else
      let maxrange := div dividend divisor in
      let maxrange := if ltb maxrange zero then zero else maxrange in
      let maxranges := <[j := maxrange]> maxranges in
      if ltb (Len p) voxel_diagonal then Fail (Exit 1)
      else
        let angle := shadow_angle distance_j in
        shadow_loop orig distances normal dividend maxranges
                    (qtree_search orig p_norm angle).

Fixpoint seed_loop (orig : list point) (distances : list double)
    (maxranges : list double) (order : list nat) : outcome (list double) :=
  match order with
  | [] => Ret maxranges
  | j :: rest =>
      maxranges ← seed_step orig distances maxranges j;
      seed_loop orig distances maxranges rest
  end.

(** The initial [maxranges[i]]: one infinity per point of the scan. *)
Definition no_maxranges {M : Type} (s : scan M) : list double :=
  replicate (length (points s)) infinity.

(** The body of the loop over the scans for [maxrange_method == NORMALS]. *)
Definition normals_of_scan {M : Type} (s : scan M) : outcome (list double) :=
  match normal_method with
  | KNEAREST | RANGE => Fail (Exit 1)
  | _ =>
      let distances := map Len (orig_points s) in
      seed_loop (orig_points s) distances (no_maxranges s)
                (sorted_point_indices distances)
  end.

Fixpoint normals_of_scans {M : Type} (scans : list (scan M)) : outcome (list (list double)) :=
  match scans with
  | [] => Ret []
  | s :: rest =>
      r ← normals_of_scan s;
      rs ← normals_of_scans rest;
      Ret (r :: rs)
  end.

(** The max-range phase of [main]: [maxranges], scan by scan. *)
Definition maxrange_phase {M : Type} (maxrange_method : maxrange_method_t)
    (scans : list (scan M)) : outcome (list (list double)) :=
  match maxrange_method with
  | NONE => Ret (map no_maxranges scans)
  | NORMALS =>
      match normal_method with
      | KNEAREST_GLOBAL | RANGE_GLOBAL => Fail (Exit 1)
      | _ => normals_of_scans scans
      end
  | ONENEAREST => Fail (Exit 1)
  end.

End MaxRange.

(** ** Carving, classification and output *)

(** The four arguments that [fprintf(out, "%a %a %a %a\n", ...)] prints on
    one line of [scan000.3d] or [scan001.3d]. *)
Record line3d : Type := Line3d {
  field1 : double;
  field2 : double;
  field3 : double;
  field4 : double
}.

(** The lines written to [scan000.3d] (static) and [scan001.3d] (dynamic). *)
Record partitioning : Type := Partitioning {
  out_static : list line3d;
  out_dynamic : list line3d
}.

(** The loop [for (it = free.begin(); it != free.end(); ++it)
    free_voxels.insert( *it)] at the end of a scan. *)
Definition merge_free (free free_voxels : gset voxel) : gset voxel :=
  foldr (fun it acc => {[ it ]} ∪ acc) free_voxels (elements free).

(** The line feed that ends every line. *)
Definition newline : string := String (Ascii.ascii_of_nat 10) EmptyString.

(** [fprintf(out_mask, "1\n")] for a dynamic point, [fprintf(out_mask,
    "0\n")] for a static one. *)
Definition mask_line (dynamic : bool) : string :=
  (if dynamic then "1" else "0") +:+ newline.

(** [std::setw(3) << std::setfill('0') << i] *)
Definition setw3 (i : Z) : string :=
  let digits := pretty i in
  match String.length digits with
  | 0%nat => "000" +:+ digits
  | 1%nat => "00" +:+ digits
  | 2%nat => "0" +:+ digits
  | _ => digits
  end.

Definition mask_path (maskdir : string) (i : Z) : string :=
  maskdir +:+ "/scan" +:+ setw3 i +:+ ".mask".

Section Carving.

Context {M : Type}.
Variable Len : point -> double.
Variable transform3 : M -> point -> point.
Variable voxel_size : double.
Variable diff_opt : Z.

(** [voxel_occupied_by_slice[voxel_of_point(p, voxel_size)].insert(i)] *)
Definition occupy (i : Z) (occ : gmap voxel (list Z)) (p : point)
    : outcome (gmap voxel (list Z)) :=
  vox ← of_option (voxel_of_point p voxel_size);
  Ret (<[vox := SizeSet.insert i (default [] (occ !! vox))]> occ).

Fixpoint occupy_all (i : Z) (occ : gmap voxel (list Z)) (pts : list point)
    : outcome (gmap voxel (list Z)) :=
  match pts with
  | [] => Ret occ
  | p :: rest =>
      occ ← occupy i occ p;
      occupy_all i occ rest
  end.

Fixpoint build_index (occ : gmap voxel (list Z)) (scans : list (scan M))
    : outcome (gmap voxel (list Z)) :=
  match scans with
  | [] => Ret occ
  | s :: rest =>
      occ ← occupy_all (slice s) occ (points s);
      build_index occ rest
  end.

(** The end of the ray to point [j]: the point itself, or, when its max
    range is not infinity, the point at that range on the line of sight. *)
Definition ray_end (s : scan M) (maxranges : list double) (j : nat) (p : point)
    : outcome point :=
  maxrange ← of_option (maxranges !! j);
  if neb maxrange infinity then
    o ← of_option (orig_points s !! j);
    let r := Len o in
    let factor := div maxrange r in
    Ret (transform3 (transMatOrg s)
           (Point (mul (p0 o) factor) (mul (p1 o) factor) (mul (p2 o) factor)))
  else Ret p.

(** One ray of scan [s]; [free] is the scan's local set. *)
Definition carve_ray (fuel : nat) (occ : gmap voxel (list Z)) (s : scan M)
    (end_pos : point) (free : gset voxel) : outcome (gset voxel) :=
  let data := {| empty_voxels := free; voxel_occupied_by_slice := occ;
                 current_slice := slice s; diff := diff_opt |} in
  r ← walk_voxels visitor fuel (rPos s) end_pos voxel_size data;
  match fst r with
  | Returned => Ret (empty_voxels (snd r))
  | OutOfFuel => Fail Unfinished
  end.

Fixpoint carve_rays (fuel : nat) (occ : gmap voxel (list Z)) (s : scan M)
    (maxranges : list double) (j : nat) (pts : list point) (free : gset voxel)
    : outcome (gset voxel) :=
  match pts with
  | [] => Ret free
  | p :: rest =>
      end_pos ← ray_end s maxranges j p;
      free ← carve_ray fuel occ s end_pos free;
      carve_rays fuel occ s maxranges (S j) rest free
  end.

(** The set [free] of one scan after all its rays. *)
Definition carve_scan (fuel : nat) (occ : gmap voxel (list Z))
    (sm : scan M * list double) : outcome (gset voxel) :=
  carve_rays fuel occ (fst sm) (snd sm) 0 (points (fst sm)) ∅.

(** The loop over [scanorder]: each scan is carved and its set merged. *)
Fixpoint carving_loop (fuel : nat) (occ : gmap voxel (list Z))
    (work : list (scan M * list double)) (free_voxels : gset voxel)
    : outcome (gset voxel) :=
  match work with
  | [] => Ret free_voxels
  | sm :: rest =>
      free ← carve_scan fuel occ sm;
      carving_loop fuel occ rest (merge_free free free_voxels)
  end.

(** [free_voxels.find(voxel_of_point(p, voxel_size)) != free_voxels.end()] *)
Definition is_dynamic (free_voxels : gset voxel) (p : point) : outcome bool :=
  vox ← of_option (voxel_of_point p voxel_size);
  Ret (bool_decide (vox ∈ free_voxels)).

(** One [fprintf] into the file chosen for the point; the last argument
    is the literal [0.0f]. *)
Definition write_point (free_voxels : gset voxel) (out : partitioning) (p : point)
    : outcome partitioning :=
  dynamic ← is_dynamic free_voxels p;
  let line := Line3d (p0 p) (p1 p) (p2 p) zero in
  if dynamic : bool
  then Ret {| out_static := out_static out; out_dynamic := out_dynamic out ++ [line] |}
  else Ret {| out_static := out_static out ++ [line]; out_dynamic := out_dynamic out |}.

Fixpoint write_points (free_voxels : gset voxel) (out : partitioning) (pts : list point)
    : outcome partitioning :=
  match pts with
  | [] => Ret out
  | p :: rest =>
      out ← write_point free_voxels out p;
      write_points free_voxels out rest
  end.

Fixpoint write_partitioning (free_voxels : gset voxel) (out : partitioning)
    (scans : list (scan M)) : outcome partitioning :=
  match scans with
  | [] => Ret out
  | s :: rest =>
      out ← write_points free_voxels out (points s);
      write_partitioning free_voxels out rest
  end.

(** The lines of the mask file of one scan, one [fprintf] each. *)
Fixpoint write_mask (free_voxels : gset voxel) (pts : list point) : outcome (list string) :=
  match pts with
  | [] => Ret []
  | p :: rest =>
      dynamic ← is_dynamic free_voxels p;
      lines ← write_mask free_voxels rest;
      Ret (mask_line dynamic :: lines)
  end.

(** The mask files: path and lines, scan by scan. *)
Fixpoint write_masks (maskdir : string) (free_voxels : gset voxel) (scans : list (scan M))
    : outcome (list (string * list string)) :=
  match scans with
  | [] => Ret []
  | s :: rest =>
      lines ← write_mask free_voxels (points s);
      files ← write_masks maskdir free_voxels rest;
      Ret ((mask_path maskdir (slice s), lines) :: files)
  end.

End Carving.

(** ** The pipeline of [main] after ingest *)

Module Opt.

(** The options of the command line, as [main] reads them. *)
Record t : Type := Make {
  start : Z;
  end_ : Z;
  fuzz : double;
  voxel_size : double;
  diff : Z;
  normal_method : normal_method_t;
  maxrange_method : maxrange_method_t;
  maskdir : string;
  dir : string;
  no_subvoxel_accuracy : bool
}.

End Opt.

(** What a run leaves behind. *)
Record outputs : Type := Outputs {
  free_voxels : gset voxel;
  partition : partitioning;
  masks : list (string * list string)
}.

Section Main.

Context {M : Type}.
Variable Len : point -> double.
Variable Normalize3 : point -> point.
Variable asin : double -> double.
Variable calculateNormal : list point -> point.
Variable qtree_search : list point -> point -> double -> list nat.
Variable transform3 : M -> point -> point.

(** The length check on the reflectances of one scan at ingest. *)
Definition refl_mismatch (s : scan M) : bool :=
  negb (length (reflectances s) =? 0)%nat
  && (negb (length (points s) =? length (reflectances s))%nat
      || negb (length (orig_points s) =? length (reflectances s))%nat).

(** [main] from the checks on the scan range on; [scans] are the scans that
    [Scan::openDirectory] found, in the order of [scanorder], read and
    transformed by the scan library. *)
Definition run (fuel : nat) (o : Opt.t) (scans : list (scan M)) : outcome outputs :=
  _ ← check_scan_range (Opt.start o) (Opt.end_ o);
  if bool_decide (scans = []) then Fail (Exit (-1))
  else if existsb refl_mismatch scans then Fail (Exit 1)
  else
    occ ← build_index (Opt.voxel_size o) ∅ scans;
    if bool_decide (occ = ∅) then Fail (Exit 1)
    else
      maxranges ← maxrange_phase Len Normalize3 asin calculateNormal qtree_search
                    (Opt.voxel_size o) (Opt.fuzz o) (Opt.normal_method o)
                    (Opt.maxrange_method o) scans;
      free_voxels ← carving_loop Len transform3 (Opt.voxel_size o) (Opt.diff o)
                      fuel occ (zip scans maxranges) ∅;
      if negb (Opt.no_subvoxel_accuracy o) then Fail (Exit 1)
      else
        out ← write_partitioning (Opt.voxel_size o) free_voxels
                (Partitioning [] []) scans;
        let maskdir :=
          if bool_decide (Opt.maskdir o = "") then Opt.dir o +:+ "/pplremover"
          else Opt.maskdir o in
        files ← write_masks (Opt.voxel_size o) maskdir free_voxels scans;
        Ret (Outputs free_voxels out files).

End Main.

(** ** Collaborators modelled for the examples *)

(** Modelled from the spec: [Len] of [slam6d/globals.icc], which is not part
    of this translation unit; the spec has it as the Euclidean norm
    [‖P̂_i[j]‖] of a scanner-local point. *)
Definition Len_model (p : point) : double :=
  sqrt (add (add (mul (p0 p) (p0 p)) (mul (p1 p) (p1 p))) (mul (p2 p) (p2 p))).

(** Modelled from the spec: [Normalize3] of [slam6d/globals.icc]; the spec
    has it as [P̂ / ‖P̂‖]. *)
Definition Normalize3_model (p : point) : point :=
  let n := Len_model p in
  Point (div (p0 p) n) (div (p1 p) n) (div (p2 p) n).

(** ** Doubles and rays of the examples *)

Definition d_minus_one : double := dyadic (-1) 0.
(** The double nearest to 0.1, [0x1.999999999999ap-4]. *)
Definition d_tenth : double := dyadic 7205759403792794 (-56).
Definition d_half : double := dyadic 1 (-1).
Definition d_ten : double := of_Z 10.

(** A never stopping visitor on an empty block. *)
Definition keep_going (vox : voxel) (d : unit) : bool * unit := (true, d).

(** The voxel and the argument blocks of the visitor examples: one voxel,
    occupied by one scan only, and a window half-width close to
    [SIZE_MAX]. *)
Definition voxel0 : voxel := Voxel 0 0 0.

Definition args_wide_window : visitor_args :=
  {| empty_voxels := ∅;
     voxel_occupied_by_slice := {[ voxel0 := [1] ]};
     current_slice := 1;
     diff := SIZE_MAX |}.

Definition args_wide_singleton : visitor_args :=
  {| empty_voxels := ∅;
     voxel_occupied_by_slice := {[ voxel0 := [3] ]};
     current_slice := 3;
     diff := SIZE_MAX - 1 |}.

(** The window of the carving policy in the integers: some scan of
    [scanslices] lies in [[max(0, i - diff), i + diff]]. *)
Definition in_window (i diff : Z) (scanslices : list Z) : Prop :=
  exists j, j ∈ scanslices /\ Z.max 0 (i - diff) <= j <= i + diff.

(** A ray along the x axis through three voxels of a grid of size 1, from
    (0.5, 0.5, 0.5) to (2.5, 0.5, 0.5), and an argument block in which the
    voxel of the scanner holds a point of the neighbouring scan 1. *)
Definition ray_x_start : point := Point d_half d_half d_half.
Definition ray_x_end : point := Point (dyadic 5 (-1)) d_half d_half.

Definition args_neighbour : visitor_args :=
  {| empty_voxels := ∅;
     voxel_occupied_by_slice := {[ voxel0 := [1] ]};
     current_slice := 0;
     diff := 1 |}.

(** A ray from (-3, 3, 0.5) to (-2, -3, 0.5) in a grid of size 1: it ends
    on the corner where it enters cell (-2, -3, 0). *)
Definition ray_corner_start : point := Point (of_Z (-3)) (of_Z 3) d_half.
Definition ray_corner_end : point := Point (of_Z (-2)) (of_Z (-3)) d_half.

(** A ray inside one voxel. *)
Definition ray_short_end : point := Point (dyadic 3 (-2)) d_half d_half.

(** A ray of the least positive length: from x = -2^-1074, the negative
    double nearest to zero, to x = 0. *)
Definition ray_tiny_start : point := Point (S754_finite true 1 (-1074)) d_half d_half.
Definition ray_tiny_end : point := Point zero d_half d_half.

(** Every answer but the last one of a list of deliveries is "continue". *)
Definition stop_is_last (l : list (voxel * bool)) : Prop :=
  Forall (fun e => snd e = true) (removelast l).

(** A max range is safe for a point at distance [d] when, if finite, it
    lies between 0 and [d]. *)
Definition in_range (r d : double) : Prop :=
  is_finite r = true -> leb zero r = true /\ leb r d = true.

Definition ranges_ok (distances maxranges : list double) : Prop :=
  forall k r d, maxranges !! k = Some r -> distances !! k = Some d -> in_range r d.

(** Stand-ins for the other collaborators in the examples: the normal
    routine answers the z axis, the angular search answers every point of
    the scan, and the arc sine is not looked at by that search. *)
Definition normal_up (pts : list point) : point := Point zero zero one.
Definition search_all (pts : list point) (direction : point) (angle : double) : list nat :=
  seq 0 (length pts).
Definition asin_any (a : double) : double := a.

(** A scan at the origin that sees two points of the plane z = -10, at
    (0, 0, -10) and (1, 0, -10), each with a reflectance. *)
Definition plane_scan : scan unit :=
  {| slice := 0;
     rPos := Point zero zero zero;
     transMatOrg := tt;
     points := [Point zero zero (of_Z (-10)); Point one zero (of_Z (-10))];
     orig_points := [Point zero zero (of_Z (-10)); Point one zero (of_Z (-10))];
     reflectances := [one; one] |}.

(** Point [a] is not farther from the scanner than point [b]. *)
Definition not_farther (distances : list double) (a b : nat) : Prop :=
  match distances !! a, distances !! b with
  | Some da, Some db => leb da db = true
  | _, _ => False
  end.

(** Max ranges for the plane scan in which the first point has a max range
    and the second has none yet. *)
Definition plane_ranges_seeded : list double :=
  [S754_finite false 4654441612768875 (-49); infinity].

(** Two scans in a grid of size 10. Scan 0, at the origin, sees a point at
    (50, 0, 0). Scan 1, at (55, 100, 5), sees a point at (55, -100, 5); its
    line of sight passes through the voxel (5, 0, 0) of the point of scan
    0. Both points come with a reflectance of 1. *)
Definition scan_a : scan unit :=
  {| slice := 0;
     rPos := Point zero zero zero;
     transMatOrg := tt;
     points := [Point (of_Z 50) zero zero];
     orig_points := [Point (of_Z 50) zero zero];
     reflectances := [one] |}.

Definition scan_b : scan unit :=
  {| slice := 1;
     rPos := Point (of_Z 55) (of_Z 100) (of_Z 5);
     transMatOrg := tt;
     points := [Point (of_Z 55) (of_Z (-100)) (of_Z 5)];
     orig_points := [Point zero (of_Z (-200)) zero];
     reflectances := [one] |}.

Definition transform_id (m : unit) (p : point) : point := p.

Definition opts_default : Opt.t :=
  {| Opt.start := 0; Opt.end_ := -1; Opt.fuzz := zero; Opt.voxel_size := d_ten;
     Opt.diff := 0; Opt.normal_method := ANGLE; Opt.maxrange_method := NONE;
     Opt.maskdir := ""; Opt.dir := "dat/"; Opt.no_subvoxel_accuracy := true |}.

(** The line that [write_point] prints for a point. *)
Definition line_of (p : point) : line3d := Line3d (p0 p) (p1 p) (p2 p) zero.

(** The voxel of the point is in the set. *)
Definition in_free (voxel_size : double) (free_voxels : gset voxel) (p : point) : bool :=
  match voxel_of_point p voxel_size with
  | Some vox => bool_decide (vox ∈ free_voxels)
  | None => false
  end.

(** ** Further parts of the translation unit *)

(** [voxel::operator==] and [voxel::operator!=]. *)
Definition voxel_eqb (a b : voxel) : bool :=
  (x a =? x b) && (y a =? y b) && (z a =? z b).

Definition voxel_neb (a b : voxel) : bool :=
  negb (x a =? x b) || negb (y a =? y b) || negb (z a =? z b).

(** The three coordinates are neither infinities nor NaN. *)
Definition finite_point (p : point) : bool :=
  is_finite (p0 p) && is_finite (p1 p) && is_finite (p2 p).

(** What a [validate] overload of [boost::program_options] leaves behind for
    the single string [s] of an option: the value stored in [v], or the
    [validation_error] of kind [invalid_option_value] with the text handed
    to its constructor. *)
Inductive validated (A : Type) : Type :=
| Valid (a : A)
| Invalid_option_value (text : string).

Arguments Valid {A} a.
Arguments Invalid_option_value {A} text.

(** The tables [method_values] of the two overloads. *)
Definition maxrange_method_values : list (string * maxrange_method_t) :=
  [("none", NONE); ("normals", NORMALS); ("1nearest", ONENEAREST)].

Definition normal_method_values : list (string * normal_method_t) :=
  [("knearest", KNEAREST); ("range", RANGE); ("angle", ANGLE);
   ("knearest-global", KNEAREST_GLOBAL); ("range-global", RANGE_GLOBAL)].

(** [validate(v, values, (maxrange_method_t* )0, 0)]: [method_values.at(s)],
    whose [std::out_of_range] is turned into the validation error. *)
Definition validate_maxrange_method (s : string) : validated maxrange_method_t :=
  match (list_to_map maxrange_method_values : gmap string maxrange_method_t) !! s with
  | Some m => Valid m
  | None => Invalid_option_value ("Unknown maxrange method: " +:+ s)
  end.

Definition validate_normal_method (s : string) : validated normal_method_t :=
  match (list_to_map normal_method_values : gmap string normal_method_t) !! s with
  | Some m => Valid m
  | None => Invalid_option_value ("Unknown normal method: " +:+ s)
  end.

(** [dir.back()]: the last character of the string, undefined for the
    empty one. *)
Fixpoint back (s : string) : option Ascii.ascii :=
  match s with
  | EmptyString => None
  | String c EmptyString => Some c
  | String _ r => back r
  end.

Definition separator : Ascii.ascii := Ascii.ascii_of_nat 47.

(** [if (vm.count("input-dir")) { if (dir.back() != separator) dir +=
    separator; }]: the directory that [main] goes on with, for the
    positional argument when there is one. *)
Definition input_dir (given : option string) : outcome string :=
  match given with
  | None => Ret EmptyString
  | Some dir =>
      c ← of_option (back dir);
      if Ascii.eqb c separator then Ret dir
      else Ret (dir +:+ String separator EmptyString)
  end.

(** The scan numbers that the ingest loop hands out, [size_t i = id+start]
    for [id] from 0 up to the number of scans found. *)
Definition scanorder (start : Z) (n : nat) : list Z :=
  map (fun id => uwrap (Z.of_nat id + start)) (seq 0 n).

(** The options after a command line that names the input directory and
    nothing else: every [default_value] of the option descriptions. *)
Definition opts_of_dir (dir : string) : Opt.t :=
  {| Opt.start := 0; Opt.end_ := -1; Opt.fuzz := of_Z 0; Opt.voxel_size := of_Z 10;
     Opt.diff := 0; Opt.normal_method := ANGLE; Opt.maxrange_method := NONE;
     Opt.maskdir := EmptyString; Opt.dir := dir; Opt.no_subvoxel_accuracy := false |}.

(** ** The box of a ray *)

(** [c] lies between [a] and [b], in either order. *)
Definition between (a b c : Z) : Prop := Z.min a b <= c <= Z.max a b.

(** The voxel [v] lies in the box spanned by the voxels [a] and [b]. *)
Definition in_box (a b v : voxel) : Prop :=
  between (x a) (x b) (x v) /\ between (y a) (y b) (y v) /\ between (z a) (z b) (z v).

(** Voxels whose coordinates are integers that a double holds exactly, with
    room for the differences that the walker forms. *)
Definition small_voxel (v : voxel) : Prop :=
  Z.abs (x v) <= 2 ^ 51 /\ Z.abs (y v) <= 2 ^ 51 /\ Z.abs (z v) <= 2 ^ 51.

(** ** The plane of a seed and the rule for its shadow *)

(** The normal of a seed, turned toward the scanner: [if (angle_cos >= 0)
    { normal[0] *= -1; ... }]. *)
Definition toward_scanner (normal p_norm : point) : point :=
  if leb zero (dot normal p_norm)
  then Point (mul (p0 normal) (of_Z (-1))) (mul (p1 normal) (of_Z (-1)))
             (mul (p2 normal) (of_Z (-1)))
  else normal.

(** [dividend] of a seed [p] with the normal [normal]: the plane lies a
    voxel diagonal (and the fuzz) above the seed, [p_base . normal]. *)
Definition plane_dividend (voxel_size fuzz : double) (p normal : point) : double :=
  dot (Point (add (p0 p) (mul (p0 normal) (add (voxel_diagonal_of voxel_size) fuzz)))
             (add (p1 p) (mul (p1 normal) (add (voxel_diagonal_of voxel_size) fuzz)))
             (add (p2 p) (mul (p2 normal) (add (voxel_diagonal_of voxel_size) fuzz))))
      normal.

(** A candidate with negative values clamped to 0. *)
Definition clamped (d : double) : double := if ltb d zero then zero else d.

(** Written after the spec: the max range of a shadow neighbour [p_k] at
    distance [d_k] with the max range [r_k], for the plane with the normal
    [n] and the dividend [D]. With [q = p_k / |p_k|]: if [q . n = 0] the
    neighbour is skipped; if the candidate [D / (q . n)] exceeds [d_k] it is
    skipped; otherwise its max range becomes the lesser of the clamped
    candidate and [r_k]. *)
Definition spec_shadow_value (Normalize3 : point -> point) (n : point) (D : double)
    (p_k : point) (d_k r_k : double) : double :=
  let q := Normalize3 p_k in
  if eqb (dot q n) zero then r_k
  else if gtb (div D (dot q n)) d_k then r_k
  else min (clamped (div D (dot q n))) r_k.

(** Written after the spec: the max ranges after the shadow of a seed, the
    rule applied to every point whose index is among the shadow
    neighbours, every other max range kept. *)
Definition spec_shadow (Normalize3 : point -> point) (orig : list point)
    (distances : list double) (n : point) (D : double) (shadow : list nat)
    (maxranges : list double) : list double :=
  imap (fun k r_k =>
          if bool_decide (k ∈ shadow) then
            match orig !! k, distances !! k with
            | Some p_k, Some d_k => spec_shadow_value Normalize3 n D p_k d_k r_k
            | _, _ => r_k
            end
          else r_k)
       maxranges.

(** ** The crossings of a ray *)

(** [tMaxX] while [multX] is [m]: [tMaxXStart] before the first step of the
    axis, [tMaxXStart + multX*tDeltaX] after a step. *)
Definition tMax_at (a : axis) (m : Z) : double :=
  if m =? 0 then tMaxStart a else add (tMaxStart a) (mul (of_Z m) (tDelta a)).

(** The number of steps of an axis from its start to the coordinate
    [end_c]. *)
Definition steps_of (a : axis) (end_c : Z) : Z := (end_c - start_c a) * step a.

(** Every [tMax] of a moving axis up to its [K]-th step is finite. *)
Definition finite_crossings (a : axis) (K : Z) : bool :=
  (step a =? 0) || forallb (fun m => is_finite (tMax_at a m)) (seqZ 0 (K + 1)).

(** For two moving axes: each of the [Kb] crossings of axis [b] on the way
    comes, as computed, before the crossing by which axis [a] would leave
    the voxel of the end. *)
Definition crosses_before (b a : axis) (Kb Ka : Z) : bool :=
  (step a =? 0) || (step b =? 0)
  || forallb (fun m => ltb (tMax_at b m) (tMax_at a Ka)) (seqZ 0 Kb).

(** The crossings that the walker computes are ordered as those of the ray:
    the voxel of the end lies ahead on every axis, the parameters are
    finite, and no axis leaves the voxel of the end before the other axes
    have reached it. *)
Definition crossings_ordered (ax ay az : axis) (end_voxel : voxel) : bool :=
  let Kx := steps_of ax (x end_voxel) in
  let Ky := steps_of ay (y end_voxel) in
  let Kz := steps_of az (z end_voxel) in
  (0 <=? Kx) && (0 <=? Ky) && (0 <=? Kz)
  && finite_crossings ax Kx && finite_crossings ay Ky && finite_crossings az Kz
  && crosses_before ay ax Ky Kx && crosses_before az ax Kz Kx
  && crosses_before ax ay Kx Ky && crosses_before az ay Kz Ky
  && crosses_before ax az Kx Kz && crosses_before ay az Ky Kz.

Definition ray_ordered (start_pos end_pos : point) (voxel_size : double)
    (start_voxel end_voxel : voxel) : bool :=
  crossings_ordered (setup_x start_pos end_pos voxel_size start_voxel end_voxel)
                    (setup_y start_pos end_pos voxel_size start_voxel end_voxel)
                    (setup_z start_pos end_pos voxel_size start_voxel end_voxel)
                    end_voxel.

(** An axis as the set-up leaves it for a walk of [K] steps between small
    voxels: a still axis has no steps and its [tMax] is infinite; a moving
    axis has the budget [K] and finite crossings. *)
Definition axis_ok (a : axis) (K : Z) : Prop :=
  Z.abs (start_c a) <= 2 ^ 51 + 1 /\ 0 <= K <= 2 ^ 52 + 1
  /\ ((step a = 0 /\ tMaxStart a = infinity /\ maxMult a = infinity /\ K = 0)
      \/ ((step a = 1 \/ step a = -1) /\ maxMult a = of_Z K
          /\ forall m, 0 <= m <= K -> is_finite (tMax_at a m) = true)).

(** The variables of an axis after [m] of its steps. *)
Definition axis_at (a : axis) (K m : Z) (s : axis_state) : Prop :=
  0 <= m <= K /\ cur s = start_c a + m * step a
  /\ ((step a = 0 /\ s = enter_loop a)
      \/ (step a <> 0 /\ mult s = m /\ tMax s = tMax_at a m)).

(** For the axis [a] that has no step left, or never moves: every crossing
    of a moving axis [b] on the way comes before its own. *)
Definition waits_for (a b : axis) (Ka Kb : Z) : Prop :=
  step a <> 0 -> step b <> 0 ->
  forall m, 0 <= m < Kb -> ltb (tMax_at b m) (tMax_at a Ka) = true.

(** A ray through the voxels (0,0,0), (1,0,0), (1,1,0) and (2,1,0) of a grid
    of size 1, from (0.5, 0.5, 0.5) to (2.5, 1.5, 0.5). *)
Definition ray_diag_end : point := Point (dyadic 5 (-1)) (dyadic 3 (-1)) d_half.

(** * Properties *)

(** ** Representation of the doubles *)

Lemma digits2_pos_bounds (m : positive) :
  2 ^ (Zpos (digits2_pos m) - 1) <= Zpos m < 2 ^ Zpos (digits2_pos m).
Proof.
  induction m as [m IH|m IH|]; simpl digits2_pos.
  - rewrite Pos2Z.inj_succ, Z.pow_succ_r by lia.
    replace (Z.succ (Zpos (digits2_pos m)) - 1) with (Z.succ (Zpos (digits2_pos m) - 1)) by lia.
    rewrite Z.pow_succ_r by lia. lia.
  - rewrite Pos2Z.inj_succ, Z.pow_succ_r by lia.
    replace (Z.succ (Zpos (digits2_pos m)) - 1) with (Z.succ (Zpos (digits2_pos m) - 1)) by lia.
    rewrite Z.pow_succ_r by lia. lia.
  - simpl. lia.
Qed.

Lemma shl_align_value (m : positive) (e ez : Z) :
  ez <= e -> Zpos (fst (shl_align m e ez)) = Zpos m * 2 ^ (e - ez).
Proof.
  intros Hle. unfold shl_align.
  destruct (ez - e) as [|d|d] eqn:Hd; simpl.
  - replace (e - ez) with 0 by lia. simpl. lia.
  - lia.
  - replace (e - ez) with (Zpos d) by lia.
    clear Hd Hle. revert m. induction d using Pos.peano_ind; intros m.
    + simpl. lia.
    + rewrite Pos.iter_succ. rewrite Pos2Z.inj_xO, IHd.
      rewrite Pos2Z.inj_succ, Z.pow_succ_r by lia. lia.
Qed.

Lemma shl_align_exp (m : positive) (e ez : Z) :
  ez <= e -> snd (shl_align m e ez) = ez.
Proof.
  intros Hle. unfold shl_align.
  destruct (ez - e) as [|d|d] eqn:Hd; simpl; lia.
Qed.

Lemma digits2_pos_unique (n : positive) (d : Z) :
  2 ^ (d - 1) <= Zpos n < 2 ^ d -> Zpos (digits2_pos n) = d.
Proof.
  intros [Hlo Hhi]. pose proof (digits2_pos_bounds n) as [Blo Bhi].
  set (k := Zpos (digits2_pos n)) in *.
  assert (0 < k) by (unfold k; lia).
  destruct (Z.lt_trichotomy k d) as [Hlt|[Heq|Hgt]]; [|done|].
  - assert (2 ^ k <= 2 ^ (d - 1)) by (apply Z.pow_le_mono_r; lia). lia.
  - assert (d < 0 \/ 0 <= d) as [Hneg|Hnn] by lia.
    + rewrite (Z.pow_neg_r 2 d) in Hhi by lia. lia.
    + assert (2 ^ d <= 2 ^ (k - 1)) by (apply Z.pow_le_mono_r; lia). lia.
Qed.

Lemma digits2_pos_shl (m : positive) (e ez : Z) :
  ez <= e ->
  Zpos (digits2_pos (fst (shl_align m e ez))) = Zpos (digits2_pos m) + (e - ez).
Proof.
  intros Hle. apply digits2_pos_unique. rewrite shl_align_value by done.
  pose proof (digits2_pos_bounds m) as [Blo Bhi].
  replace (Zpos (digits2_pos m) + (e - ez) - 1)
    with ((Zpos (digits2_pos m) - 1) + (e - ez)) by lia.
  rewrite !Z.pow_add_r by lia.
  assert (0 < 2 ^ (e - ez)) by (apply Z.pow_pos_nonneg; lia).
  split; nia.
Qed.

(** Rounding a significand of at most 53 bits at an exponent that is not
    below the least one changes nothing but the representation. *)
Lemma binary_round_exact (sx : bool) (m : positive) (e : Z) :
  Zpos (digits2_pos m) <= 53 -> (-1074) <= e -> Zpos (digits2_pos m) + e <= 1024 ->
  exists m' e',
    binary_round prec emax sx m e = S754_finite sx m' e'
    /\ (-1074) <= e' <= e
    /\ Zpos m' = Zpos m * 2 ^ (e - e').
Proof.
  intros Hd He Hmax. unfold binary_round.
  set (F := fexp prec emax (Zpos (digits2_pos m) + e)).
  assert (HF : F = Z.max (Zpos (digits2_pos m) + e - 53) (-1074)) by reflexivity.
  assert (HFe : F <= e) by lia.
  pose proof (shl_align_value m e F HFe) as Hval.
  pose proof (shl_align_exp m e F HFe) as Hexp.
  pose proof (digits2_pos_shl m e F HFe) as Hdig.
  destruct (shl_align m e F) as [mz ez]. simpl in Hval, Hexp, Hdig. subst ez.
  unfold binary_round_aux, shr_fexp. simpl Zdigits2.
  rewrite Hdig. replace (Zpos (digits2_pos m) + (e - F) + F) with (Zpos (digits2_pos m) + e) by lia.
  fold F. rewrite Z.sub_diag.
  cbv beta iota zeta delta [shr shr_m shr_record_of_loc loc_of_shr_record round_nearest_even Zdigits2].
  rewrite Hdig.
  replace (Zpos (digits2_pos m) + (e - F) + F) with (Zpos (digits2_pos m) + e) by lia.
  fold F. rewrite Z.sub_diag. cbv beta iota zeta.
  destruct (Z.leb_spec F (emax - prec)) as [_|Hbad]; [|unfold emax, prec in Hbad; lia].
  exists mz, F. split; [done|]. split; [lia | done].
Qed.

Lemma shr_1_nonneg (mrs : shr_record) : 0 <= shr_m mrs -> 0 <= shr_m (shr_1 mrs).
Proof. destruct mrs as [[|[p|p|]|p] r s]; simpl; lia. Qed.

Lemma iter_shr_1_nonneg (n : positive) (mrs : shr_record) :
  0 <= shr_m mrs -> 0 <= shr_m (SpecFloat.iter_pos shr_1 n mrs).
Proof.
  revert mrs. induction n as [n IH|n IH|]; simpl; intros mrs H.
  - apply IH, IH. by apply shr_1_nonneg.
  - by apply IH, IH.
  - by apply shr_1_nonneg.
Qed.

Lemma shr_nonneg (mrs : shr_record) (e n : Z) :
  0 <= shr_m mrs -> 0 <= shr_m (fst (shr mrs e n)).
Proof. intros H. destruct n; simpl; auto. by apply iter_shr_1_nonneg. Qed.

Lemma round_nearest_even_nonneg (m : Z) (l : location) :
  0 <= m -> 0 <= round_nearest_even m l.
Proof. intros H. destruct l as [|[]]; simpl; try lia. destruct (Z.even m); lia. Qed.

(** Rounding never turns the sign and never answers a NaN. *)
Lemma binary_round_aux_sign (sx : bool) (m : Z) (e : Z) (l : location) :
  0 <= m -> sign_is sx (binary_round_aux prec emax sx m e l).
Proof.
  intros Hm. unfold binary_round_aux, shr_fexp.
  destruct (shr (shr_record_of_loc m l) e _) as [mrs' e'] eqn:H1.
  assert (Hm1 : 0 <= shr_m mrs').
  { replace mrs' with (fst (shr (shr_record_of_loc m l) e
      (fexp prec emax (Zdigits2 m + e) - e))) by by rewrite H1.
    apply shr_nonneg. by destruct l as [|[]]. }
  destruct (shr (shr_record_of_loc _ loc_Exact) e' _) as [mrs'' e''] eqn:H2.
  assert (Hm2 : 0 <= shr_m mrs'').
  { replace mrs'' with (fst (shr (shr_record_of_loc
      (round_nearest_even (shr_m mrs') (loc_of_shr_record mrs')) loc_Exact) e'
      (fexp prec emax (Zdigits2 (round_nearest_even (shr_m mrs') (loc_of_shr_record mrs')) + e') - e')))
      by by rewrite H2.
    apply shr_nonneg. simpl. by apply round_nearest_even_nonneg. }
  destruct (shr_m mrs'') as [|p|p]; simpl; [done| |lia].
  by destruct (e'' <=? emax - prec).
Qed.

Lemma binary_round_sign (sx : bool) (m : positive) (e : Z) :
  sign_is sx (binary_round prec emax sx m e).
Proof.
  unfold binary_round. destruct (shl_align m e _) as [mz ez].
  by apply binary_round_aux_sign.
Qed.

Lemma valid_finite (s : bool) (m : positive) (e : Z) :
  valid_double (S754_finite s m e) ->
  Zpos (digits2_pos m) <= 53 /\ -1074 <= e <= 971.
Proof.
  unfold valid_double, valid_binary, bounded, canonical_mantissa, fexp, emin, prec, emax.
  intros H. apply andb_true_iff in H as [H1 H2].
  apply Z.eqb_eq in H1. apply Z.leb_le in H2. lia.
Qed.

Lemma digits2_pos_le (q : positive) (d : Z) :
  0 <= d -> Zpos q < 2 ^ d -> Zpos (digits2_pos q) <= d.
Proof.
  intros Hd Hq. pose proof (digits2_pos_bounds q) as [Blo _].
  destruct (Z_le_gt_dec (Zpos (digits2_pos q)) d) as [|Hgt]; [done|].
  assert (2 ^ d <= 2 ^ (Zpos (digits2_pos q) - 1)) by (apply Z.pow_le_mono_r; lia). lia.
Qed.

Lemma shr_1_div2 (mrs : shr_record) : 0 <= shr_m mrs -> shr_m (shr_1 mrs) = shr_m mrs / 2.
Proof.
  destruct mrs as [[|[p|p|]|p] r s]; simpl; intros H; try lia; try reflexivity.
  - rewrite Pos2Z.inj_xI. apply (Z.div_unique _ 2 _ 1); lia.
  - rewrite Pos2Z.inj_xO. apply (Z.div_unique _ 2 _ 0); lia.
Qed.

Lemma iter_shr_1_div (n : positive) (mrs : shr_record) :
  0 <= shr_m mrs ->
  shr_m (SpecFloat.iter_pos shr_1 n mrs) = shr_m mrs / 2 ^ Zpos n.
Proof.
  revert mrs. induction n as [n IH|n IH|]; simpl SpecFloat.iter_pos; intros mrs H.
  - rewrite IH by (apply iter_shr_1_nonneg; by apply shr_1_nonneg).
    rewrite IH by by apply shr_1_nonneg.
    rewrite shr_1_div2 by done.
    rewrite !Z.div_div by (try apply Z.pow_pos_nonneg; lia).
    f_equal. rewrite (Pos2Z.inj_xI n).
    replace (2 * Zpos n + 1) with (1 + (Zpos n + Zpos n)) by lia.
    rewrite (Z.pow_add_r 2 1) by lia. rewrite (Z.pow_add_r 2 (Zpos n)) by lia. lia.
  - rewrite IH by by apply iter_shr_1_nonneg.
    rewrite IH by done.
    rewrite !Z.div_div by (try apply Z.pow_pos_nonneg; lia).
    f_equal. rewrite (Pos2Z.inj_xO n).
    replace (2 * Zpos n) with (Zpos n + Zpos n) by lia.
    rewrite (Z.pow_add_r 2 (Zpos n)) by lia. lia.
  - by rewrite shr_1_div2.
Qed.

(** Shifting a positive significand down to the exponent that its
    magnitude asks for leaves it positive, as long as the exponent it
    comes with is not below the least one. *)
Lemma shr_fexp_pos (M : positive) (r s : bool) (E : Z) :
  -1074 <= E ->
  let res := shr (Build_shr_record (Zpos M) r s) E
                 (fexp prec emax (Zpos (digits2_pos M) + E) - E) in
  0 < shr_m (fst res) /\ -1074 <= snd res.
Proof.
  intros HE. unfold fexp, emin, prec, emax.
  destruct (Z.max (Zpos (digits2_pos M) + E - 53) (3 - 1024 - 53) - E) as [|n|n] eqn:Hn;
    simpl; try (split; lia).
  assert (Hd : Zpos n = Zpos (digits2_pos M) - 53) by lia.
  split; [|lia].
  rewrite iter_shr_1_div by (simpl; lia). simpl shr_m.
  pose proof (digits2_pos_bounds M) as [Blo _].
  assert (2 ^ 52 <= Zpos M / 2 ^ Zpos n); [|lia].
  apply Z.div_le_lower_bound; [apply Z.pow_pos_nonneg; lia|].
  rewrite <- Z.pow_add_r by lia.
  replace (Zpos n + 52) with (Zpos (digits2_pos M) - 1) by lia. done.
Qed.

(** Rounding a non-zero value at an exponent that is not below the least
    one never answers a zero. *)
Lemma binary_round_aux_nonzero (sx : bool) (M : positive) (E : Z) (l : location) :
  -1074 <= E -> is_zero (binary_round_aux prec emax sx (Zpos M) E l) = false.
Proof.
  intros HE. unfold binary_round_aux, shr_fexp. simpl Zdigits2.
  pose proof (shr_fexp_pos M
                (shr_r (shr_record_of_loc (Zpos M) l))
                (shr_s (shr_record_of_loc (Zpos M) l)) E HE) as H1.
  replace (Build_shr_record (Zpos M) (shr_r (shr_record_of_loc (Zpos M) l))
             (shr_s (shr_record_of_loc (Zpos M) l)))
    with (shr_record_of_loc (Zpos M) l) in H1 by (by destruct l as [|[]]).
  cbv zeta in H1.
  destruct (shr (shr_record_of_loc (Zpos M) l) E _) as [mrs' e'].
  simpl in H1. destruct H1 as [Hm1 He1].
  set (m3 := round_nearest_even (shr_m mrs') (loc_of_shr_record mrs')).
  assert (Hm3 : 0 < m3).
  { unfold m3. destruct (loc_of_shr_record mrs') as [|[]]; simpl; try lia.
    destruct (Z.even (shr_m mrs')); lia. }
  destruct m3 as [|M3|M3] eqn:HM3; try lia.
  pose proof (shr_fexp_pos M3 false false e' He1) as H2. cbv zeta in H2.
  simpl shr_record_of_loc. simpl Zdigits2.
  destruct (shr _ e' _) as [mrs'' e'']. simpl in H2. destruct H2 as [Hm2 _].
  destruct (shr_m mrs'') as [|p|p]; try lia.
  by destruct (e'' <=? emax - prec).
Qed.

Lemma binary_round_nonzero (sx : bool) (m : positive) (e : Z) :
  -1074 <= e -> is_zero (binary_round prec emax sx m e) = false.
Proof.
  intros He. unfold binary_round.
  destruct (shl_align m e _) as [mz ez] eqn:Hs.
  apply binary_round_aux_nonzero.
  unfold shl_align in Hs.
  destruct (fexp prec emax (Zpos (digits2_pos m) + e) - e) eqn:Hf;
    injection Hs as <- <-; try lia.
  unfold fexp, emin, prec, emax. lia.
Qed.

Lemma canonical_unique (m1 m2 : positive) (e1 e2 : Z) :
  valid_double (S754_finite false m1 e1) -> valid_double (S754_finite false m2 e2) ->
  Zpos m1 * 2 ^ (e1 - Z.min e1 e2) = Zpos m2 * 2 ^ (e2 - Z.min e1 e2) ->
  e1 = e2 /\ m1 = m2.
Proof.
  unfold valid_double, valid_binary, bounded, canonical_mantissa.
  intros [C1 _]%andb_true_iff [C2 _]%andb_true_iff Heq.
  apply Z.eqb_eq in C1, C2.
  assert (Hd : Zpos (digits2_pos m1) + e1 = Zpos (digits2_pos m2) + e2).
  { pose proof (digits2_pos_shl m1 e1 (Z.min e1 e2) ltac:(lia)) as D1.
    pose proof (digits2_pos_shl m2 e2 (Z.min e1 e2) ltac:(lia)) as D2.
    pose proof (shl_align_value m1 e1 (Z.min e1 e2) ltac:(lia)) as V1.
    pose proof (shl_align_value m2 e2 (Z.min e1 e2) ltac:(lia)) as V2.
    rewrite <- V1, <- V2 in Heq. injection Heq as Heq. rewrite Heq in D1. lia. }
  assert (He : e1 = e2) by (rewrite <- C1, <- C2, Hd; done).
  split; [done|]. subst e2. rewrite Z.min_id, Z.sub_diag in Heq. simpl in Heq. lia.
Qed.

(** For finite doubles a difference that compares equal to zero means that
    the operands compare equal. *)
Lemma sub_eq_zero (a b : double) :
  valid_double a -> valid_double b -> is_finite a = true -> is_finite b = true ->
  eqb (sub a b) zero = true -> eqb a b = true.
Proof.
  intros Va Vb Fa Fb.
  destruct a as [sa| | |sa ma ea], b as [sb| | |sb mb eb]; try discriminate.
  - reflexivity.
  - simpl. by destruct sb.
  - simpl. by destruct sa.
  - pose proof (valid_finite _ _ _ Va) as [_ Hea].
    pose proof (valid_finite _ _ _ Vb) as [_ Heb].
    unfold sub, SFsub.
    set (ez := Z.min ea eb).
    rewrite (shl_align_value ma ea ez ltac:(lia)), (shl_align_value mb eb ez ltac:(lia)).
    assert (HX : 0 < Zpos ma * 2 ^ (ea - ez))
      by (apply Z.mul_pos_pos; [lia | apply Z.pow_pos_nonneg; lia]).
    assert (HY : 0 < Zpos mb * 2 ^ (eb - ez))
      by (apply Z.mul_pos_pos; [lia | apply Z.pow_pos_nonneg; lia]).
    destruct (cond_Zopp sa (Zpos ma * 2 ^ (ea - ez)) - cond_Zopp sb (Zpos mb * 2 ^ (eb - ez)))
      as [|p|p] eqn:Hdiff.
    + intros _.
      assert (sa = sb /\ Zpos ma * 2 ^ (ea - ez) = Zpos mb * 2 ^ (eb - ez)) as [-> Heq]
        by (destruct sa, sb; simpl in Hdiff; split; try done; lia).
      assert (Va' : valid_double (S754_finite false ma ea)) by exact Va.
      assert (Vb' : valid_double (S754_finite false mb eb)) by exact Vb.
      destruct (canonical_unique ma mb ea eb Va' Vb' Heq) as [-> ->].
      unfold eqb, SFeqb. simpl.
      rewrite Z.compare_refl, Pos.compare_cont_refl. by destruct sb.
    + simpl binary_normalize. intros Hz.
      pose proof (binary_round_nonzero false p ez ltac:(lia)) as Hnz.
      pose proof (binary_round_sign false p ez) as Hsg.
      destruct (binary_round prec emax false p ez) as [s|s| |s m e]; simpl in *;
        try done; by destruct s.
    + simpl binary_normalize. intros Hz.
      pose proof (binary_round_nonzero true p ez ltac:(lia)) as Hnz.
      pose proof (binary_round_sign true p ez) as Hsg.
      destruct (binary_round prec emax true p ez) as [s|s| |s m e]; simpl in *;
        try done; by destruct s.
Qed.

(** ** Voxelizer *)

(** C2 (code defect: the truncated quotient is taken from the rounded
    division). For x = -1.0 and voxel size 0.1 (the double nearest to it)
    the real quotient is just above -10, so its floor is -10; the double
    division rounds to -10.0 exactly, the [fmod] remainder is non-zero and
    negative, and [py_div] answers -11. The distance of the quotient to
    that cell index is outside [0, 1). *)
Theorem py_div_below_floor :
  py_div d_minus_one d_tenth = Some (-11)
  /\ floor_quotient d_minus_one d_tenth = Some (-10)
  /\ fraction_in_unit d_minus_one d_tenth (-11) = Some false.
Proof. vm_compute. repeat split. Qed.

(** The same rounding on the positive side: 1.0 / 0.1 is just below 10 and
    [py_div] answers 10. *)
Lemma py_div_above_floor :
  py_div one d_tenth = Some 10 /\ floor_quotient one d_tenth = Some 9.
Proof. vm_compute. split; reflexivity. Qed.

(** Where the division is exact the voxelizer floors: -0.5 lies in cell -1
    of a grid of size 1, and -5 in cell -1 of a grid of size 10. *)
Lemma py_div_negative_half :
  py_div (dyadic (-1) (-1)) one = Some (-1)
  /\ py_div (of_Z (-5)) d_ten = Some (-1).
Proof. vm_compute. split; reflexivity. Qed.

(** The remainder [py_mod a b] of finite doubles is a zero or has the sign
    of the divisor [b]. *)
Lemma py_mod_sign (a b : double) (sb : bool) (mb : positive) (eb : Z) :
  valid_double a -> valid_double b -> is_finite a = true ->
  b = S754_finite sb mb eb ->
  match py_mod a b with
  | S754_zero _ => True
  | r => sign_is sb r
  end.
Proof.
  intros Va Vb Fa ->. destruct a as [sa| | |sa ma ea]; try discriminate.
  { (* the dividend is a zero, and so is the remainder *) reflexivity. }
  apply valid_finite in Va as [Hda Hea]. apply valid_finite in Vb as [Hdb Heb].
  unfold py_mod, fmod.
  set (ez := Z.min ea eb).
  assert (Hza : ez <= ea) by lia. assert (Hzb : ez <= eb) by lia.
  pose proof (shl_align_value ma ea ez Hza) as Hax.
  pose proof (shl_align_value mb eb ez Hzb) as Hay.
  set (ax := Zpos (fst (shl_align ma ea ez))) in *.
  set (ay := Zpos (fst (shl_align mb eb ez))) in *.
  assert (Hrem : 0 <= Z.rem ax ay < ay) by (apply Z.rem_bound_pos; unfold ax, ay; lia).
  assert (Hle : Z.rem ax ay <= ax) by (apply Z.rem_le; unfold ax, ay; lia).
  destruct (Z.rem ax ay) as [|q|q] eqn:Hq; [|clear Hq|lia].
  { (* an exact multiple: the remainder is a zero *) by destruct sa. }
  assert (Hdq : Zpos (digits2_pos q) <= 53).
  { apply digits2_pos_le; [lia|].
    pose proof (digits2_pos_bounds ma) as [_ Bma].
    pose proof (digits2_pos_bounds mb) as [_ Bmb].
    assert (2 ^ Zpos (digits2_pos ma) <= 2 ^ 53) by (apply Z.pow_le_mono_r; lia).
    assert (2 ^ Zpos (digits2_pos mb) <= 2 ^ 53) by (apply Z.pow_le_mono_r; lia).
    destruct (Z.le_ge_cases ea eb).
    - replace (ea - ez) with 0 in Hax by lia. simpl in Hax. lia.
    - replace (eb - ez) with 0 in Hay by lia. simpl in Hay. lia. }
  destruct (binary_round_exact sa q ez Hdq ltac:(lia) ltac:(lia))
    as (m' & e' & Hr & [He'lo He'hi] & Hm').
  assert (Hnorm : binary_normalize prec emax (cond_Zopp sa (Zpos q)) ez sa
                  = S754_finite sa m' e') by (by destruct sa).
  rewrite Hnorm.
  replace (neb (S754_finite sa m' e') zero) with true by (by destruct sa).
  replace (ltb (S754_finite sa m' e') zero) with sa by (by destruct sa).
  replace (ltb (S754_finite sb mb eb) zero) with sb by (by destruct sb).
  simpl andb.
  destruct (xorb sa sb) eqn:Hx.
  2:{ simpl. by destruct sa, sb. }
  (* the remainder is raised by the divisor: the aligned significand of the
     divisor is the greater one *)
  unfold add, SFadd.
  set (ez2 := Z.min e' eb).
  assert (H2r : ez2 <= e') by lia. assert (H2b : ez2 <= eb) by lia.
  rewrite (shl_align_value m' e' ez2 H2r), (shl_align_value mb eb ez2 H2b).
  assert (HA : Zpos m' * 2 ^ (e' - ez2) = Zpos q * 2 ^ (ez - ez2)).
  { rewrite Hm'. rewrite <- Z.mul_assoc, <- Z.pow_add_r by lia. f_equal. f_equal. lia. }
  assert (HB : Zpos mb * 2 ^ (eb - ez2) = ay * 2 ^ (ez - ez2)).
  { rewrite Hay. rewrite <- Z.mul_assoc, <- Z.pow_add_r by lia. f_equal. f_equal. lia. }
  rewrite HA, HB.
  assert (Hpow : 0 < 2 ^ (ez - ez2)) by (apply Z.pow_pos_nonneg; lia).
  assert (Hlt : Zpos q * 2 ^ (ez - ez2) < ay * 2 ^ (ez - ez2)) by nia.
  assert (Hqpos : 0 < Zpos q * 2 ^ (ez - ez2)) by nia.
  destruct sa, sb; try discriminate; simpl cond_Zopp.
  - destruct (- (Zpos q * 2 ^ (ez - ez2)) + ay * 2 ^ (ez - ez2)) as [|p|p] eqn:Hs; [lia| |lia].
    simpl binary_normalize.
    pose proof (binary_round_sign false p ez2) as Hsign.
    destruct (binary_round prec emax false p ez2); simpl in *; done.
  - destruct (Zpos q * 2 ^ (ez - ez2) + - (ay * 2 ^ (ez - ez2))) as [|p|p] eqn:Hs; [lia|lia|].
    simpl binary_normalize.
    pose proof (binary_round_sign true p ez2) as Hsign.
    destruct (binary_round prec emax true p ez2); simpl in *; done.
Qed.

(** ** [std::set<size_t>] *)

Lemma find_elem_of (k : Z) (s : list Z) : SizeSet.find k s = true <-> k ∈ s.
Proof.
  unfold SizeSet.find. rewrite existsb_exists. split.
  - intros (j & Hin & Heq). apply Z.eqb_eq in Heq. subst j.
    by apply list_elem_of_In.
  - intros Hin. exists k. split; [by apply list_elem_of_In | apply Z.eqb_refl].
Qed.

(** [lower_bound] answers the least element that is not below the key. *)
Lemma lower_bound_Some (k lb : Z) (s : list Z) :
  SizeSet.wf s -> SizeSet.lower_bound k s = Some lb ->
  lb ∈ s /\ k <= lb /\ (forall j, j ∈ s -> k <= j -> lb <= j).
Proof.
  unfold SizeSet.wf. induction s as [|h r IH]; simpl; [discriminate|].
  intros Hs Hlb. apply StronglySorted_inv in Hs as [Hr Hh].
  destruct (Z.ltb_spec h k) as [Hlt|Hge].
  - destruct (IH Hr Hlb) as (Hin & Hk & Hmin).
    split; [by right|]. split; [done|].
    intros j Hj Hkj. apply elem_of_cons in Hj as [->|Hj]; [lia | by apply Hmin].
  - injection Hlb as <-. split; [by left|]. split; [done|].
    intros j Hj _. apply elem_of_cons in Hj as [->|Hj]; [lia|].
    rewrite Forall_forall in Hh. specialize (Hh j Hj). lia.
Qed.

Lemma lower_bound_None (k : Z) (s : list Z) :
  SizeSet.lower_bound k s = None -> forall j, j ∈ s -> j < k.
Proof.
  induction s as [|h r IH]; simpl; intros Hlb j Hj.
  - by apply elem_of_nil in Hj.
  - destruct (Z.ltb_spec h k) as [Hlt|Hge]; [|discriminate].
    apply elem_of_cons in Hj as [->|Hj]; [done | by apply IH].
Qed.

Lemma insert_elem_of (k j : Z) (s : list Z) :
  j ∈ SizeSet.insert k s <-> j = k \/ j ∈ s.
Proof.
  induction s as [|h r IH]; simpl.
  - rewrite list_elem_of_singleton. rewrite elem_of_nil. tauto.
  - destruct (Z.ltb_spec k h) as [Hlt|Hge].
    + by rewrite elem_of_cons.
    + destruct (Z.eqb_spec k h) as [->|Hne].
      * rewrite elem_of_cons. tauto.
      * rewrite !elem_of_cons, IH. tauto.
Qed.

(** Insertion keeps the sequence strictly ascending. *)
Lemma insert_wf (k : Z) (s : list Z) : SizeSet.wf s -> SizeSet.wf (SizeSet.insert k s).
Proof.
  unfold SizeSet.wf. induction s as [|h r IH]; simpl; intros Hs.
  - repeat constructor.
  - apply StronglySorted_inv in Hs as [Hr Hh].
    destruct (Z.ltb_spec k h) as [Hlt|Hge].
    + constructor; [by constructor|].
      constructor; [done|]. eapply Forall_impl; [exact Hh|]. simpl; intros; lia.
    + destruct (Z.eqb_spec k h) as [->|Hne]; [by constructor|].
      constructor; [by apply IH|].
      rewrite Forall_forall in Hh |- *. intros j Hj.
      apply insert_elem_of in Hj as [->|Hj]; [lia | by apply Hh].
Qed.

(** ** The carving visitor *)

Lemma window_hit_zero (i : Z) (scanslices : list Z) :
  window_hit i 0 scanslices = true <-> i ∈ scanslices.
Proof. unfold window_hit. simpl. apply find_elem_of. Qed.

(** As long as [current_slice + diff] does not exceed [SIZE_MAX], the test
    of the visitor is the window test in the integers. *)
Lemma window_hit_in_range (i d : Z) (scanslices : list Z) :
  SizeSet.wf scanslices -> 0 <= i -> 0 < d -> i + d <= SIZE_MAX ->
  window_hit i d scanslices = true <-> in_window i d scanslices.
Proof.
  intros Hwf Hi Hd Hsum. unfold window_hit, in_window, SIZE_MAX, uwrap in *.
  destruct (Z.eqb_spec d 0) as [?|_]; [lia|].
  rewrite (Z.mod_small (i + d)) by lia.
  assert (Hlo : (if d >? i then 0 else (i - d) mod 2 ^ 64) = Z.max 0 (i - d)).
  { destruct (Z.gtb_spec d i); [lia|]. rewrite Z.mod_small; lia. }
  rewrite Hlo.
  destruct (SizeSet.lower_bound (Z.max 0 (i - d)) scanslices) as [lb|] eqn:Hlb.
  - destruct (lower_bound_Some _ _ _ Hwf Hlb) as (Hin & Hge & Hmin).
    rewrite Z.leb_le. split.
    + intros Hle. exists lb. auto.
    + intros (j & Hj & Hlj & Hjh). specialize (Hmin j Hj Hlj). lia.
  - split; [discriminate|].
    intros (j & Hj & Hlj & _). pose proof (lower_bound_None _ _ Hlb j Hj). lia.
Qed.

Lemma visitor_absent (vox : voxel) (args : visitor_args) :
  voxel_occupied_by_slice args !! vox = None ->
  visitor vox args = (true, args).
Proof. intros H. unfold visitor. by rewrite H. Qed.

Lemma visitor_occupied (vox : voxel) (args : visitor_args) (scanslices : list Z) :
  voxel_occupied_by_slice args !! vox = Some scanslices ->
  visitor vox args =
    if window_hit (current_slice args) (diff args) scanslices
    then (false, args) else (true, mark_free vox args).
Proof. intros H. unfold visitor. by rewrite H. Qed.

(** The policy of the visitor for every argument block whose window does
    not reach past [SIZE_MAX]: an unoccupied voxel is passed over; an
    occupied one stops the walk exactly when one of its scans lies in the
    window (for [diff = 0], when the current scan is one of them), and is
    marked free otherwise. *)
Lemma visitor_policy_in_range (vox : voxel) (args : visitor_args) :
  let i := current_slice args in
  let d := diff args in
  0 <= i -> 0 <= d -> i + d <= SIZE_MAX ->
  match voxel_occupied_by_slice args !! vox with
  | None => visitor vox args = (true, args)
  | Some scanslices =>
      SizeSet.wf scanslices ->
      (d = 0 -> (i ∈ scanslices -> visitor vox args = (false, args))
                /\ (i ∉ scanslices -> visitor vox args = (true, mark_free vox args)))
      /\ (0 < d -> (in_window i d scanslices -> visitor vox args = (false, args))
                   /\ (~ in_window i d scanslices ->
                       visitor vox args = (true, mark_free vox args)))
  end.
Proof.
  intros i d Hi Hd Hsum.
  destruct (voxel_occupied_by_slice args !! vox) as [scanslices|] eqn:Hocc.
  - intros Hwf. rewrite (visitor_occupied _ _ _ Hocc). fold i d. split.
    + intros ->. pose proof (window_hit_zero i scanslices) as Hz.
      destruct (window_hit i 0 scanslices); split; intros H; try done.
      * exfalso. apply H. by apply Hz.
      * apply Hz in H. discriminate.
    + intros Hpos. pose proof (window_hit_in_range i d scanslices Hwf Hi Hpos Hsum) as Hw.
      destruct (window_hit i d scanslices); split; intros H; try done.
      * exfalso. apply H. by apply Hw.
      * apply Hw in H. discriminate.
  - by apply visitor_absent.
Qed.

(** For a voxel occupied by the single scan [j], and a window that does not
    reach past [SIZE_MAX], the voxel is marked free exactly when [j] is
    more than [diff] scans away from the current one. *)
Lemma visitor_singleton_in_range (vox : voxel) (args : visitor_args) (j : Z) :
  let i := current_slice args in
  let d := diff args in
  0 <= i -> 0 <= d -> 0 <= j -> i + d <= SIZE_MAX ->
  voxel_occupied_by_slice args !! vox = Some [j] ->
  visitor vox args = (true, mark_free vox args) <-> Z.abs (j - i) > d.
Proof.
  intros i d Hi Hd Hj Hsum Hocc.
  rewrite (visitor_occupied _ _ _ Hocc). fold i d.
  assert (Hwf : SizeSet.wf [j]) by repeat constructor.
  destruct (Z.eq_dec d 0) as [->|Hne].
  - pose proof (window_hit_zero i [j]) as Hz.
    rewrite list_elem_of_singleton in Hz.
    destruct (window_hit i 0 [j]).
    + split; [discriminate|]. intros. assert (i = j) by tauto. lia.
    + split; [|done]. intros _. assert (i <> j) by (intros Heq; apply Hz in Heq; discriminate).
      lia.
  - pose proof (window_hit_in_range i d [j] Hwf Hi ltac:(lia) Hsum) as Hw.
    unfold in_window in Hw.
    destruct (window_hit i d [j]).
    + split; [discriminate|]. intros Habs.
      destruct Hw as [Hw _]. destruct (Hw eq_refl) as (k & Hk & Hlo & Hhi).
      apply list_elem_of_singleton in Hk. subst k. lia.
    + split; [|done]. intros _.
      destruct (Z_gt_le_dec (Z.abs (j - i)) d) as [?|Hle]; [done|].
      exfalso. assert (false = true); [|discriminate].
      apply Hw. exists j. split; [by apply list_elem_of_singleton | lia].
Qed.

(** C1 (code defect: [current_slice + diff] wraps around). With
    [diff = SIZE_MAX] and current scan 1, the voxel is occupied by scan 1,
    which lies in the window [[max(0, 1 - diff), 1 + diff]], so the walk
    has to stop there; the sum wraps to 0, the visitor finds no scan up to
    0, marks the voxel free and continues. *)
Theorem visitor_window_wraps :
  voxel_occupied_by_slice args_wide_window !! voxel0 = Some [1]
  /\ in_window (current_slice args_wide_window) (diff args_wide_window) [1]
  /\ visitor voxel0 args_wide_window = (true, mark_free voxel0 args_wide_window).
Proof.
  assert (Hocc : voxel_occupied_by_slice args_wide_window !! voxel0 = Some [1])
    by apply lookup_singleton_eq.
  split; [exact Hocc|]. split.
  - exists 1. split; [by left|]. unfold args_wide_window, SIZE_MAX; simpl. lia.
  - rewrite (visitor_occupied _ _ _ Hocc). reflexivity.
Qed.

(** C7 (code defect, the same wrap-around as in C1). The voxel is occupied
    by the current scan 3 alone, so [|j - i| = 0] is within every window
    and the voxel must not be freed; with [diff = SIZE_MAX - 1] the upper
    end of the window wraps to 1 and the visitor frees the voxel. *)
Theorem visitor_singleton_wraps :
  voxel_occupied_by_slice args_wide_singleton !! voxel0 = Some [3]
  /\ ~ Z.abs (3 - current_slice args_wide_singleton) > diff args_wide_singleton
  /\ visitor voxel0 args_wide_singleton = (true, mark_free voxel0 args_wide_singleton).
Proof.
  assert (Hocc : voxel_occupied_by_slice args_wide_singleton !! voxel0 = Some [3])
    by apply lookup_singleton_eq.
  split; [exact Hocc|]. split.
  - unfold args_wide_singleton, SIZE_MAX; simpl. lia.
  - rewrite (visitor_occupied _ _ _ Hocc). reflexivity.
Qed.

(** ** The ray walker *)

Lemma bind_Ret {A B : Type} (a : A) (k : A -> outcome B) : Ret a ≫= k = k a.
Proof. reflexivity. Qed.

Lemma bind_Fail {A B : Type} (f : failure) (k : A -> outcome B) : Fail f ≫= k = Fail f.
Proof. reflexivity. Qed.

Section WalkerFacts.

Context {D : Type}.
Variable visit : voxel -> D -> bool * D.

(** A loop that has returned returns the same with more fuel. *)
Lemma walk_loop_fuel (fuel extra : nat) (ax ay az : axis) (sx sy sz : axis_state)
    (data data' : D) :
  walk_loop visit fuel ax ay az sx sy sz data = (Returned, data') ->
  walk_loop visit (fuel + extra) ax ay az sx sy sz data = (Returned, data').
Proof.
  revert sx sy sz data. induction fuel as [|fuel IH]; simpl; intros sx sy sz data.
  - discriminate.
  - destruct (loop_iteration visit ax ay az sx sy sz data) as [[[[sx' sy'] sz']|] d]; auto.
Qed.

(** What one iteration delivers: at most the corner voxel and the current
    voxel; the loop goes on only if every answer was "continue", and a
    "stop" is the last answer of the iteration. *)
Lemma loop_iteration_traced (ax ay az : axis) (sx sy sz : axis_state)
    (log : list (voxel * bool)) (data : D) :
  exists l,
    fst (snd (loop_iteration (traced visit) ax ay az sx sy sz (log, data))) = log ++ l
    /\ (length l <= 2)%nat
    /\ stop_is_last l
    /\ (is_Some (fst (loop_iteration (traced visit) ax ay az sx sy sz (log, data)))
        -> Forall (fun e => snd e = true) l).
Proof.
  unfold loop_iteration, stop_is_last, traced.
  repeat case_match; simplify_eq/=;
    repeat match goal with
    | H : negb ?b = _ |- _ => destruct b; simpl in H; try discriminate
    end;
    first
      [ exists []; rewrite app_nil_r; repeat split; auto;
        (by intros [? ?]) || (simpl; lia) || constructor
      | eexists [_]; split; [reflexivity|]; repeat split; simpl; auto;
        (by intros [? ?]) || (repeat constructor)
      | eexists [_; _]; split; [by rewrite <- app_assoc|]; repeat split; simpl; auto;
        (by intros [? ?]) || (repeat constructor) ].
Qed.

Lemma stop_is_last_app (l1 l2 : list (voxel * bool)) :
  Forall (fun e => snd e = true) l1 -> stop_is_last l2 -> stop_is_last (l1 ++ l2).
Proof.
  unfold stop_is_last. intros H1 H2. destruct l2 as [|e l2].
  - rewrite app_nil_r. clear H2. induction H1 as [|a l Ha Hl IH]; [constructor|].
    destruct l; [constructor|]. simpl in *. constructor; auto.
  - rewrite removelast_app by discriminate. apply Forall_app. auto.
Qed.

(** In the loop a "stop" ends the walk: of the deliveries that the loop
    adds to the log, only the last one can be a "stop". *)
Lemma walk_loop_traced (fuel : nat) (ax ay az : axis) (sx sy sz : axis_state)
    (log : list (voxel * bool)) (data : D) :
  exists l,
    fst (snd (walk_loop (traced visit) fuel ax ay az sx sy sz (log, data))) = log ++ l
    /\ stop_is_last l.
Proof.
  revert sx sy sz log data.
  induction fuel as [|fuel IH]; simpl; intros sx sy sz log data.
  - exists []. rewrite app_nil_r. split; [done | constructor].
  - destruct (loop_iteration_traced ax ay az sx sy sz log data)
      as (l1 & Hlog & _ & Hlast & Hgo).
    destruct (loop_iteration (traced visit) ax ay az sx sy sz (log, data))
      as [[[[sx' sy'] sz']|] [log' data']]; simpl in *; subst log'.
    + destruct (IH sx' sy' sz' (log ++ l1) data') as (l2 & Hl2 & Hlast2).
      exists (l1 ++ l2). rewrite Hl2, app_assoc. split; [done|].
      apply stop_is_last_app; [apply Hgo; by eexists | done].
    + by exists l1.
Qed.

Lemma traced_eq (vox : voxel) (log : list (voxel * bool)) (data : D) :
  traced visit vox (log, data) =
    (fst (visit vox data), (log ++ [(vox, fst (visit vox data))], snd (visit vox data))).
Proof. unfold traced. simpl. by destruct (visit vox data). Qed.

(** The walk of a ray that is not degenerate and whose ends lie in the
    voxels [cs] and [ce]. *)
Lemma walk_voxels_eq (visit' : voxel -> D -> bool * D) (fuel : nat)
    (start_pos end_pos : point) (voxel_size : double) (data : D) (cs ce : voxel) :
  degenerate start_pos end_pos = false ->
  voxel_of_point start_pos voxel_size = Some cs ->
  voxel_of_point end_pos voxel_size = Some ce ->
  walk_voxels visit' fuel start_pos end_pos voxel_size data =
    let data1 := snd (visit' cs data) in
    if bool_decide (cs = ce) then Ret (Returned, data1)
    else
      let cur0 := corrected_start start_pos end_pos voxel_size cs ce in
      let data2 := snd (visit' cur0 data1) in
      if bool_decide (cur0 = ce) then Ret (Returned, data2)
      else
        let ax := setup_x start_pos end_pos voxel_size cs ce in
        let ay := setup_y start_pos end_pos voxel_size cs ce in
        let az := setup_z start_pos end_pos voxel_size cs ce in
        Ret (walk_loop visit' fuel ax ay az
               (enter_loop ax) (enter_loop ay) (enter_loop az) data2).
Proof. intros Hd Hs He. unfold walk_voxels. rewrite Hd, Hs, He. reflexivity. Qed.

End WalkerFacts.

Section WalkerTrace.

Context {D : Type}.
Variable visit : voxel -> D -> bool * D.

(** Only the first two deliveries of a walk can be a "stop" that is
    followed by further deliveries. *)
Lemma stop_ends_walk_in_loop (fuel : nat) (start_pos end_pos : point)
    (voxel_size : double) (data : D) (we : walk_end) (l : list (voxel * bool)) :
  deliveries visit fuel start_pos end_pos voxel_size data = Ret (we, l) ->
  exists pre l', l = pre ++ l' /\ (length pre <= 2)%nat /\ stop_is_last l'.
Proof.
  unfold deliveries.
  destruct (degenerate start_pos end_pos) eqn:Hd.
  { unfold walk_voxels. rewrite Hd. intros [= <- <-].
    exists [], []. repeat split; simpl; [lia | constructor]. }
  destruct (voxel_of_point start_pos voxel_size) as [cs|] eqn:Hs;
    [|unfold walk_voxels; rewrite Hd, Hs; discriminate].
  destruct (voxel_of_point end_pos voxel_size) as [ce|] eqn:He;
    [|unfold walk_voxels; rewrite Hd, Hs, He; discriminate].
  rewrite (walk_voxels_eq _ _ _ _ _ _ cs ce Hd Hs He). cbv zeta.
  repeat (rewrite traced_eq; simpl snd; simpl app).
  set (cur0 := corrected_start start_pos end_pos voxel_size cs ce).
  set (e1 := (cs, fst (visit cs data))).
  set (e2 := (cur0, fst (visit cur0 (snd (visit cs data))))).
  case_bool_decide.
  { rewrite bind_Ret. intros [= <- <-].
    exists [e1], []. repeat split; simpl; [lia | constructor]. }
  case_bool_decide.
  { rewrite bind_Ret. intros [= <- <-].
    exists [e1; e2], []. repeat split; simpl; [lia | constructor]. }
  rewrite bind_Ret.
  match goal with
  | |- context [walk_loop (traced visit) fuel ?ax ?ay ?az ?sx ?sy ?sz (?lg, ?d)] =>
      destruct (walk_loop_traced visit fuel ax ay az sx sy sz lg d) as (l' & Hl' & Hlast)
  end.
  intros [= _ <-]. exists [e1; e2], l'. rewrite Hl'. repeat split; simpl; [lia | done].
Qed.

(** A walk that has returned returns the same with more fuel. *)
Lemma deliveries_fuel (fuel extra : nat) (start_pos end_pos : point)
    (voxel_size : double) (data : D) (l : list (voxel * bool)) :
  deliveries visit fuel start_pos end_pos voxel_size data = Ret (Returned, l) ->
  deliveries visit (fuel + extra) start_pos end_pos voxel_size data = Ret (Returned, l).
Proof.
  unfold deliveries.
  destruct (degenerate start_pos end_pos) eqn:Hd.
  { unfold walk_voxels. by rewrite Hd. }
  destruct (voxel_of_point start_pos voxel_size) as [cs|] eqn:Hs;
    [|unfold walk_voxels; rewrite Hd, Hs; discriminate].
  destruct (voxel_of_point end_pos voxel_size) as [ce|] eqn:He;
    [|unfold walk_voxels; rewrite Hd, Hs, He; discriminate].
  rewrite !(walk_voxels_eq _ _ _ _ _ _ cs ce Hd Hs He). cbv zeta.
  case_bool_decide; [done|]. case_bool_decide; [done|].
  rewrite !bind_Ret.
  match goal with
  | |- context [walk_loop (traced visit) fuel ?ax ?ay ?az ?sx ?sy ?sz ?d] =>
      pose proof (walk_loop_fuel (traced visit) fuel extra ax ay az sx sy sz d) as Hmono;
      destruct (walk_loop (traced visit) fuel ax ay az sx sy sz d) as [we [lg d']]
  end.
  simpl. intros [= -> <-]. by rewrite (Hmono _ eq_refl).
Qed.

(** The voxel of the start is the first one delivered, whatever the fuel;
    a ray that stays in one voxel, or whose corrected start voxel is the
    voxel of its end, delivers the voxel of its end and returns. *)
Lemma deliveries_head (fuel : nat) (start_pos end_pos : point)
    (voxel_size : double) (data : D) (cs ce : voxel) :
  degenerate start_pos end_pos = false ->
  voxel_of_point start_pos voxel_size = Some cs ->
  voxel_of_point end_pos voxel_size = Some ce ->
  exists we rest,
    deliveries visit fuel start_pos end_pos voxel_size data
      = Ret (we, (cs, fst (visit cs data)) :: rest)
    /\ (cs = ce -> we = Returned /\ rest = [])
    /\ (cs <> ce -> corrected_start start_pos end_pos voxel_size cs ce = ce ->
        we = Returned /\ exists go, rest = [(ce, go)]).
Proof.
  intros Hd Hs He. unfold deliveries.
  rewrite (walk_voxels_eq _ _ _ _ _ _ cs ce Hd Hs He). cbv zeta.
  repeat (rewrite traced_eq; simpl snd; simpl app).
  set (cur0 := corrected_start start_pos end_pos voxel_size cs ce).
  case_bool_decide as Hse.
  { rewrite bind_Ret. simpl. exists Returned, []. by repeat split. }
  case_bool_decide as Hce.
  { rewrite bind_Ret. simpl. eexists Returned, [_]. split; [reflexivity|].
    split; [done|]. intros _ _. split; [done|]. rewrite Hce. by eexists. }
  rewrite bind_Ret.
  match goal with
  | |- context [walk_loop (traced visit) fuel ?ax ?ay ?az ?sx ?sy ?sz (?lg, ?d)] =>
      destruct (walk_loop_traced visit fuel ax ay az sx sy sz lg d) as (l' & Hl' & _);
      destruct (walk_loop (traced visit) fuel ax ay az sx sy sz (lg, d)) as [we [lg' d']]
  end.
  simpl in *. subst lg'. eexists we, _. split; [reflexivity|]. by split.
Qed.

End WalkerTrace.


(** C3 (code defect: the answers to the first two calls of the visitor are
    discarded, and the start voxel is delivered twice). The ray runs along
    x from (0.5, 0.5, 0.5) to (2.5, 0.5, 0.5); the voxel of the scanner
    holds a point of scan 1, which is in the window of scan 0 for
    [diff = 1], so the visitor answers "stop" there. The walker delivers
    that voxel a second time, gets "stop" again, and goes on to deliver
    the next two voxels. *)
Theorem walk_goes_on_after_stop :
  deliveries visitor 8 ray_x_start ray_x_end one args_neighbour
  = Ret (Returned,
         [(voxel0, false); (voxel0, false); (Voxel 1 0 0, true); (Voxel 2 0 0, true)]).
Proof. vm_compute. reflexivity. Qed.

(** C4, the claim fails: the ray from (-3, 3, 0.5) to (-2, -3, 0.5) enters
    the voxel of its end, (-2, -3, 0), at its very end, where the x and the
    y boundary are crossed together. The rounded [tMaxY] of the sixth y
    step is just below the [tMaxX] of the x step, so y steps alone and
    past its budget, and the walk returns without the voxel of the end. *)
Lemma walk_misses_end_voxel :
  valid_point ray_corner_start /\ valid_point ray_corner_end
  /\ same_position ray_corner_start ray_corner_end = false
  /\ voxel_of_point ray_corner_start one = Some (Voxel (-3) 3 0)
  /\ voxel_of_point ray_corner_end one = Some (Voxel (-2) (-3) 0)
  /\ exists l,
       deliveries keep_going 8 ray_corner_start ray_corner_end one tt = Ret (Returned, l)
       /\ (forall extra,
             deliveries keep_going (8 + extra) ray_corner_start ray_corner_end one tt
             = Ret (Returned, l))
       /\ Forall (fun e => snd e = true) l
       /\ Voxel (-2) (-3) 0 ∉ map fst l.
Proof.
  split; [repeat split; vm_compute; reflexivity|].
  split; [repeat split; vm_compute; reflexivity|].
  split; [by vm_compute|]. split; [by vm_compute|]. split; [by vm_compute|].
  eexists. split; [vm_compute; reflexivity|]. split.
  - intros extra. apply deliveries_fuel. vm_compute. reflexivity.
  - split; [repeat constructor|].
    intros Hin. simpl in Hin.
    repeat (apply elem_of_cons in Hin as [Hin|Hin]; [discriminate|]).
    by apply elem_of_nil in Hin.
Qed.

(** The loop need not end. For the ray from x = -2^-1074 to x = 0 in a grid
    of size 1, [tDeltaX] is infinite and [1 - py_mod(...)] is zero, so that
    [tMaxX] is a NaN: no axis ever steps, and the loop delivers the voxel
    (-1, 0, 0) for as long as the visitor goes on. *)
Lemma walk_stalls (fuel : nat) :
  deliveries keep_going fuel ray_tiny_start ray_tiny_end one tt
  = Ret (OutOfFuel, replicate (2 + fuel) (Voxel (-1) 0 0, true)).
Proof.
  unfold deliveries.
  rewrite (walk_voxels_eq _ _ _ _ _ _ (Voxel (-1) 0 0) voxel0)
    by (vm_compute; reflexivity).
  cbv zeta.
  replace (corrected_start ray_tiny_start ray_tiny_end one (Voxel (-1) 0 0) voxel0)
    with (Voxel (-1) 0 0) by (vm_compute; reflexivity).
  rewrite !traced_eq. simpl fst. simpl snd. simpl app.
  rewrite !bool_decide_eq_false_2 by discriminate.
  set (ax := setup_x _ _ _ _ _). set (ay := setup_y _ _ _ _ _).
  set (az := setup_z _ _ _ _ _).
  assert (Hloop : forall n log,
            walk_loop (traced keep_going) n ax ay az
                      (enter_loop ax) (enter_loop ay) (enter_loop az) (log, tt)
            = (OutOfFuel, (log ++ replicate n (Voxel (-1) 0 0, true), tt))).
  { assert (Hit : forall log,
              loop_iteration (traced keep_going) ax ay az
                (enter_loop ax) (enter_loop ay) (enter_loop az) (log, tt)
              = (Some (enter_loop ax, enter_loop ay, enter_loop az),
                 (log ++ [(Voxel (-1) 0 0, true)], tt)))
      by (intros log; vm_compute; reflexivity).
    clearbody ax ay az.
    induction n as [|n IH]; intros log; cbn [walk_loop].
    - by rewrite app_nil_r.
    - rewrite Hit, IH. by rewrite <- app_assoc. }
  rewrite Hloop. reflexivity.
Qed.

(** Two different positions make a ray that the walker does not take for
    degenerate. *)
Lemma different_positions (start_pos end_pos : point) :
  valid_point start_pos -> valid_point end_pos ->
  same_position start_pos end_pos = false ->
  degenerate start_pos end_pos = false.
Proof.
  intros ([Vs0 Fs0] & [Vs1 Fs1] & [Vs2 Fs2]) ([Ve0 Fe0] & [Ve1 Fe1] & [Ve2 Fe2]) Hne.
  destruct (degenerate start_pos end_pos) eqn:Hd; [|done].
  unfold degenerate in Hd. apply andb_true_iff in Hd as [Hd H2].
  apply andb_true_iff in Hd as [H0 H1].
  apply sub_eq_zero in H0, H1, H2; try done.
  unfold same_position in Hne. by rewrite H0, H1, H2 in Hne.
Qed.

(** ** Order of the doubles *)

Lemma SFcompare_antisym (a b : double) :
  SFcompare b a = option_map CompOpp (SFcompare a b).
Proof.
  destruct a as [sa|sa| |sa ma ea], b as [sb|sb| |sb mb eb]; simpl;
    try reflexivity; try (by destruct sa); try (by destruct sb);
    try (by destruct sa, sb).
  destruct sa, sb; simpl; try reflexivity;
    rewrite (Z.compare_antisym ea eb); destruct (ea ?= eb); simpl; try reflexivity;
    pose proof (Pos.compare_cont_antisym ma mb Eq) as Hm; simpl in Hm;
    rewrite <- Hm; by destruct (Pos.compare_cont Eq ma mb).
Qed.

Lemma SFcompare_is_Some (a b : double) :
  is_nan a = false -> is_nan b = false -> is_Some (SFcompare a b).
Proof.
  destruct a as [sa|sa| |sa ma ea], b as [sb|sb| |sb mb eb]; simpl;
    intros; try discriminate; by eexists.
Qed.

Lemma leb_not_nan (a b : double) :
  leb a b = true -> is_nan a = false /\ is_nan b = false.
Proof.
  unfold leb, SFleb.
  destruct a as [sa|sa| |sa ma ea], b as [sb|sb| |sb mb eb]; simpl;
    intros; try discriminate; by split.
Qed.

Lemma is_finite_not_nan (a : double) : is_finite a = true -> is_nan a = false.
Proof. by destruct a. Qed.

(** Without a NaN, [a > b] false gives [a <= b]. *)
Lemma not_gtb_leb (a b : double) :
  is_nan a = false -> is_nan b = false -> gtb a b = false -> leb a b = true.
Proof.
  intros Ha Hb. unfold gtb, leb, SFltb, SFleb. rewrite (SFcompare_antisym a b).
  destruct (SFcompare_is_Some a b Ha Hb) as [c ->]. by destruct c.
Qed.

Lemma not_ltb_leb (a b : double) :
  is_nan a = false -> is_nan b = false -> ltb a b = false -> leb b a = true.
Proof. intros Ha Hb. by apply not_gtb_leb. Qed.

Lemma leb_zero_zero : leb zero zero = true.
Proof. reflexivity. Qed.

(** [std::min] answers one of its arguments, and without a NaN the lesser. *)
Lemma min_cases (a b : double) : min a b = a \/ min a b = b.
Proof. unfold min. destruct (ltb b a); auto. Qed.

Lemma min_leb (a b : double) :
  is_nan a = false -> is_nan b = false ->
  leb (min a b) a = true /\ leb (min a b) b = true.
Proof.
  intros Ha Hb. unfold min. destruct (ltb b a) eqn:Hlt.
  - split.
    + unfold ltb, leb, SFltb, SFleb in *. by destruct (SFcompare b a) as [[]|].
    + apply not_gtb_leb; auto. unfold gtb, SFltb.
      destruct b as [sb|sb| |sb mb eb]; try discriminate; simpl;
        try reflexivity; try (by destruct sb).
      destruct sb; rewrite Z.compare_refl, Pos.compare_cont_refl; reflexivity.
  - split; [|by apply not_ltb_leb].
    apply not_gtb_leb; auto. unfold gtb, SFltb.
    destruct a as [sa|sa| |sa ma ea]; try discriminate; simpl;
      try reflexivity; try (by destruct sa).
    destruct sa; rewrite Z.compare_refl, Pos.compare_cont_refl; reflexivity.
Qed.

Lemma leb_trans (a b c : double) : leb a b = true -> leb b c = true -> leb a c = true.
Proof.
  unfold leb, SFleb.
  destruct a as [sa|sa| |sa ma ea], b as [sb|sb| |sb mb eb], c as [sc|sc| |sc mc ec];
    simpl; try discriminate; try reflexivity;
    try (destruct sa; simpl; try discriminate; try reflexivity);
    try (destruct sb; simpl; try discriminate; try reflexivity);
    try (destruct sc; simpl; try discriminate; try reflexivity).
  all: change (Pos.compare_cont Eq) with Pos.compare.
  all: destruct (Z.compare_spec ea eb); destruct (Z.compare_spec eb ec);
       destruct (Z.compare_spec ea ec); simpl; try discriminate; try reflexivity; try lia.
  all: subst.
  all: destruct (Pos.compare_spec ma mb); destruct (Pos.compare_spec mb mc);
       destruct (Pos.compare_spec ma mc); simpl; try discriminate; try reflexivity; try lia.
Qed.

Lemma ltb_leb (a b : double) : ltb a b = true -> leb a b = true.
Proof. unfold ltb, leb, SFltb, SFleb. by destruct (SFcompare a b) as [[]|]. Qed.

(** ** The distance sort *)

Lemma stable_insert_perm {A : Type} (lt : A -> A -> bool) (a : A) (l : list A) :
  stable_insert lt a l ≡ₚ a :: l.
Proof.
  induction l as [|h r IH]; simpl; [done|].
  destruct (lt h a); [|done]. rewrite IH. apply Permutation_swap.
Qed.

Lemma stable_sort_perm {A : Type} (lt : A -> A -> bool) (l : list A) :
  stable_sort lt l ≡ₚ l.
Proof.
  induction l as [|a r IH]; [done|].
  change (stable_sort lt (a :: r)) with (stable_insert lt a (stable_sort lt r)).
  rewrite stable_insert_perm. by rewrite IH.
Qed.

(** The sort puts its input into ascending order for every order [le]
    that goes with the comparator on the elements sorted. *)
Lemma stable_sort_sorted {A : Type} (lt : A -> A -> bool) (le : A -> A -> Prop)
    (P : A -> Prop) :
  (forall a b, P a -> P b -> lt a b = true -> le a b) ->
  (forall a b, P a -> P b -> lt a b = false -> le b a) ->
  (forall a b c, P a -> P b -> P c -> le a b -> le b c -> le a c) ->
  forall l, Forall P l -> StronglySorted le (stable_sort lt l).
Proof.
  intros Hlt Hge Htrans.
  assert (Hins : forall a l, P a -> Forall P l -> StronglySorted le l ->
                             StronglySorted le (stable_insert lt a l)).
  { intros a l Pa. induction l as [|h r IH]; simpl; intros HP Hs.
    - repeat constructor.
    - apply Forall_cons in HP as [Ph Pr].
      apply StronglySorted_inv in Hs as [Hr Hh].
      destruct (lt h a) eqn:Hha.
      + constructor; [by apply IH|].
        rewrite Forall_forall in Hh |- *. intros b Hb.
        rewrite stable_insert_perm in Hb.
        apply elem_of_cons in Hb as [->|Hb]; [by apply Hlt | by apply Hh].
      + constructor; [by constructor|].
        assert (Hah : le a h) by by apply Hge.
        constructor; [done|].
        rewrite Forall_forall in Hh, Pr |- *. intros b Hb.
        apply (Htrans a h b); auto. }
  induction l as [|a r IH]; intros HP.
  - constructor.
  - apply Forall_cons in HP as [Pa Pr].
    change (stable_sort lt (a :: r)) with (stable_insert lt a (stable_sort lt r)).
    apply Hins; [done| |by apply IH].
    rewrite Forall_forall in Pr |- *. intros b Hb. apply Pr.
    by rewrite stable_sort_perm in Hb.
Qed.

(** The seeds are taken in ascending order of their distance: the order is
    a permutation of the point indices that never puts a farther point
    before a nearer one. *)
Lemma sorted_point_indices_ascending (distances : list double) :
  Forall (fun d => is_nan d = false) distances ->
  StronglySorted (not_farther distances) (sorted_point_indices distances)
  /\ sorted_point_indices distances ≡ₚ seq 0 (length distances).
Proof.
  intros Hnan. split; [|apply stable_sort_perm].
  unfold sorted_point_indices.
  apply (stable_sort_sorted _ _
           (fun a => exists d, distances !! a = Some d /\ is_nan d = false)).
  - intros a b (da & Ha & _) (db & Hb & _). unfold closer, not_farther.
    rewrite Ha, Hb. apply ltb_leb.
  - intros a b (da & Ha & Na) (db & Hb & Nb). unfold closer, not_farther.
    rewrite Ha, Hb. by apply not_ltb_leb.
  - intros a b c (da & Ha & _) (db & Hb & _) (dc & Hc & _). unfold not_farther.
    rewrite Ha, Hb, Hc. apply leb_trans.
  - rewrite Forall_forall. intros a Ha. apply elem_of_seq in Ha as [_ Ha].
    destruct (lookup_lt_is_Some_2 distances a ltac:(lia)) as [d Hd].
    exists d. split; [done|]. rewrite Forall_forall in Hnan. apply Hnan.
    by eapply list_elem_of_lookup_2.
Qed.

(** ** Max-range estimation *)

Lemma in_range_zero (d : double) : leb zero d = true -> in_range zero d.
Proof. intros Hd _. split; [apply leb_zero_zero | done]. Qed.

(** The value that the seed and its shadow store: a quotient that is not
    above the distance, with negative values raised to zero. *)
Lemma in_range_clamped (q d : double) :
  leb zero d = true -> gtb q d = false ->
  in_range (if ltb q zero then zero else q) d.
Proof.
  intros Hd Hgt. destruct (ltb q zero) eqn:Hneg; [by apply in_range_zero|].
  intros Hfin. apply is_finite_not_nan in Hfin.
  destruct (leb_not_nan _ _ Hd) as [_ Hdn]. split.
  - by apply not_ltb_leb.
  - by apply not_gtb_leb.
Qed.

Lemma ranges_ok_insert (distances maxranges : list double) (k : nat) (v : double) :
  ranges_ok distances maxranges ->
  (forall d, distances !! k = Some d -> in_range v d) ->
  ranges_ok distances (<[k := v]> maxranges).
Proof.
  intros Hok Hv k' r d Hr Hd.
  apply list_lookup_insert_Some in Hr as [(-> & -> & _)|(Hne & Hr)].
  - by apply Hv.
  - by eapply Hok.
Qed.

Lemma ranges_ok_replicate (distances : list double) (n : nat) :
  ranges_ok distances (replicate n infinity).
Proof.
  intros k r d Hr _. apply lookup_replicate in Hr as [-> _]. intros H. discriminate.
Qed.

Section MaxRangeFacts.

Variable Len : point -> double.
Variable Normalize3 : point -> point.
Variable asin : double -> double.
Variable calculateNormal : list point -> point.
Variable qtree_search : list point -> point -> double -> list nat.
Variables voxel_size fuzz : double.
Variable normal_method : normal_method_t.

Variable orig : list point.
Variable distances : list double.
Hypothesis distances_nonneg : Forall (fun d => leb zero d = true) distances.

Lemma distance_nonneg (k : nat) (d : double) : distances !! k = Some d -> leb zero d = true.
Proof.
  intros Hk. rewrite Forall_forall in distances_nonneg.
  apply distances_nonneg. by eapply list_elem_of_lookup_2.
Qed.

Lemma shadow_step_ok (normal : point) (dividend : double)
    (maxranges maxranges' : list double) (k : nat) :
  ranges_ok distances maxranges ->
  shadow_step Normalize3 orig distances normal dividend maxranges k = Ret maxranges' ->
  ranges_ok distances maxranges'.
Proof.
  intros Hok. unfold shadow_step.
  destruct (orig !! k) as [p_k|]; simpl; [|discriminate].
  destruct (eqb _ zero); [by intros [= <-]|].
  destruct (distances !! k) as [distance_k|] eqn:Hd; simpl; [|discriminate].
  destruct (gtb _ distance_k) eqn:Hgt; [by intros [= <-]|].
  destruct (maxranges !! k) as [maxrange_k|]; simpl; [|discriminate].
  destruct (ltb maxrange_k _); [by intros [= <-]|].
  intros [= <-]. apply ranges_ok_insert; [done|].
  intros d Hd'. rewrite Hd in Hd'. injection Hd' as <-.
  apply in_range_clamped; [by eapply distance_nonneg | done].
Qed.

Lemma shadow_loop_ok (normal : point) (dividend : double) (shadow : list nat)
    (maxranges maxranges' : list double) :
  ranges_ok distances maxranges ->
  shadow_loop Normalize3 orig distances normal dividend maxranges shadow = Ret maxranges' ->
  ranges_ok distances maxranges'.
Proof.
  revert maxranges. induction shadow as [|k rest IH]; simpl; intros maxranges Hok.
  - by intros [= <-].
  - destruct (shadow_step Normalize3 orig distances normal dividend maxranges k)
      as [m1|] eqn:Hstep; simpl; [|discriminate].
    apply IH. by eapply shadow_step_ok.
Qed.

Lemma seed_step_ok (maxranges maxranges' : list double) (j : nat) :
  ranges_ok distances maxranges ->
  seed_step Len Normalize3 asin calculateNormal qtree_search voxel_size fuzz
            normal_method orig distances maxranges j = Ret maxranges' ->
  ranges_ok distances maxranges'.
Proof.
  intros Hok. unfold seed_step.
  destruct (orig !! j) as [p|]; simpl; [|discriminate].
  destruct (maxranges !! j) as [maxrange_j|]; simpl; [|discriminate].
  destruct (neb maxrange_j infinity); [by intros [= <-]|].
  destruct (distances !! j) as [distance_j|] eqn:Hd; simpl; [|discriminate].
  destruct (seed_normal _ _ _ _ _ _ _ _) as [normal|]; simpl; [|discriminate].
  destruct (eqb _ zero).
  { intros [= <-]. apply ranges_ok_insert; [done|].
    intros d Hd'. apply in_range_zero. by eapply distance_nonneg. }
  destruct (gtb _ distance_j) eqn:Hgt; [discriminate|].
  destruct (ltb (Len p) _); [discriminate|].
  apply shadow_loop_ok. apply ranges_ok_insert; [done|].
  intros d Hd'. rewrite Hd in Hd'. injection Hd' as <-.
  apply in_range_clamped; [by eapply distance_nonneg | done].
Qed.

Lemma seed_loop_ok (order : list nat) (maxranges maxranges' : list double) :
  ranges_ok distances maxranges ->
  seed_loop Len Normalize3 asin calculateNormal qtree_search voxel_size fuzz
            normal_method orig distances maxranges order = Ret maxranges' ->
  ranges_ok distances maxranges'.
Proof.
  revert maxranges. induction order as [|j rest IH]; simpl; intros maxranges Hok.
  - by intros [= <-].
  - destruct (seed_step _ _ _ _ _ _ _ _ _ _ maxranges j) as [m1|] eqn:Hstep;
      simpl; [|discriminate].
    apply IH. by eapply seed_step_ok.
Qed.

Lemma shadow_loop_length (normal : point) (dividend : double) (shadow : list nat)
    (maxranges maxranges' : list double) :
  shadow_loop Normalize3 orig distances normal dividend maxranges shadow = Ret maxranges' ->
  length maxranges' = length maxranges.
Proof.
  revert maxranges. induction shadow as [|k rest IH]; simpl; intros maxranges.
  - by intros [= <-].
  - destruct (shadow_step Normalize3 orig distances normal dividend maxranges k)
      as [m1|] eqn:Hstep; simpl; [|discriminate].
    intros H. rewrite (IH _ H). revert Hstep. unfold shadow_step.
    destruct (orig !! k); simpl; [|discriminate].
    destruct (eqb _ zero); [by intros [= <-]|].
    destruct (distances !! k); simpl; [|discriminate].
    destruct (gtb _ _); [by intros [= <-]|].
    destruct (maxranges !! k); simpl; [|discriminate].
    destruct (ltb _ _); intros [= <-]; [done | apply length_insert].
Qed.

Lemma seed_loop_length (order : list nat) (maxranges maxranges' : list double) :
  seed_loop Len Normalize3 asin calculateNormal qtree_search voxel_size fuzz
            normal_method orig distances maxranges order = Ret maxranges' ->
  length maxranges' = length maxranges.
Proof.
  revert maxranges. induction order as [|j rest IH]; simpl; intros maxranges.
  - by intros [= <-].
  - destruct (seed_step _ _ _ _ _ _ _ _ _ _ maxranges j) as [m1|] eqn:Hstep;
      simpl; [|discriminate].
    intros H. rewrite (IH _ H). revert Hstep. unfold seed_step.
    destruct (orig !! j) as [p|]; simpl; [|discriminate].
    destruct (maxranges !! j); simpl; [|discriminate].
    destruct (neb _ infinity); [by intros [= <-]|].
    destruct (distances !! j); simpl; [|discriminate].
    destruct (seed_normal _ _ _ _ _ _ _ _); simpl; [|discriminate].
    destruct (eqb _ zero); [intros [= <-]; apply length_insert|].
    destruct (gtb _ _); [discriminate|].
    destruct (ltb (Len p) _); [discriminate|].
    intros Hs. apply shadow_loop_length in Hs. by rewrite Hs, length_insert.
Qed.

End MaxRangeFacts.

Section MaxRangePhase.

Context {M : Type}.
Variable Len : point -> double.
Variable Normalize3 : point -> point.
Variable asin : double -> double.
Variable calculateNormal : list point -> point.
Variable qtree_search : list point -> point -> double -> list nat.
Variables voxel_size fuzz : double.
Variable normal_method : normal_method_t.

Lemma normals_of_scans_lookup (scans : list (scan M)) (R : list (list double)) :
  normals_of_scans Len Normalize3 asin calculateNormal qtree_search voxel_size fuzz
                   normal_method scans = Ret R ->
  forall i s Ri, scans !! i = Some s -> R !! i = Some Ri ->
    normals_of_scan Len Normalize3 asin calculateNormal qtree_search voxel_size fuzz
                    normal_method s = Ret Ri.
Proof.
  revert R. induction scans as [|s0 rest IH]; simpl; intros R.
  - intros _ i s Ri Hs. by rewrite lookup_nil in Hs.
  - destruct (normals_of_scan _ _ _ _ _ _ _ _ s0) as [r0|] eqn:H0; simpl; [|discriminate].
    destruct (normals_of_scans _ _ _ _ _ _ _ _ rest) as [rs|]; simpl; [|discriminate].
    intros [= <-] [|i] s Ri Hs HR; simpl in *.
    + by simplify_eq.
    + by eapply IH.
Qed.

Lemma normals_of_scan_ok (s : scan M) (Ri : list double) :
  Forall (fun p => leb zero (Len p) = true) (orig_points s) ->
  normals_of_scan Len Normalize3 asin calculateNormal qtree_search voxel_size fuzz
                  normal_method s = Ret Ri ->
  ranges_ok (map Len (orig_points s)) Ri.
Proof.
  intros Hlen. unfold normals_of_scan.
  assert (Hd : Forall (fun d => leb zero d = true) (map Len (orig_points s)))
    by by apply Forall_map.
  destruct normal_method; try discriminate;
    apply seed_loop_ok; auto; apply ranges_ok_replicate.
Qed.

Lemma maxrange_phase_ok (maxrange_method : maxrange_method_t)
    (scans : list (scan M)) (R : list (list double)) :
  Forall (fun s => Forall (fun p => leb zero (Len p) = true) (orig_points s)) scans ->
  maxrange_phase Len Normalize3 asin calculateNormal qtree_search voxel_size fuzz
                 normal_method maxrange_method scans = Ret R ->
  forall i s Ri, scans !! i = Some s -> R !! i = Some Ri ->
    ranges_ok (map Len (orig_points s)) Ri.
Proof.
  intros Hlen Hphase i s Ri Hs HR.
  assert (Hs' : Forall (fun p => leb zero (Len p) = true) (orig_points s)).
  { rewrite Forall_forall in Hlen. apply Hlen. by eapply list_elem_of_lookup_2. }
  unfold maxrange_phase in Hphase. destruct maxrange_method; [| |discriminate].
  - injection Hphase as <-. rewrite list_lookup_fmap, Hs in HR. injection HR as <-.
    apply ranges_ok_replicate.
  - apply normals_of_scan_ok; [done|].
    eapply normals_of_scans_lookup; [|done|done].
    revert Hphase. destruct normal_method; (discriminate || done).
Qed.


End MaxRangePhase.

(** C5. When the max-range phase has run to its end, every max range
    [R_i[j]] that is finite lies between 0 and the scanner-local distance
    [Len] of the point, provided [Len] answers a non-negative number for
    the points of the scans. *)
Theorem maxrange_within_distance {M : Type}
    (Len : point -> double) (Normalize3 : point -> point) (asin : double -> double)
    (calculateNormal : list point -> point)
    (qtree_search : list point -> point -> double -> list nat)
    (voxel_size fuzz : double) (normal_method : normal_method_t)
    (maxrange_method : maxrange_method_t)
    (scans : list (scan M)) (R : list (list double)) :
  Forall (fun s => Forall (fun p => leb zero (Len p) = true) (orig_points s)) scans ->
  maxrange_phase Len Normalize3 asin calculateNormal qtree_search voxel_size fuzz
                 normal_method maxrange_method scans = Ret R ->
  forall i s Ri j p r,
    scans !! i = Some s -> R !! i = Some Ri ->
    orig_points s !! j = Some p -> Ri !! j = Some r ->
    is_finite r = true ->
    leb zero r = true /\ leb r (Len p) = true.
Proof.
  intros Hlen Hphase i s Ri j p r Hs HR Hp Hr Hfin.
  eapply (maxrange_phase_ok _ _ _ _ _ _ _ _ _ _ _ Hlen Hphase i s Ri Hs HR j r (Len p));
    [done| |done].
  by rewrite list_lookup_fmap, Hp.
Qed.

Lemma maxrange_within_distance_witness :
  leb zero (S754_finite false 4677655929409652 (-49)) = true
  /\ leb (S754_finite false 4677655929409652 (-49))
         (Len_model (Point one zero (of_Z (-10)))) = true.
Proof.
  apply (maxrange_within_distance Len_model Normalize3_model asin_any normal_up
           search_all one zero ANGLE NORMALS [plane_scan]
           [[S754_finite false 4654441612768875 (-49);
             S754_finite false 4677655929409652 (-49)]])
    with (i := 0%nat) (s := plane_scan) (j := 1%nat)
         (Ri := [S754_finite false 4654441612768875 (-49);
                 S754_finite false 4677655929409652 (-49)]).
  - constructor; [|constructor].
    constructor; [vm_compute; reflexivity|].
    constructor; [vm_compute; reflexivity|]. constructor.
  - vm_compute. reflexivity.
  - vm_compute. reflexivity.
  - vm_compute. reflexivity.
  - vm_compute. reflexivity.
  - vm_compute. reflexivity.
  - vm_compute. reflexivity.
Defined.

Section NormalsSteps.

Variable Len : point -> double.
Variable Normalize3 : point -> point.
Variable asin : double -> double.
Variable calculateNormal : list point -> point.
Variable qtree_search : list point -> point -> double -> list nat.
Variables voxel_size fuzz : double.
Variable normal_method : normal_method_t.

(** A point whose max range is no longer infinite is passed over as a
    seed. *)
Lemma seed_step_skips (orig : list point) (distances maxranges : list double)
    (j : nat) (p : point) (r : double) :
  orig !! j = Some p -> maxranges !! j = Some r -> neb r infinity = true ->
  seed_step Len Normalize3 asin calculateNormal qtree_search voxel_size fuzz
            normal_method orig distances maxranges j = Ret maxranges.
Proof. intros Hp Hr Hne. unfold seed_step. rewrite Hp, Hr. simpl. by rewrite Hne. Qed.

(** What the shadow loop does with the neighbour [k]. *)
Lemma shadow_step_eq (orig : list point) (distances maxranges : list double)
    (normal : point) (dividend : double) (k : nat) (p_k : point) (d_k r_k : double) :
  orig !! k = Some p_k -> distances !! k = Some d_k -> maxranges !! k = Some r_k ->
  shadow_step Normalize3 orig distances normal dividend maxranges k =
    if eqb (dot (Normalize3 p_k) normal) zero then Ret maxranges
    else if gtb (div dividend (dot (Normalize3 p_k) normal)) d_k then Ret maxranges
    else Ret (<[k := min (if ltb (div dividend (dot (Normalize3 p_k) normal)) zero
                          then zero
                          else div dividend (dot (Normalize3 p_k) normal)) r_k]>
                maxranges).
Proof.
  intros Hp Hd Hr. unfold shadow_step. rewrite Hp. simpl.
  destruct (eqb _ zero); [done|]. rewrite Hd. simpl.
  destruct (gtb _ d_k); [done|]. rewrite Hr. simpl. unfold min.
  destruct (ltb r_k _); [|done]. by rewrite list_insert_id.
Qed.

End NormalsSteps.

Lemma is_finite_neb_infinity (r : double) : is_finite r = true -> neb r infinity = true.
Proof. destruct r as [s|s| |s m e]; try discriminate; intros _; by destruct s. Qed.

Lemma min_idem (c r : double) : min c (min c r) = min c r.
Proof.
  unfold min. destruct (ltb r c) eqn:H; [by rewrite H|].
  by destruct (ltb c c).
Qed.

Lemma spec_shadow_value_idem (Normalize3 : point -> point) (n : point) (D : double)
    (p_k : point) (d_k r_k : double) :
  spec_shadow_value Normalize3 n D p_k d_k (spec_shadow_value Normalize3 n D p_k d_k r_k)
  = spec_shadow_value Normalize3 n D p_k d_k r_k.
Proof.
  unfold spec_shadow_value. cbv zeta.
  destruct (eqb _ zero) eqn:H1; [by rewrite ?H1|].
  destruct (gtb _ d_k) eqn:H2; [done|]. apply min_idem.
Qed.

Section ShadowSpec.

Variable Normalize3 : point -> point.
Variable orig : list point.
Variable distances : list double.
Variable n : point.
Variable D : double.

Hypothesis distances_length : length distances = length orig.

(** One neighbour: the step of the loop stores the value of the rule. *)
Lemma shadow_step_spec (maxranges : list double) (k : nat) :
  length maxranges = length orig -> (k < length orig)%nat ->
  exists p_k d_k r_k,
    orig !! k = Some p_k /\ distances !! k = Some d_k /\ maxranges !! k = Some r_k
    /\ shadow_step Normalize3 orig distances n D maxranges k
       = Ret (<[k := spec_shadow_value Normalize3 n D p_k d_k r_k]> maxranges).
Proof.
  intros HR Hk.
  destruct (lookup_lt_is_Some_2 orig k Hk) as [p_k Hp].
  destruct (lookup_lt_is_Some_2 distances k ltac:(lia)) as [d_k Hd].
  destruct (lookup_lt_is_Some_2 maxranges k ltac:(lia)) as [r_k Hr].
  exists p_k, d_k, r_k. repeat split; try done.
  rewrite (shadow_step_eq Normalize3 orig distances maxranges n D k p_k d_k r_k Hp Hd Hr).
  unfold spec_shadow_value, clamped. cbv zeta.
  destruct (eqb _ zero); [by rewrite list_insert_id|].
  destruct (gtb _ d_k); [by rewrite list_insert_id|]. done.
Qed.

(** The loop over the shadow: whatever the order of the neighbours and
    however often one of them occurs, every neighbour ends with the value
    of the rule and every other point keeps its max range. *)
Lemma shadow_loop_spec (shadow : list nat) (maxranges : list double) :
  length maxranges = length orig ->
  Forall (fun k => (k < length orig)%nat) shadow ->
  shadow_loop Normalize3 orig distances n D maxranges shadow
  = Ret (spec_shadow Normalize3 orig distances n D shadow maxranges).
Proof.
  revert maxranges. induction shadow as [|k rest IH]; intros maxranges HR Hsh.
  - simpl. f_equal. unfold spec_shadow. apply list_eq. intros i.
    rewrite list_lookup_imap. destruct (maxranges !! i) as [r|]; simpl; [|done].
    done.
  - apply Forall_cons in Hsh as [Hk Hrest]. cbn [shadow_loop].
    destruct (shadow_step_spec maxranges k HR Hk) as (p_k & d_k & r_k & Hp & Hd & Hr & ->).
    rewrite bind_Ret, IH by (by rewrite ?length_insert). f_equal.
    unfold spec_shadow. apply list_eq. intros i. rewrite !list_lookup_imap.
    destruct (decide (i = k)) as [->|Hne].
    + rewrite list_lookup_insert_eq by lia. rewrite Hr. simpl. rewrite Hp, Hd.
      rewrite (bool_decide_eq_true_2 (k ∈ k :: rest)) by by left.
      case_bool_decide; [|done]. by rewrite spec_shadow_value_idem.
    + rewrite list_lookup_insert_ne by done.
      destruct (maxranges !! i) as [r|]; simpl; [|done].
      assert (Hiff : i ∈ k :: rest <-> i ∈ rest) by (rewrite elem_of_cons; naive_solver).
      destruct (decide (i ∈ rest)) as [Hin|Hout].
      * rewrite !bool_decide_eq_true_2 by tauto. done.
      * rewrite !bool_decide_eq_false_2 by tauto. done.
Qed.

End ShadowSpec.

Section SeedSpec.

Variable Len : point -> double.
Variable Normalize3 : point -> point.
Variable asin : double -> double.
Variable calculateNormal : list point -> point.
Variable qtree_search : list point -> point -> double -> list nat.
Variables voxel_size fuzz : double.

(** The loop over the seeds takes them one after the other. *)
Lemma seed_loop_app (normal_method : normal_method_t) (orig : list point)
    (distances : list double) (pre post : list nat) (maxranges : list double) :
  seed_loop Len Normalize3 asin calculateNormal qtree_search voxel_size fuzz
            normal_method orig distances maxranges (pre ++ post)
  = (R ← seed_loop Len Normalize3 asin calculateNormal qtree_search voxel_size fuzz
                   normal_method orig distances maxranges pre;
     seed_loop Len Normalize3 asin calculateNormal qtree_search voxel_size fuzz
               normal_method orig distances R post).
Proof.
  revert maxranges. induction pre as [|j pre IH]; intros maxranges; [done|].
  cbn [app seed_loop].
  destruct (seed_step _ _ _ _ _ _ _ _ _ _ maxranges j) as [R1|f]; [|done].
  rewrite !bind_Ret. apply IH.
Qed.

Lemma mapM_lookup_valid (orig : list point) (idx : list nat) (pts : list point) :
  mapM (fun k => orig !! k) idx = Some pts ->
  Forall (fun k => (k < length orig)%nat) idx.
Proof.
  intros H. apply mapM_Some_1 in H. apply Forall_forall. intros k Hk.
  apply list_elem_of_lookup in Hk as [i Hi].
  destruct (Forall2_lookup_l _ _ _ _ _ H Hi) as (p & _ & Hp).
  by eapply lookup_lt_Some.
Qed.

(** A seed that has no max range yet: its plane, its own max range and the
    loop over its shadow. *)
Lemma seed_step_spec (orig : list point) (maxranges : list double) (j : nat)
    (p : point) (r : double) (pts : list point) :
  length maxranges = length orig ->
  orig !! j = Some p -> maxranges !! j = Some r -> neb r infinity = false ->
  mapM (fun k => orig !! k)
       (qtree_search orig (Normalize3 p)
                     (shadow_angle asin voxel_size (Len p))) = Some pts ->
  seed_step Len Normalize3 asin calculateNormal qtree_search voxel_size fuzz ANGLE
            orig (map Len orig) maxranges j
  = let n := toward_scanner (calculateNormal pts) (Normalize3 p) in
    let D := plane_dividend voxel_size fuzz p n in
    if eqb (dot (Normalize3 p) n) zero then Ret (<[j := zero]> maxranges)
    else if gtb (div D (dot (Normalize3 p) n)) (Len p) then Fail (Exit 1)
    else if ltb (Len p) (voxel_diagonal_of voxel_size) then Fail (Exit 1)
    else Ret (spec_shadow Normalize3 orig (map Len orig) n D
                (qtree_search orig (Normalize3 p)
                              (shadow_angle asin voxel_size (Len p)))
                (<[j := clamped (div D (dot (Normalize3 p) n))]> maxranges)).
Proof.
  intros HR Hp Hr Hinf Hpts. unfold seed_step. rewrite Hp, Hr. cbn [of_option mbind].
  rewrite !bind_Ret, Hinf.
  rewrite list_lookup_fmap, Hp. cbn [fmap option_fmap option_map of_option].
  rewrite bind_Ret. unfold seed_normal. rewrite Hpts. cbn [of_option].
  rewrite !bind_Ret. cbv zeta.
  fold (toward_scanner (calculateNormal pts) (Normalize3 p)).
  set (n := toward_scanner (calculateNormal pts) (Normalize3 p)).
  fold (voxel_diagonal_of voxel_size).
  change (voxel_diagonal voxel_size) with (voxel_diagonal_of voxel_size).
  fold (plane_dividend voxel_size fuzz p n).
  set (D := plane_dividend voxel_size fuzz p n).
  destruct (eqb (dot (Normalize3 p) n) zero); [done|].
  destruct (gtb _ (Len p)); [done|].
  destruct (ltb (Len p) _); [done|].
  fold (clamped (div D (dot (Normalize3 p) n))).
  apply shadow_loop_spec.
  - by rewrite length_map.
  - by rewrite length_insert.
  - by eapply mapM_lookup_valid.
Qed.

End SeedSpec.

(** C6. In the normals method with angular neighbours the seeds of a scan
    are the point indices in ascending order of their distance [Len], and
    they are taken one after the other in that order. A seed whose max
    range is finite (or anything but the infinity) is passed over. A seed
    [j] without a max range gets the plane through the point a voxel
    diagonal above it, with the normal of its angular neighbours turned
    toward the scanner, and its own max range; then every shadow
    neighbour [k], that is every index that the angular search answers
    for the seed, is passed over when its direction is perpendicular to
    the normal or when the candidate [D / (q . n)] is above its distance,
    and otherwise gets the lesser of its max range and the candidate, a
    negative candidate counting as zero; the max ranges of all other
    points stay as they are. *)
Theorem normals_method_steps {M : Type}
    (Len : point -> double) (Normalize3 : point -> point) (asin : double -> double)
    (calculateNormal : list point -> point)
    (qtree_search : list point -> point -> double -> list nat)
    (voxel_size fuzz : double) (s : scan M) :
  (Forall (fun d => is_nan d = false) (map Len (orig_points s)) ->
   StronglySorted (not_farther (map Len (orig_points s)))
                  (sorted_point_indices (map Len (orig_points s)))
   /\ sorted_point_indices (map Len (orig_points s)) ≡ₚ seq 0 (length (orig_points s)))
  /\ (forall pre j post,
        sorted_point_indices (map Len (orig_points s)) = pre ++ j :: post ->
        normals_of_scan Len Normalize3 asin calculateNormal qtree_search voxel_size fuzz
                        ANGLE s
        = (R1 ← seed_loop Len Normalize3 asin calculateNormal qtree_search voxel_size
                          fuzz ANGLE (orig_points s) (map Len (orig_points s))
                          (no_maxranges s) pre;
           R2 ← seed_step Len Normalize3 asin calculateNormal qtree_search voxel_size
                          fuzz ANGLE (orig_points s) (map Len (orig_points s)) R1 j;
           seed_loop Len Normalize3 asin calculateNormal qtree_search voxel_size fuzz
                     ANGLE (orig_points s) (map Len (orig_points s)) R2 post))
  /\ (forall maxranges j p r,
        orig_points s !! j = Some p -> maxranges !! j = Some r ->
        is_finite r = true \/ neb r infinity = true ->
        seed_step Len Normalize3 asin calculateNormal qtree_search voxel_size fuzz ANGLE
                  (orig_points s) (map Len (orig_points s)) maxranges j
        = Ret maxranges)
  /\ (forall maxranges j p r pts,
        length maxranges = length (orig_points s) ->
        orig_points s !! j = Some p -> maxranges !! j = Some r ->
        neb r infinity = false ->
        mapM (fun k => orig_points s !! k)
             (qtree_search (orig_points s) (Normalize3 p)
                           (shadow_angle asin voxel_size (Len p))) = Some pts ->
        seed_step Len Normalize3 asin calculateNormal qtree_search voxel_size fuzz ANGLE
                  (orig_points s) (map Len (orig_points s)) maxranges j
        = let n := toward_scanner (calculateNormal pts) (Normalize3 p) in
          let D := plane_dividend voxel_size fuzz p n in
          if eqb (dot (Normalize3 p) n) zero then Ret (<[j := zero]> maxranges)
          else if gtb (div D (dot (Normalize3 p) n)) (Len p) then Fail (Exit 1)
          else if ltb (Len p) (voxel_diagonal_of voxel_size) then Fail (Exit 1)
          else Ret (spec_shadow Normalize3 (orig_points s) (map Len (orig_points s)) n D
                      (qtree_search (orig_points s) (Normalize3 p)
                                    (shadow_angle asin voxel_size (Len p)))
                      (<[j := clamped (div D (dot (Normalize3 p) n))]> maxranges))).
Proof.
  split; [|split; [|split]].
  - intros Hnan. destruct (sorted_point_indices_ascending _ Hnan) as [Hsorted Hperm].
    split; [done|]. by rewrite Hperm, length_map.
  - intros pre j post Hsplit. unfold normals_of_scan. rewrite Hsplit.
    rewrite seed_loop_app. reflexivity.
  - intros maxranges j p r Hp Hr [Hfin|Hne]; eapply seed_step_skips;
      eauto using is_finite_neb_infinity.
  - intros maxranges j p r pts. apply seed_step_spec.
Qed.

Lemma normals_method_steps_witness :
  seed_step Len_model Normalize3_model asin_any normal_up search_all one zero ANGLE
            (orig_points plane_scan) (map Len_model (orig_points plane_scan))
            (no_maxranges plane_scan) 0
  = Ret [S754_finite false 4654441612768875 (-49);
         S754_finite false 4677655929409652 (-49)]
  /\ seed_step Len_model Normalize3_model asin_any normal_up search_all one zero ANGLE
               (orig_points plane_scan) (map Len_model (orig_points plane_scan))
               plane_ranges_seeded 0
     = Ret plane_ranges_seeded.
Proof.
  split.
  - rewrite (proj2 (proj2 (proj2
      (normals_method_steps Len_model Normalize3_model asin_any normal_up search_all
         one zero plane_scan)))
      (no_maxranges plane_scan) 0%nat (Point zero zero (of_Z (-10))) infinity
      (orig_points plane_scan)).
    + vm_compute. reflexivity.
    + vm_compute. reflexivity.
    + vm_compute. reflexivity.
    + vm_compute. reflexivity.
    + vm_compute. reflexivity.
    + vm_compute. reflexivity.
  - apply (proj1 (proj2 (proj2
      (normals_method_steps Len_model Normalize3_model asin_any normal_up search_all
         one zero plane_scan)))
      plane_ranges_seeded 0%nat (Point zero zero (of_Z (-10)))
      (S754_finite false 4654441612768875 (-49))).
    + vm_compute. reflexivity.
    + vm_compute. reflexivity.
    + left. vm_compute. reflexivity.
Defined.

(** ** Carving, classification and output *)

Lemma merge_free_union (free acc : gset voxel) : merge_free free acc = free ∪ acc.
Proof.
  unfold merge_free.
  assert (H : forall l : list voxel,
             foldr (fun it a => {[ it ]} ∪ a) acc l = list_to_set l ∪ acc).
  { induction l as [|v l IH]; simpl; [set_solver|]. rewrite IH. set_solver. }
  rewrite H. by rewrite list_to_set_elements_L.
Qed.

Section CarvingFacts.

Context {M : Type}.
Variable Len : point -> double.
Variable transform3 : M -> point -> point.
Variable voxel_size : double.
Variable diff_opt : Z.

(** Every set of scans in the index that [main] builds is strictly
    ascending, as the visitor expects. *)
Lemma occupy_all_wf (i : Z) (pts : list point) (occ occ' : gmap voxel (list Z)) :
  map_Forall (fun _ scanslices => SizeSet.wf scanslices) occ ->
  occupy_all voxel_size i occ pts = Ret occ' ->
  map_Forall (fun _ scanslices => SizeSet.wf scanslices) occ'.
Proof.
  revert occ. induction pts as [|p rest IH]; simpl; intros occ Hwf.
  - by intros [= <-].
  - unfold occupy at 1.
    destruct (voxel_of_point p voxel_size) as [vox|]; simpl; [|discriminate].
    apply IH. apply map_Forall_insert_2; [|done].
    apply insert_wf. destruct (occ !! vox) as [scanslices|] eqn:Hocc; simpl.
    + by apply (Hwf vox).
    + constructor.
Qed.

Lemma build_index_wf (scans : list (scan M)) (occ occ' : gmap voxel (list Z)) :
  map_Forall (fun _ scanslices => SizeSet.wf scanslices) occ ->
  build_index voxel_size occ scans = Ret occ' ->
  map_Forall (fun _ scanslices => SizeSet.wf scanslices) occ'.
Proof.
  revert occ. induction scans as [|s rest IH]; simpl; intros occ Hwf.
  - by intros [= <-].
  - destruct (occupy_all voxel_size (slice s) occ (points s)) as [occ1|] eqn:H1;
      simpl; [|discriminate].
    apply IH. by eapply occupy_all_wf.
Qed.

(** The loop over the scans ends with the union of the sets of the scans
    (and of what the set held before). *)
Lemma carving_loop_union (fuel : nat) (occ : gmap voxel (list Z))
    (work : list (scan M * list double)) (acc fv : gset voxel) :
  carving_loop Len transform3 voxel_size diff_opt fuel occ work acc = Ret fv <->
  exists frees,
    Forall2 (fun sm free =>
               carve_scan Len transform3 voxel_size diff_opt fuel occ sm = Ret free)
            work frees
    /\ fv = ⋃ frees ∪ acc.
Proof.
  revert acc. induction work as [|sm rest IH]; simpl; intros acc.
  - split.
    + intros [= <-]. exists []. split; [constructor | set_solver].
    + intros (frees & HF & ->). apply Forall2_nil_inv_l in HF as ->.
      f_equal. set_solver.
  - split.
    + destruct (carve_scan _ _ _ _ _ _ sm) as [free|] eqn:Hc; simpl; [|discriminate].
      intros Hloop. apply IH in Hloop as (frees & HF & ->).
      exists (free :: frees). split; [by constructor|].
      rewrite merge_free_union. set_solver.
    + intros (frees & HF & ->).
      apply Forall2_cons_inv_l in HF as (free & frees' & Hc & HF & ->).
      rewrite Hc. simpl. apply IH. exists frees'. split; [done|].
      rewrite merge_free_union. set_solver.
Qed.

Lemma is_dynamic_eq (fv : gset voxel) (p : point) (b : bool) :
  is_dynamic voxel_size fv p = Ret b ->
  is_Some (voxel_of_point p voxel_size) /\ b = in_free voxel_size fv p.
Proof.
  unfold is_dynamic, in_free.
  destruct (voxel_of_point p voxel_size) as [vox|]; simpl; [|discriminate].
  intros [= <-]. split; [by eexists | done].
Qed.

(** The point is classified dynamic exactly when its voxel is free. *)
Lemma in_free_iff (fv : gset voxel) (p : point) :
  in_free voxel_size fv p = true <->
  exists vox, voxel_of_point p voxel_size = Some vox /\ vox ∈ fv.
Proof.
  unfold in_free. destruct (voxel_of_point p voxel_size) as [vox|].
  - rewrite bool_decide_eq_true. split; [by exists vox | by intros (? & [= <-] & ?)].
  - split; [discriminate | by intros (? & ? & _)].
Qed.

Lemma write_mask_lines (fv : gset voxel) (pts : list point) (lines : list string) :
  write_mask voxel_size fv pts = Ret lines ->
  Forall2 (fun p line =>
             exists vox, voxel_of_point p voxel_size = Some vox
                         /\ line = mask_line (bool_decide (vox ∈ fv)))
          pts lines.
Proof.
  revert lines. induction pts as [|p rest IH]; simpl; intros lines.
  - intros [= <-]. constructor.
  - unfold is_dynamic at 1.
    destruct (voxel_of_point p voxel_size) as [vox|] eqn:Hv; simpl; [|discriminate].
    destruct (write_mask voxel_size fv rest) as [ls|]; simpl; [|discriminate].
    intros [= <-]. constructor; [by exists vox | auto].
Qed.

Lemma write_masks_files (maskdir : string) (fv : gset voxel) (scans : list (scan M))
    (files : list (string * list string)) :
  write_masks voxel_size maskdir fv scans = Ret files ->
  Forall2 (fun s file =>
             fst file = mask_path maskdir (slice s)
             /\ Forall2 (fun p line =>
                           exists vox, voxel_of_point p voxel_size = Some vox
                                       /\ line = mask_line (bool_decide (vox ∈ fv)))
                        (points s) (snd file))
          scans files.
Proof.
  revert files. induction scans as [|s rest IH]; simpl; intros files.
  - intros [= <-]. constructor.
  - destruct (write_mask voxel_size fv (points s)) as [ls|] eqn:Hm; simpl; [|discriminate].
    destruct (write_masks voxel_size maskdir fv rest) as [fs|]; simpl; [|discriminate].
    intros [= <-]. constructor; [|auto]. split; [done|]. by apply write_mask_lines.
Qed.

Lemma write_points_lines (fv : gset voxel) (out out' : partitioning) (pts : list point) :
  write_points voxel_size fv out pts = Ret out' ->
  out_dynamic out' =
    out_dynamic out ++ map line_of (List.filter (in_free voxel_size fv) pts)
  /\ out_static out' =
    out_static out
      ++ map line_of (List.filter (fun p => negb (in_free voxel_size fv p)) pts).
Proof.
  revert out. induction pts as [|p rest IH]; simpl; intros out.
  - intros [= <-]. by rewrite !app_nil_r.
  - unfold write_point.
    destruct (is_dynamic voxel_size fv p) as [b|] eqn:Hd; simpl; [|discriminate].
    apply is_dynamic_eq in Hd as [_ ->].
    destruct (in_free voxel_size fv p); simpl; intros Hw;
      apply IH in Hw as [-> ->]; simpl; by rewrite <- ?app_assoc.
Qed.

Lemma write_partitioning_lines (fv : gset voxel) (out out' : partitioning)
    (scans : list (scan M)) :
  write_partitioning voxel_size fv out scans = Ret out' ->
  out_dynamic out' =
    out_dynamic out
      ++ map line_of (List.filter (in_free voxel_size fv) (concat (map points scans)))
  /\ out_static out' =
    out_static out
      ++ map line_of (List.filter (fun p => negb (in_free voxel_size fv p))
                                  (concat (map points scans))).
Proof.
  revert out. induction scans as [|s rest IH]; simpl; intros out.
  - intros [= <-]. by rewrite !app_nil_r.
  - destruct (write_points voxel_size fv out (points s)) as [o1|] eqn:Hp;
      simpl; [|discriminate].
    apply write_points_lines in Hp as [Hd Hs].
    intros Hw. apply IH in Hw as [-> ->]. rewrite Hd, Hs.
    by rewrite !List.filter_app, !map_app, <- !app_assoc.
Qed.

End CarvingFacts.

(** ** The pipeline *)

Section RunFacts.

Context {M : Type}.
Variable Len : point -> double.
Variable Normalize3 : point -> point.
Variable asin : double -> double.
Variable calculateNormal : list point -> point.
Variable qtree_search : list point -> point -> double -> list nat.
Variable transform3 : M -> point -> point.

(** The steps that a run has gone through when it ends with outputs. *)
Lemma run_Ret (fuel : nat) (o : Opt.t) (scans : list (scan M)) (out : outputs) :
  run Len Normalize3 asin calculateNormal qtree_search transform3 fuel o scans = Ret out ->
  exists occ maxranges,
    check_scan_range (Opt.start o) (Opt.end_ o) = Ret tt
    /\ build_index (Opt.voxel_size o) ∅ scans = Ret occ
    /\ maxrange_phase Len Normalize3 asin calculateNormal qtree_search
         (Opt.voxel_size o) (Opt.fuzz o) (Opt.normal_method o)
         (Opt.maxrange_method o) scans = Ret maxranges
    /\ carving_loop Len transform3 (Opt.voxel_size o) (Opt.diff o) fuel occ
         (zip scans maxranges) ∅ = Ret (free_voxels out)
    /\ write_partitioning (Opt.voxel_size o) (free_voxels out) (Partitioning [] []) scans
       = Ret (partition out)
    /\ exists maskdir,
         write_masks (Opt.voxel_size o) maskdir (free_voxels out) scans = Ret (masks out).
Proof.
  unfold run.
  destruct (check_scan_range (Opt.start o) (Opt.end_ o)) as [[]|] eqn:Hc;
    simpl; [|discriminate].
  case_bool_decide; [discriminate|].
  destruct (existsb refl_mismatch scans); [discriminate|].
  destruct (build_index (Opt.voxel_size o) ∅ scans) as [occ|] eqn:Hb;
    simpl; [|discriminate].
  case_bool_decide; [discriminate|].
  destruct (maxrange_phase _ _ _ _ _ _ _ _ _ scans) as [maxranges|] eqn:Hm;
    simpl; [|discriminate].
  destruct (carving_loop _ _ _ _ _ _ _ _) as [fv|] eqn:Hl; simpl; [|discriminate].
  destruct (Opt.no_subvoxel_accuracy o); simpl; [|discriminate].
  destruct (write_partitioning _ _ _ _) as [part|] eqn:Hp; simpl; [|discriminate].
  destruct (write_masks _ _ _ _) as [files|] eqn:Hw; simpl; [|discriminate].
  intros [= <-]. simpl. exists occ, maxranges. repeat split; try done. by eexists.
Qed.

(** A failed check of the scan range is the result of the run, whatever
    the scans. *)
Lemma run_check_fails (fuel : nat) (o : Opt.t) (scans : list (scan M)) (f : failure) :
  check_scan_range (Opt.start o) (Opt.end_ o) = Fail f ->
  run Len Normalize3 asin calculateNormal qtree_search transform3 fuel o scans = Fail f.
Proof. intros Hc. unfold run. by rewrite Hc. Qed.

End RunFacts.





(** C9. In both point-cloud files the fourth field of every line is the
    constant 0.0, whatever the reflectances of the scans. *)
Theorem run_fourth_field {M : Type}
    (Len : point -> double) (Normalize3 : point -> point) (asin : double -> double)
    (calculateNormal : list point -> point)
    (qtree_search : list point -> point -> double -> list nat)
    (transform3 : M -> point -> point)
    (fuel : nat) (o : Opt.t) (scans : list (scan M)) (out : outputs) :
  run Len Normalize3 asin calculateNormal qtree_search transform3 fuel o scans = Ret out ->
  Forall (fun line => field4 line = zero)
         (out_static (partition out) ++ out_dynamic (partition out)).
Proof.
  intros Hrun.
  apply run_Ret in Hrun as (occ & maxranges & _ & _ & _ & _ & Hp & _).
  apply write_partitioning_lines in Hp as [-> ->]. simpl.
  apply Forall_app. split; apply Forall_forall; intros line Hin;
    apply list_elem_of_fmap in Hin as (p & -> & _); reflexivity.
Qed.

Lemma run_fourth_field_witness :
  reflectances scan_a = [one] /\ reflectances scan_b = [one]
  /\ exists out,
       run Len_model Normalize3_model asin_any normal_up search_all transform_id
           64 opts_default [scan_a; scan_b] = Ret out
       /\ Forall (fun line => field4 line = zero)
                 (out_static (partition out) ++ out_dynamic (partition out)).
Proof.
  split; [reflexivity|]. split; [reflexivity|].
  eexists. split; [vm_compute; reflexivity|].
  apply (run_fourth_field Len_model Normalize3_model asin_any normal_up search_all
           transform_id 64 opts_default [scan_a; scan_b]).
  vm_compute. reflexivity.
Defined.

(** C10. The checks on the scan range: a negative start and an end below
    -1 are rejected; beyond that, the run is rejected for an end before the
    start exactly when [0 < end < start], so that [end = 0] passes with any
    positive start; and a rejection is the result of the run, whatever the
    scans are. *)
Theorem check_scan_range_cases (start end_ : Z) :
  (start < 0 -> check_scan_range start end_ = Fail (Throw msg_negative_start))
  /\ (0 <= start -> end_ < -1 ->
      check_scan_range start end_ = Fail (Throw msg_negative_end))
  /\ (0 <= start -> -1 <= end_ ->
      (check_scan_range start end_ = Fail (Throw (msg_end_before_start start end_))
       <-> 0 < end_ /\ end_ < start)
      /\ (check_scan_range start end_ = Ret tt <-> ~ (0 < end_ /\ end_ < start)))
  /\ (end_ = 0 -> 0 < start -> check_scan_range start end_ = Ret tt)
  /\ (forall (M : Type) Len Normalize3 asin calculateNormal qtree_search
        (transform3 : M -> point -> point) fuel o scans f,
        Opt.start o = start -> Opt.end_ o = end_ ->
        check_scan_range start end_ = Fail f ->
        run Len Normalize3 asin calculateNormal qtree_search transform3 fuel o scans
        = Fail f).
Proof.
  unfold check_scan_range. repeat split.
  - intros H. destruct (Z.ltb_spec start 0); [done | lia].
  - intros H1 H2. destruct (Z.ltb_spec start 0); [lia|].
    destruct (Z.ltb_spec end_ (-1)); [done | lia].
  - destruct (Z.ltb_spec start 0); [lia|]. destruct (Z.ltb_spec end_ (-1)); [lia|].
    destruct (Z.ltb_spec 0 end_); simpl; [|discriminate].
    destruct (Z.ltb_spec end_ start); [lia | discriminate].
  - destruct (Z.ltb_spec start 0); [lia|]. destruct (Z.ltb_spec end_ (-1)); [lia|].
    destruct (Z.ltb_spec 0 end_); simpl; [|discriminate].
    destruct (Z.ltb_spec end_ start); [lia | discriminate].
  - intros [H1 H2]. destruct (Z.ltb_spec start 0); [lia|].
    destruct (Z.ltb_spec end_ (-1)); [lia|].
    destruct (Z.ltb_spec 0 end_); [|lia]. simpl.
    destruct (Z.ltb_spec end_ start); [done | lia].
  - destruct (Z.ltb_spec start 0); [lia|]. destruct (Z.ltb_spec end_ (-1)); [lia|].
    destruct (Z.ltb_spec 0 end_); simpl; [|lia].
    destruct (Z.ltb_spec end_ start); [discriminate | lia].
  - intros Hn. destruct (Z.ltb_spec start 0); [lia|].
    destruct (Z.ltb_spec end_ (-1)); [lia|].
    destruct (Z.ltb_spec 0 end_); simpl; [|done].
    destruct (Z.ltb_spec end_ start); [lia | done].
  - intros -> Hs. destruct (Z.ltb_spec start 0); [lia|]. reflexivity.
  - intros M Len Normalize3 asin calculateNormal qtree_search transform3 fuel o scans f
      <- <- Hc. by apply run_check_fails.
Qed.

Lemma check_scan_range_cases_witness : check_scan_range 5 0 = Ret tt.
Proof.
  apply (proj1 (proj2 (proj2 (proj2 (check_scan_range_cases 5 0))))); [reflexivity | lia].
Defined.

(** * Further properties *)

(** ** The voxel type *)

Lemma voxel_lt_spec (a b : voxel) :
  voxel_lt a b = true <->
  x a < x b \/ (x a = x b /\ (y a < y b \/ (y a = y b /\ z a < z b))).
Proof.
  unfold voxel_lt.
  destruct (Z.eqb_spec (x a) (x b)), (Z.eqb_spec (y a) (y b)); simpl;
    rewrite Z.ltb_lt; lia.
Qed.

(** X1. [voxel::operator<] is a strict total order on the voxels, as
    [std::set<voxel>] needs it: irreflexive, transitive, asymmetric, and
    two voxels that it does not order are the same voxel; [operator==]
    holds for the same voxel only, and [operator!=] is its negation. *)
Theorem voxel_lt_strict_total (a b c : voxel) :
  voxel_lt a a = false
  /\ (voxel_lt a b = true -> voxel_lt b c = true -> voxel_lt a c = true)
  /\ (voxel_lt a b = true -> voxel_lt b a = false)
  /\ (voxel_lt a b = false -> voxel_lt b a = false -> a = b)
  /\ (voxel_eqb a b = true <-> a = b)
  /\ voxel_neb a b = negb (voxel_eqb a b).
Proof.
  split; [|split; [|split; [|split; [|split]]]].
  - apply not_true_iff_false. rewrite voxel_lt_spec. lia.
  - rewrite !voxel_lt_spec. lia.
  - intros H. apply not_true_iff_false. rewrite voxel_lt_spec in *. lia.
  - intros H1%not_true_iff_false H2%not_true_iff_false.
    rewrite voxel_lt_spec in H1, H2.
    destruct a, b; simpl in *. f_equal; lia.
  - unfold voxel_eqb. rewrite !andb_true_iff, !Z.eqb_eq. split.
    + destruct a, b; simpl. intros [[-> ->] ->]. reflexivity.
    + by intros ->.
  - unfold voxel_eqb, voxel_neb. by rewrite !negb_andb.
Qed.

(** ** The voxelizer *)

(** X2. For finite doubles and a divisor that is not zero, [py_mod] answers
    a zero or a number with the sign of the divisor. *)
Theorem py_mod_takes_sign_of_divisor (a b : double) :
  valid_double a -> valid_double b ->
  is_finite a = true -> is_finite b = true -> is_zero b = false ->
  is_zero (py_mod a b) = true
  \/ (is_nan (py_mod a b) = false /\ ltb (py_mod a b) zero = ltb b zero).
Proof.
  intros Va Vb Fa Fb Zb.
  destruct b as [sb|sb| |sb mb eb]; try discriminate.
  pose proof (py_mod_sign a (S754_finite sb mb eb) sb mb eb Va Vb Fa eq_refl) as H.
  destruct (py_mod a (S754_finite sb mb eb)) as [s|s| |s m e]; simpl in H.
  - by left.
  - right. subst s. by destruct sb.
  - done.
  - right. subst s. by destruct sb.
Qed.

Lemma py_mod_takes_sign_of_divisor_witness :
  is_zero (py_mod d_minus_one d_tenth) = true
  \/ (is_nan (py_mod d_minus_one d_tenth) = false
      /\ ltb (py_mod d_minus_one d_tenth) zero = ltb d_tenth zero).
Proof.
  apply (py_mod_takes_sign_of_divisor d_minus_one d_tenth); vm_compute; reflexivity.
Defined.

Lemma py_div_undefined (a b : double) :
  is_zero b = true \/ is_nan b = true \/ is_finite a = false -> py_div a b = None.
Proof.
  destruct a as [sa|sa| |sa ma ea], b as [sb|sb| |sb mb eb]; simpl;
    intros [H|[H|H]]; try discriminate; reflexivity.
Qed.

(** X3. The voxelizer has no defined answer for a voxel size that is a zero
    or a NaN, nor for a point with a coordinate that is an infinity or a
    NaN: the quotient is then not a number that the conversion to
    [ssize_t] is defined for. *)
Theorem voxel_of_point_undefined (p : point) (voxel_size : double) :
  is_zero voxel_size = true \/ is_nan voxel_size = true \/ finite_point p = false ->
  voxel_of_point p voxel_size = None.
Proof.
  intros H. unfold voxel_of_point.
  assert (py_div (p0 p) voxel_size = None \/ py_div (p1 p) voxel_size = None
          \/ py_div (p2 p) voxel_size = None) as [->|[->| ->]]; try done.
  - destruct H as [H|[H|H]].
    + left. apply py_div_undefined. by left.
    + left. apply py_div_undefined. right. by left.
    + unfold finite_point in H. apply andb_false_iff in H as [H|H];
        [apply andb_false_iff in H as [H|H]|].
      * left. apply py_div_undefined. by repeat right.
      * right. left. apply py_div_undefined. by repeat right.
      * right. right. apply py_div_undefined. by repeat right.
  - by destruct (py_div (p0 p) voxel_size).
  - by destruct (py_div (p0 p) voxel_size), (py_div (p1 p) voxel_size).
Qed.

Lemma voxel_of_point_undefined_witness : voxel_of_point ray_x_start zero = None.
Proof. apply voxel_of_point_undefined. left. reflexivity. Defined.

(** ** The visitor and the order of its calls *)

Lemma mark_free_idem (v : voxel) (args : visitor_args) :
  mark_free v (mark_free v args) = mark_free v args.
Proof. unfold mark_free. simpl. f_equal. set_solver. Qed.

Lemma mark_free_comm (v w : voxel) (args : visitor_args) :
  mark_free v (mark_free w args) = mark_free w (mark_free v args).
Proof. unfold mark_free. simpl. f_equal. set_solver. Qed.

(** X4. The answer of the visitor for a voxel does not depend on the voxels
    that were visited before; a second visit of a voxel changes nothing;
    and two visits leave the same argument block behind in either order.
    So the set of a scan depends on which voxels the walker delivers, not
    on their order or on how often it delivers them. *)
Theorem visitor_order_irrelevant (v w : voxel) (args : visitor_args) :
  fst (visitor v (snd (visitor w args))) = fst (visitor v args)
  /\ visitor v (snd (visitor v args)) = visitor v args
  /\ snd (visitor v (snd (visitor w args))) = snd (visitor w (snd (visitor v args))).
Proof.
  unfold visitor.
  destruct (voxel_occupied_by_slice args !! v) as [Sv|] eqn:Hv;
    destruct (voxel_occupied_by_slice args !! w) as [Sw|] eqn:Hw;
    try destruct (window_hit (current_slice args) (diff args) Sv) eqn:Hhv;
    try destruct (window_hit (current_slice args) (diff args) Sw) eqn:Hhw;
    simpl; rewrite ?Hv, ?Hw; simpl; rewrite ?Hhv, ?Hhw; simpl;
    rewrite ?mark_free_idem; repeat split; try reflexivity;
    apply mark_free_comm.
Qed.

(** ** The ray walker, once more *)

Lemma eqb_sub_zero (a b : double) :
  is_finite b = true -> eqb a b = true -> eqb (sub a b) zero = true.
Proof.
  intros Hf He. unfold eqb, SFeqb in He.
  destruct a as [sa|sa| |sa ma ea], b as [sb|sb| |sb mb eb];
    simpl in Hf, He; try discriminate Hf; try discriminate He;
    try (exfalso; destruct sa; destruct sb; discriminate He).
  - by destruct sa, sb.
  - assert (sa = sb /\ ea = eb /\ ma = mb) as (-> & -> & ->).
    { change (PosDef.Pos.compare_cont Eq ma mb) with (Pos.compare ma mb) in He.
      destruct sa, sb; try discriminate He;
        destruct (Z.compare_spec ea eb) as [Hc|Hc|Hc]; try discriminate He;
        destruct (Pos.compare_spec ma mb) as [Hm|Hm|Hm]; try discriminate He;
        by repeat split. }
    unfold sub, SFsub. rewrite Z.sub_diag. reflexivity.
Qed.

(** X5. A ray whose end is its start is not walked at all: the walker
    returns without a single call of the visitor, not even for the voxel
    of the start, and without looking at the voxel size. *)
Theorem walk_same_position {D : Type} (visit : voxel -> D -> bool * D) (fuel : nat)
    (start_pos end_pos : point) (voxel_size : double) (data : D) :
  finite_point start_pos = true ->
  same_position start_pos end_pos = true ->
  walk_voxels visit fuel start_pos end_pos voxel_size data = Ret (Returned, data)
  /\ deliveries visit fuel start_pos end_pos voxel_size data = Ret (Returned, []).
Proof.
  intros Hf Hs.
  assert (Hd : degenerate start_pos end_pos = true).
  { unfold finite_point in Hf. unfold same_position in Hs. unfold degenerate.
    apply andb_true_iff in Hf as [Hf F2]. apply andb_true_iff in Hf as [F0 F1].
    apply andb_true_iff in Hs as [Hs S2]. apply andb_true_iff in Hs as [S0 S1].
    by rewrite !eqb_sub_zero. }
  unfold deliveries, walk_voxels. rewrite Hd. by split.
Qed.

Lemma walk_same_position_witness :
  walk_voxels keep_going 0 ray_x_start ray_x_start zero tt = Ret (Returned, tt)
  /\ deliveries keep_going 0 ray_x_start ray_x_start zero tt = Ret (Returned, []).
Proof.
  apply (walk_same_position keep_going 0 ray_x_start ray_x_start zero tt);
    vm_compute; reflexivity.
Defined.

Lemma stop_is_last_lookup (l : list (voxel * bool)) (k : nat) (v : voxel) :
  stop_is_last l -> l !! k = Some (v, false) -> length l = S k.
Proof.
  unfold stop_is_last. intros Hl Hk.
  destruct (decide (l = [])) as [->|Hne]; [done|].
  pose proof (app_removelast_last (v, false) Hne) as Heq.
  pose proof (lookup_lt_Some _ _ _ Hk) as Hlt.
  assert (Hlen : length l = S (length (removelast l))).
  { rewrite Heq at 1. rewrite length_app. simpl. lia. }
  destruct (decide (k < length (removelast l))%nat) as [Hin|Hout]; [|lia].
  exfalso. rewrite Heq, lookup_app_l in Hk by done.
  rewrite Forall_lookup in Hl. by specialize (Hl _ _ Hk).
Qed.

Section WalkerStop.

Context {D : Type}.
Variable visit : voxel -> D -> bool * D.

(** A delivery of the loop that is answered with "stop" is the last one,
    and the loop has returned. *)
Lemma walk_loop_stop (fuel : nat) (ax ay az : axis) (sx sy sz : axis_state)
    (log : list (voxel * bool)) (data : D) :
  exists l,
    fst (snd (walk_loop (traced visit) fuel ax ay az sx sy sz (log, data))) = log ++ l
    /\ forall k v, l !! k = Some (v, false) ->
         fst (walk_loop (traced visit) fuel ax ay az sx sy sz (log, data)) = Returned
         /\ length l = S k.
Proof.
  revert sx sy sz log data.
  induction fuel as [|fuel IH]; intros sx sy sz log data; cbn [walk_loop].
  - exists []. rewrite app_nil_r. split; [done|]. intros k v Hk. done.
  - destruct (loop_iteration_traced visit ax ay az sx sy sz log data)
      as (l1 & Hlog & _ & Hlast & Hgo).
    destruct (loop_iteration (traced visit) ax ay az sx sy sz (log, data))
      as [[[[sx' sy'] sz']|] [log' data']]; simpl in Hlog, Hgo; subst log'.
    + specialize (Hgo ltac:(by eexists)).
      destruct (IH sx' sy' sz' (log ++ l1) data') as (l2 & Hl2 & Hstop).
      exists (l1 ++ l2). rewrite Hl2, app_assoc. split; [done|].
      intros k v Hk.
      destruct (decide (k < length l1)%nat) as [Hin|Hout].
      * rewrite lookup_app_l in Hk by done.
        rewrite Forall_lookup in Hgo. by specialize (Hgo _ _ Hk).
      * rewrite lookup_app_r in Hk by lia.
        destruct (Hstop _ _ Hk) as [Hr Hlen]. split; [done|].
        rewrite length_app. lia.
    + exists l1. split; [done|]. intros k v Hk. split; [done|].
      by eapply stop_is_last_lookup.
Qed.

End WalkerStop.

(** X6. From the third delivery of a walk on, a voxel that the visitor
    answers with "stop" is the last voxel delivered, and the walker has
    returned. *)
Theorem walk_stop_is_final {D : Type} (visit : voxel -> D -> bool * D) (fuel : nat)
    (start_pos end_pos : point) (voxel_size : double) (data : D)
    (we : walk_end) (l : list (voxel * bool)) (k : nat) (v : voxel) :
  deliveries visit fuel start_pos end_pos voxel_size data = Ret (we, l) ->
  (2 <= k)%nat -> l !! k = Some (v, false) ->
  we = Returned /\ length l = S k.
Proof.
  unfold deliveries.
  destruct (degenerate start_pos end_pos) eqn:Hd.
  { unfold walk_voxels. rewrite Hd. by intros [= <- <-]. }
  destruct (voxel_of_point start_pos voxel_size) as [cs|] eqn:Hs;
    [|unfold walk_voxels; rewrite Hd, Hs; discriminate].
  destruct (voxel_of_point end_pos voxel_size) as [ce|] eqn:He;
    [|unfold walk_voxels; rewrite Hd, Hs, He; discriminate].
  rewrite (walk_voxels_eq _ _ _ _ _ _ cs ce Hd Hs He). cbv zeta.
  repeat (rewrite traced_eq; simpl snd; simpl app).
  case_bool_decide.
  { rewrite bind_Ret. intros [= <- <-] Hk Hl.
    apply lookup_lt_Some in Hl. simpl in Hl. lia. }
  case_bool_decide.
  { rewrite bind_Ret. intros [= <- <-] Hk Hl.
    apply lookup_lt_Some in Hl. simpl in Hl. lia. }
  rewrite bind_Ret.
  match goal with
  | |- context [walk_loop (traced visit) fuel ?ax ?ay ?az ?sx ?sy ?sz (?lg, ?d)] =>
      destruct (walk_loop_stop visit fuel ax ay az sx sy sz lg d) as (l' & Hl' & Hstop);
      destruct (walk_loop (traced visit) fuel ax ay az sx sy sz (lg, d)) as [we' [lg' d']]
  end.
  simpl in Hl', Hstop. subst lg'. intros [= <- <-] Hk Hl.
  destruct k as [|[|k]]; [lia|lia|]. simpl in Hl.
  destruct (Hstop _ _ Hl) as [-> Hlen]. split; [done|].
  simpl. lia.
Qed.

Lemma walk_stop_is_final_witness :
  Returned = Returned
  /\ length [(voxel0, false); (voxel0, false); (Voxel 1 0 0, false)] = 3%nat.
Proof.
  apply (walk_stop_is_final (fun _ d => (false, d)) 8 ray_x_start ray_x_end one tt
           Returned [(voxel0, false); (voxel0, false); (Voxel 1 0 0, false)]
           2 (Voxel 1 0 0)).
  - vm_compute. reflexivity.
  - lia.
  - reflexivity.
Defined.

(** ** What the walker leaves of the block of the visitor *)

Section WalkerFrame.

Context {D : Type}.
Variable visit : voxel -> D -> bool * D.
Variable P : D -> Prop.
Hypothesis visit_keeps : forall vox d, P d -> P (snd (visit vox d)).

Lemma loop_iteration_keeps (ax ay az : axis) (sx sy sz : axis_state) (d : D) :
  P d -> P (snd (loop_iteration visit ax ay az sx sy sz d)).
Proof.
  intros Hd. unfold loop_iteration.
  repeat case_match; simplify_eq/=;
    repeat match goal with
    | H : visit ?v ?d0 = (_, ?d1) |- _ =>
        let K := fresh "K" in
        assert (K : P d1)
          by (replace d1 with (snd (visit v d0)) by (by rewrite H); by apply visit_keeps);
        clear H
    end; done.
Qed.

Lemma walk_loop_keeps (fuel : nat) (ax ay az : axis) (sx sy sz : axis_state) (d : D) :
  P d -> P (snd (walk_loop visit fuel ax ay az sx sy sz d)).
Proof.
  revert sx sy sz d. induction fuel as [|fuel IH]; intros sx sy sz d Hd; cbn [walk_loop].
  - done.
  - pose proof (loop_iteration_keeps ax ay az sx sy sz d Hd) as H1.
    destruct (loop_iteration visit ax ay az sx sy sz d) as [[[[sx' sy'] sz']|] d'];
      simpl in H1; [by apply IH | done].
Qed.

(** The walker changes the block behind [data] through the visitor only:
    a property of the block that every call of the visitor keeps holds
    after the walk. *)
Lemma walk_voxels_keeps (fuel : nat) (start_pos end_pos : point) (voxel_size : double)
    (d : D) (r : walk_end * D) :
  P d -> walk_voxels visit fuel start_pos end_pos voxel_size d = Ret r -> P (snd r).
Proof.
  intros Hd. unfold walk_voxels.
  destruct (degenerate start_pos end_pos); [by intros [= <-]|].
  destruct (voxel_of_point start_pos voxel_size) as [cs|]; simpl; [|discriminate].
  destruct (voxel_of_point end_pos voxel_size) as [ce|]; simpl; [|discriminate].
  case_bool_decide; [intros [= <-]; by apply visit_keeps|].
  case_bool_decide; [intros [= <-]; by apply visit_keeps, visit_keeps|].
  intros [= <-]. by apply walk_loop_keeps, visit_keeps, visit_keeps.
Qed.

End WalkerFrame.

(** ** The index of occupied voxels *)

Section IndexFacts.

Context {M : Type}.
Variable voxel_size : double.

Lemma occupy_all_slices (i : Z) (pts : list point) (occ occ' : gmap voxel (list Z)) :
  occupy_all voxel_size i occ pts = Ret occ' ->
  forall vox j,
    j ∈ default [] (occ' !! vox) <->
    j ∈ default [] (occ !! vox)
    \/ (j = i /\ exists p, p ∈ pts /\ voxel_of_point p voxel_size = Some vox).
Proof.
  revert occ. induction pts as [|p rest IH]; simpl; intros occ.
  - intros [= <-] vox j. split; [by left|].
    intros [?|(_ & p & Hp & _)]; [done | by apply elem_of_nil in Hp].
  - unfold occupy at 1.
    destruct (voxel_of_point p voxel_size) as [vp|] eqn:Hvp; simpl; [|discriminate].
    intros Hrest vox j. rewrite (IH _ Hrest vox j).
    destruct (decide (vp = vox)) as [->|Hne].
    + rewrite lookup_insert_eq. simpl. rewrite insert_elem_of. split.
      * intros [[->|?]|(-> & q & Hq & Hvq)]; [right|by left|right].
        -- split; [done|]. exists p. split; [by left | done].
        -- split; [done|]. exists q. split; [by right | done].
      * intros [?|(-> & q & Hq & Hvq)]; [left; by right|].
        apply elem_of_cons in Hq as [->|Hq]; [left; by left|].
        right. split; [done|]. by exists q.
    + rewrite lookup_insert_ne by done. split.
      * intros [?|(-> & q & Hq & Hvq)]; [by left|].
        right. split; [done|]. exists q. split; [by right | done].
      * intros [?|(-> & q & Hq & Hvq)]; [by left|].
        apply elem_of_cons in Hq as [->|Hq]; [congruence|].
        right. split; [done|]. by exists q.
Qed.

Lemma occupy_all_nonempty (i : Z) (pts : list point) (occ occ' : gmap voxel (list Z)) :
  map_Forall (fun _ scanslices => scanslices <> []) occ ->
  occupy_all voxel_size i occ pts = Ret occ' ->
  map_Forall (fun _ scanslices => scanslices <> []) occ'.
Proof.
  revert occ. induction pts as [|p rest IH]; simpl; intros occ Hne.
  - by intros [= <-].
  - unfold occupy at 1.
    destruct (voxel_of_point p voxel_size) as [vox|]; simpl; [|discriminate].
    apply IH. apply map_Forall_insert_2; [|done].
    intros Hnil. assert (Hin : i ∈ SizeSet.insert i (default [] (occ !! vox)))
      by (apply insert_elem_of; by left).
    rewrite Hnil in Hin. by apply elem_of_nil in Hin.
Qed.

Lemma build_index_slices (scans : list (scan M)) (occ occ' : gmap voxel (list Z)) :
  build_index voxel_size occ scans = Ret occ' ->
  forall vox j,
    j ∈ default [] (occ' !! vox) <->
    j ∈ default [] (occ !! vox)
    \/ exists s p, s ∈ scans /\ slice s = j /\ p ∈ points s
                   /\ voxel_of_point p voxel_size = Some vox.
Proof.
  revert occ. induction scans as [|s rest IH]; simpl; intros occ.
  - intros [= <-] vox j. split; [by left|].
    intros [?|(s & _ & Hs & _)]; [done | by apply elem_of_nil in Hs].
  - destruct (occupy_all voxel_size (slice s) occ (points s)) as [occ1|] eqn:H1;
      simpl; [|discriminate].
    intros Hrest vox j. rewrite (IH _ Hrest vox j), (occupy_all_slices _ _ _ _ H1 vox j).
    split.
    + intros [[?|(-> & p & Hp & Hv)]|(s' & p & Hs' & Hj & Hp & Hv)]; [by left|right..].
      * exists s, p. split; [by left|]. done.
      * exists s', p. split; [by right|]. done.
    + intros [?|(s' & p & Hs' & Hj & Hp & Hv)]; [left; by left|].
      apply elem_of_cons in Hs' as [->|Hs'].
      * left. right. split; [done|]. by exists p.
      * right. by exists s', p.
Qed.

Lemma build_index_nonempty (scans : list (scan M)) (occ occ' : gmap voxel (list Z)) :
  map_Forall (fun _ scanslices => scanslices <> []) occ ->
  build_index voxel_size occ scans = Ret occ' ->
  map_Forall (fun _ scanslices => scanslices <> []) occ'.
Proof.
  revert occ. induction scans as [|s rest IH]; simpl; intros occ Hne.
  - by intros [= <-].
  - destruct (occupy_all voxel_size (slice s) occ (points s)) as [occ1|] eqn:H1;
      simpl; [|discriminate].
    apply IH. by eapply occupy_all_nonempty.
Qed.

(** Without a single point the index stays as it is. *)
Lemma build_index_no_points (scans : list (scan M)) (occ : gmap voxel (list Z)) :
  (forall s, s ∈ scans -> points s = []) ->
  build_index voxel_size occ scans = Ret occ.
Proof.
  induction scans as [|s rest IH]; simpl; intros Hno; [done|].
  rewrite (Hno s) by by left. simpl. apply IH. intros s' Hs'. apply Hno. by right.
Qed.

End IndexFacts.

(** The index built from the empty map, voxel by voxel. *)
Lemma build_index_holds {M : Type} (voxel_size : double) (scans : list (scan M))
    (occ : gmap voxel (list Z)) (vox : voxel) :
  build_index voxel_size ∅ scans = Ret occ ->
  (is_Some (occ !! vox) <->
   exists s p, s ∈ scans /\ p ∈ points s /\ voxel_of_point p voxel_size = Some vox)
  /\ (forall j, j ∈ default [] (occ !! vox) <->
        exists s p, s ∈ scans /\ slice s = j /\ p ∈ points s
                    /\ voxel_of_point p voxel_size = Some vox)
  /\ SizeSet.wf (default [] (occ !! vox)).
Proof.
  intros Hb.
  pose proof (build_index_slices voxel_size scans ∅ occ Hb vox) as Hsl.
  pose proof (build_index_nonempty voxel_size scans ∅ occ (map_Forall_empty _) Hb) as Hne.
  pose proof (build_index_wf voxel_size scans ∅ occ (map_Forall_empty _) Hb) as Hwf.
  assert (Hj : forall j, j ∈ default [] (occ !! vox) <->
            exists s p, s ∈ scans /\ slice s = j /\ p ∈ points s
                        /\ voxel_of_point p voxel_size = Some vox).
  { intros j. rewrite Hsl. rewrite lookup_empty. simpl. split.
    - intros [H|H]; [by apply elem_of_nil in H | done].
    - by right. }
  split; [|split; [done|]].
  - split.
    + intros [scanslices Hocc]. specialize (Hne _ _ Hocc). simpl in Hne.
      destruct scanslices as [|j r]; [done|].
      destruct (proj1 (Hj j)) as (s & p & Hs & _ & Hp & Hv).
      { rewrite Hocc. simpl. by left. }
      by exists s, p.
    + intros (s & p & Hs & Hp & Hv).
      destruct (occ !! vox) as [scanslices|] eqn:Hocc; [by eexists|].
      exfalso. apply (elem_of_nil (slice s)).
      apply (proj2 (Hj (slice s))). by exists s, p.
  - destruct (occ !! vox) as [scanslices|] eqn:Hocc; simpl.
    + by apply (Hwf vox).
    + constructor.
Qed.

(** X7. The index that [main] builds from the scans holds exactly what the
    scans have seen: a voxel is a key of the index exactly when a point of
    some scan lies in it, and then its set holds exactly the numbers of the
    scans with a point in the voxel, in strictly ascending order. *)
Theorem build_index_lookup {M : Type} (voxel_size : double) (scans : list (scan M))
    (occ : gmap voxel (list Z)) (vox : voxel) :
  build_index voxel_size ∅ scans = Ret occ ->
  (is_Some (occ !! vox) <->
   exists s p, s ∈ scans /\ p ∈ points s /\ voxel_of_point p voxel_size = Some vox)
  /\ (forall j, j ∈ default [] (occ !! vox) <->
        exists s p, s ∈ scans /\ slice s = j /\ p ∈ points s
                    /\ voxel_of_point p voxel_size = Some vox)
  /\ SizeSet.wf (default [] (occ !! vox)).
Proof. apply build_index_holds. Qed.

Lemma build_index_lookup_witness :
  exists occ,
    build_index d_ten ∅ [scan_a; scan_b] = Ret occ
    /\ (is_Some (occ !! Voxel 5 0 0) <->
        exists s p, s ∈ [scan_a; scan_b] /\ p ∈ points s
                    /\ voxel_of_point p d_ten = Some (Voxel 5 0 0)).
Proof.
  eexists. split; [vm_compute; reflexivity|].
  refine (proj1 (build_index_lookup d_ten [scan_a; scan_b] _ (Voxel 5 0 0) _)).
  vm_compute. reflexivity.
Defined.

(** ** What carving can free *)

Section CarvingSound.

Context {M : Type}.
Variable Len : point -> double.
Variable transform3 : M -> point -> point.
Variable voxel_size : double.
Variable diff_opt : Z.

Lemma carve_ray_sound (fuel : nat) (occ : gmap voxel (list Z)) (s : scan M)
    (end_pos : point) (free free' : gset voxel) :
  carve_ray voxel_size diff_opt fuel occ s end_pos free = Ret free' ->
  free ⊆ free'
  /\ forall u, u ∈ free' ->
       u ∈ free
       \/ exists scanslices,
            occ !! u = Some scanslices
            /\ window_hit (slice s) diff_opt scanslices = false.
Proof.
  unfold carve_ray.
  set (data := {| empty_voxels := free; voxel_occupied_by_slice := occ;
                  current_slice := slice s; diff := diff_opt |}).
  destruct (walk_voxels visitor fuel (rPos s) end_pos voxel_size data) as [r|] eqn:Hw;
    simpl; [|discriminate].
  set (P := fun a : visitor_args =>
              voxel_occupied_by_slice a = occ /\ current_slice a = slice s
              /\ diff a = diff_opt /\ free ⊆ empty_voxels a
              /\ forall u, u ∈ empty_voxels a ->
                   u ∈ free
                   \/ exists scanslices,
                        occ !! u = Some scanslices
                        /\ window_hit (slice s) diff_opt scanslices = false).
  assert (HP : P (snd r)).
  { refine (walk_voxels_keeps visitor P _ _ _ _ _ _ _ _ Hw).
    - intros vox a (Ho & Hc & Hdf & Hsub & Hall). unfold visitor.
      destruct (voxel_occupied_by_slice a !! vox) as [scanslices|] eqn:Hocc; simpl;
        [|done].
      destruct (window_hit (current_slice a) (diff a) scanslices) eqn:Hhit; simpl;
        [done|].
      repeat split; try done; [set_solver|].
      intros u Hu. apply elem_of_union in Hu as [Hu|Hu]; [|by apply Hall].
      apply elem_of_singleton in Hu as ->. right. exists scanslices.
      by rewrite <- Ho, <- Hc, <- Hdf.
    - unfold P, data; simpl. repeat split; try done. intros u Hu. by left. }
  destruct HP as (_ & _ & _ & Hsub & Hall).
  destruct (fst r); [|discriminate]. by intros [= <-].
Qed.

Lemma carve_rays_sound (fuel : nat) (occ : gmap voxel (list Z)) (s : scan M)
    (maxranges : list double) (pts : list point) (j : nat) (free free' : gset voxel) :
  carve_rays Len transform3 voxel_size diff_opt fuel occ s maxranges j pts free = Ret free' ->
  free ⊆ free'
  /\ forall u, u ∈ free' ->
       u ∈ free
       \/ exists scanslices,
            occ !! u = Some scanslices
            /\ window_hit (slice s) diff_opt scanslices = false.
Proof.
  revert j free. induction pts as [|p rest IH]; simpl; intros j free.
  - intros [= <-]. split; [done|]. intros u Hu. by left.
  - destruct (ray_end Len transform3 s maxranges j p) as [end_pos|]; simpl; [|discriminate].
    destruct (carve_ray voxel_size diff_opt fuel occ s end_pos free) as [free1|] eqn:H1;
      simpl; [|discriminate].
    intros Hrest. apply carve_ray_sound in H1 as [Hsub1 Hall1].
    apply IH in Hrest as [Hsub Hall]. split; [set_solver|].
    intros u Hu. destruct (Hall u Hu) as [Hu1|?]; [by apply Hall1 | by right].
Qed.

(** A voxel that the loop over the scans has freed is a key of the index,
    and the window test of some scan has missed every scan in its set. *)
Lemma carving_loop_sound (fuel : nat) (occ : gmap voxel (list Z))
    (work : list (scan M * list double)) (fv : gset voxel) (u : voxel) :
  carving_loop Len transform3 voxel_size diff_opt fuel occ work ∅ = Ret fv ->
  u ∈ fv ->
  exists sm scanslices,
    sm ∈ work /\ occ !! u = Some scanslices
    /\ window_hit (slice (fst sm)) diff_opt scanslices = false.
Proof.
  intros Hl Hu. apply carving_loop_union in Hl as (frees & HF & ->).
  apply elem_of_union in Hu as [Hu|Hu]; [|by apply elem_of_empty in Hu].
  apply elem_of_union_list in Hu as (free & Hfree & Hu).
  apply list_elem_of_lookup in Hfree as [k Hk].
  destruct (Forall2_lookup_r _ _ _ _ _ HF Hk) as (sm & Hsm & Hc).
  unfold carve_scan in Hc. apply carve_rays_sound in Hc as [_ Hall].
  destruct (Hall u Hu) as [He|(scanslices & Hocc & Hhit)];
    [by apply elem_of_empty in He|].
  exists sm, scanslices. split; [|done]. apply list_elem_of_lookup. by exists k.
Qed.

End CarvingSound.

(** The window test misses a set of scan numbers only if every one of them
    is more than [diff] away from the current scan. *)
Lemma window_miss_far (i d : Z) (scanslices : list Z) :
  SizeSet.wf scanslices -> 0 <= i -> 0 <= d -> i + d <= SIZE_MAX ->
  window_hit i d scanslices = false ->
  forall j, j ∈ scanslices -> 0 <= j -> Z.abs (j - i) > d.
Proof.
  intros Hwf Hi Hd Hsum Hmiss j Hj Hj0.
  destruct (Z_gt_le_dec (Z.abs (j - i)) d) as [?|Hle]; [done|]. exfalso.
  assert (Hhit : window_hit i d scanslices = true); [|congruence].
  destruct (Z.eq_dec d 0) as [->|Hne].
  - apply window_hit_zero. by replace i with j by lia.
  - apply window_hit_in_range; [done|done|lia|done|].
    exists j. split; [done|]. lia.
Qed.

Section RunSound.

Context {M : Type}.
Variable Len : point -> double.
Variable Normalize3 : point -> point.
Variable asin : double -> double.
Variable calculateNormal : list point -> point.
Variable qtree_search : list point -> point -> double -> list nat.
Variable transform3 : M -> point -> point.

(** A voxel that is free at the end of a run holds a point, and some scan
    of the run is more than [diff] scans away from every scan with a point
    in the voxel. *)
Lemma run_free_cause (fuel : nat) (o : Opt.t) (scans : list (scan M)) (out : outputs)
    (u : voxel) :
  run Len Normalize3 asin calculateNormal qtree_search transform3 fuel o scans = Ret out ->
  0 <= Opt.diff o ->
  (forall s, s ∈ scans -> 0 <= slice s /\ slice s + Opt.diff o <= SIZE_MAX) ->
  u ∈ free_voxels out ->
  (exists s p, s ∈ scans /\ p ∈ points s
               /\ voxel_of_point p (Opt.voxel_size o) = Some u)
  /\ exists s, s ∈ scans
       /\ forall s' p, s' ∈ scans -> p ∈ points s' ->
            voxel_of_point p (Opt.voxel_size o) = Some u ->
            Z.abs (slice s' - slice s) > Opt.diff o.
Proof.
  intros Hrun Hd Hsl Hu.
  apply run_Ret in Hrun as (occ & maxranges & _ & Hb & _ & Hl & _).
  destruct (carving_loop_sound _ _ _ _ _ _ _ _ _ Hl Hu)
    as ([s mr] & scanslices & Hsm & Hocc & Hmiss).
  simpl in Hmiss.
  assert (Hs : s ∈ scans).
  { apply list_elem_of_lookup in Hsm as [k Hk].
    apply lookup_zip_with_Some in Hk as (s0 & mr0 & [= <- <-] & Hk & _).
    apply list_elem_of_lookup. by exists k. }
  destruct (build_index_holds (Opt.voxel_size o) scans occ u Hb) as (Hkey & Hj & Hwf).
  split; [apply Hkey; by eexists|].
  exists s. split; [done|]. intros s' p Hs' Hp Hv.
  rewrite Hocc in Hj, Hwf. simpl in Hj, Hwf.
  destruct (Hsl s Hs) as [Hs0 Hs1].
  apply (window_miss_far (slice s) (Opt.diff o) scanslices); try done.
  - apply Hj. by exists s', p.
  - by apply Hsl.
Qed.

End RunSound.

(** X8. Carving frees occupied voxels only, and only on the evidence of a
    scan that is far from every scan that saw the voxel: when a run ends
    with outputs (and no window reaches past [SIZE_MAX]), a free voxel
    holds a point of some scan, and there is a scan of the run that is more
    than [diff] scans away from every scan with a point in that voxel. *)
Theorem run_free_voxel_cause {M : Type}
    (Len : point -> double) (Normalize3 : point -> point) (asin : double -> double)
    (calculateNormal : list point -> point)
    (qtree_search : list point -> point -> double -> list nat)
    (transform3 : M -> point -> point)
    (fuel : nat) (o : Opt.t) (scans : list (scan M)) (out : outputs) (u : voxel) :
  run Len Normalize3 asin calculateNormal qtree_search transform3 fuel o scans = Ret out ->
  0 <= Opt.diff o ->
  (forall s, s ∈ scans -> 0 <= slice s /\ slice s + Opt.diff o <= SIZE_MAX) ->
  u ∈ free_voxels out ->
  (exists s p, s ∈ scans /\ p ∈ points s
               /\ voxel_of_point p (Opt.voxel_size o) = Some u)
  /\ exists s, s ∈ scans
       /\ forall s' p, s' ∈ scans -> p ∈ points s' ->
            voxel_of_point p (Opt.voxel_size o) = Some u ->
            Z.abs (slice s' - slice s) > Opt.diff o.
Proof. apply run_free_cause. Qed.

Lemma run_free_voxel_cause_witness :
  exists out,
    run Len_model Normalize3_model asin_any normal_up search_all transform_id
        64 opts_default [scan_a; scan_b] = Ret out
    /\ Voxel 5 0 0 ∈ free_voxels out
    /\ exists s, s ∈ [scan_a; scan_b]
         /\ forall s' p, s' ∈ [scan_a; scan_b] -> p ∈ points s' ->
              voxel_of_point p d_ten = Some (Voxel 5 0 0) ->
              Z.abs (slice s' - slice s) > 0.
Proof.
  eexists. split; [vm_compute; reflexivity|].
  assert (Hin : Voxel 5 0 0 ∈ ({[ Voxel 5 0 0 ]} : gset voxel)) by set_solver.
  split; [exact Hin|].
  refine (proj2 (run_free_voxel_cause Len_model Normalize3_model asin_any normal_up
                   search_all transform_id 64 opts_default [scan_a; scan_b]
                   {| free_voxels := {[ Voxel 5 0 0 ]};
                      partition := _; masks := _ |} (Voxel 5 0 0) _ _ _ Hin)).
  - vm_compute. reflexivity.
  - simpl. lia.
  - intros s Hs. unfold SIZE_MAX.
    apply elem_of_cons in Hs as [->|Hs]; [simpl; lia|].
    apply list_elem_of_singleton in Hs as ->. simpl. lia.
Defined.






(** ** The ways a run can end *)

Section RunEnds.

Context {M : Type}.
Variable Len : point -> double.
Variable Normalize3 : point -> point.
Variable asin : double -> double.
Variable calculateNormal : list point -> point.
Variable qtree_search : list point -> point -> double -> list nat.
Variable transform3 : M -> point -> point.

Lemma run_Ret_options (fuel : nat) (o : Opt.t) (scans : list (scan M)) (out : outputs) :
  run Len Normalize3 asin calculateNormal qtree_search transform3 fuel o scans = Ret out ->
  Opt.no_subvoxel_accuracy o = true
  /\ (Opt.maxrange_method o = NONE
      \/ (Opt.maxrange_method o = NORMALS /\ Opt.normal_method o = ANGLE)).
Proof.
  unfold run.
  destruct (check_scan_range (Opt.start o) (Opt.end_ o)) as [[]|]; simpl; [|discriminate].
  case_bool_decide as Hscans; [discriminate|].
  destruct (existsb refl_mismatch scans); [discriminate|].
  destruct (build_index (Opt.voxel_size o) ∅ scans) as [occ|]; simpl; [|discriminate].
  case_bool_decide; [discriminate|].
  destruct (maxrange_phase _ _ _ _ _ _ _ _ _ scans) as [maxranges|] eqn:Hm;
    simpl; [|discriminate].
  destruct (carving_loop _ _ _ _ _ _ _ _) as [fv|]; simpl; [|discriminate].
  destruct (Opt.no_subvoxel_accuracy o); simpl; [|discriminate].
  intros _. split; [done|].
  unfold maxrange_phase in Hm.
  destruct (Opt.maxrange_method o); [by left| |discriminate].
  right. split; [done|].
  destruct scans as [|s rest]; [done|].
  destruct (Opt.normal_method o); try discriminate; try done.
Qed.

Lemma carve_rays_unranged (Len' : point -> double) (transform3' : M -> point -> point)
    (voxel_size : double) (diff_opt : Z) (fuel : nat) (occ : gmap voxel (list Z))
    (s : scan M) (maxranges : list double) (pts : list point) (j : nat)
    (free : gset voxel) :
  (forall k, (k < length pts)%nat -> maxranges !! (j + k)%nat = Some infinity) ->
  carve_rays Len transform3 voxel_size diff_opt fuel occ s maxranges j pts free
  = carve_rays Len' transform3' voxel_size diff_opt fuel occ s maxranges j pts free.
Proof.
  revert j free. induction pts as [|p rest IH]; simpl; intros j free Hinf; [done|].
  assert (Hj : maxranges !! j = Some infinity).
  { specialize (Hinf 0%nat ltac:(lia)). by rewrite Nat.add_0_r in Hinf. }
  unfold ray_end. rewrite Hj. simpl.
  destruct (carve_ray voxel_size diff_opt fuel occ s p free) as [free1|]; simpl; [|done].
  apply IH. intros k Hk. specialize (Hinf (S k) ltac:(lia)).
  by replace (S j + k)%nat with (j + S k)%nat by lia.
Qed.

Lemma carving_loop_unranged (Len' : point -> double) (transform3' : M -> point -> point)
    (voxel_size : double) (diff_opt : Z) (fuel : nat) (occ : gmap voxel (list Z))
    (scans : list (scan M)) (acc : gset voxel) :
  carving_loop Len transform3 voxel_size diff_opt fuel occ
    (zip scans (map no_maxranges scans)) acc
  = carving_loop Len' transform3' voxel_size diff_opt fuel occ
      (zip scans (map no_maxranges scans)) acc.
Proof.
  revert acc. induction scans as [|s rest IH]; simpl; intros acc; [done|].
  unfold carve_scan. simpl.
  rewrite (carve_rays_unranged Len' transform3').
  - destruct (carve_rays Len' transform3' _ _ _ _ _ _ _ _ _) as [free|]; simpl; [|done].
    apply IH.
  - intros k Hk. unfold no_maxranges. simpl. by apply lookup_replicate_2.
Qed.

End RunEnds.

(** X10. A run ends with outputs only if [--no-subvoxel-accuracy] was given
    and the max-range method is [none], or [normals] with the normal
    method [angle]; every other choice of these options ends the run
    before anything is written. *)
Theorem run_needs_options {M : Type}
    (Len : point -> double) (Normalize3 : point -> point) (asin : double -> double)
    (calculateNormal : list point -> point)
    (qtree_search : list point -> point -> double -> list nat)
    (transform3 : M -> point -> point)
    (fuel : nat) (o : Opt.t) (scans : list (scan M)) (out : outputs) :
  run Len Normalize3 asin calculateNormal qtree_search transform3 fuel o scans = Ret out ->
  Opt.no_subvoxel_accuracy o = true
  /\ (Opt.maxrange_method o = NONE
      \/ (Opt.maxrange_method o = NORMALS /\ Opt.normal_method o = ANGLE)).
Proof. apply run_Ret_options. Qed.

Lemma run_needs_options_witness :
  Opt.no_subvoxel_accuracy opts_default = true
  /\ (Opt.maxrange_method opts_default = NONE
      \/ (Opt.maxrange_method opts_default = NORMALS
          /\ Opt.normal_method opts_default = ANGLE)).
Proof.
  refine (run_needs_options Len_model Normalize3_model asin_any normal_up search_all
            transform_id 64 opts_default [scan_a; scan_b] _ _).
  vm_compute. reflexivity.
Defined.

(** X11. With the default value of every option, that is for a command line
    that names the input directory only, no run ends with outputs,
    whatever the scans: the switch [--no-subvoxel-accuracy] is off. *)
Theorem run_of_defaults_fails {M : Type}
    (Len : point -> double) (Normalize3 : point -> point) (asin : double -> double)
    (calculateNormal : list point -> point)
    (qtree_search : list point -> point -> double -> list nat)
    (transform3 : M -> point -> point)
    (fuel : nat) (dir : string) (scans : list (scan M)) :
  exists f,
    run Len Normalize3 asin calculateNormal qtree_search transform3 fuel
        (opts_of_dir dir) scans = Fail f.
Proof.
  destruct (run _ _ _ _ _ _ fuel (opts_of_dir dir) scans) as [out|f] eqn:Hrun;
    [|by exists f].
  apply run_Ret_options in Hrun as [Hsw _]. discriminate.
Qed.

(** X12. Without a point there is nothing to work on: when the scan range
    is accepted, a run without scans ends by [exit(-1)], and a run whose
    scans have no points ends by [exit(1)]. *)
Theorem run_without_points {M : Type}
    (Len : point -> double) (Normalize3 : point -> point) (asin : double -> double)
    (calculateNormal : list point -> point)
    (qtree_search : list point -> point -> double -> list nat)
    (transform3 : M -> point -> point)
    (fuel : nat) (o : Opt.t) (scans : list (scan M)) :
  check_scan_range (Opt.start o) (Opt.end_ o) = Ret tt ->
  (forall s, s ∈ scans -> points s = []) ->
  run Len Normalize3 asin calculateNormal qtree_search transform3 fuel o scans
  = Fail (Exit (if bool_decide (scans = []) then -1 else 1)).
Proof.
  intros Hc Hno. unfold run. rewrite Hc. simpl.
  case_bool_decide; [done|].
  destruct (existsb refl_mismatch scans); [done|].
  rewrite build_index_no_points by done. simpl.
  by rewrite bool_decide_eq_true_2.
Qed.

Lemma run_without_points_witness :
  run Len_model Normalize3_model asin_any normal_up search_all transform_id
      64 opts_default [Scan 0 (Point zero zero zero) tt [] [] []]
  = Fail (Exit 1).
Proof.
  apply (run_without_points Len_model Normalize3_model asin_any normal_up search_all
           transform_id 64 opts_default [Scan 0 (Point zero zero zero) tt [] [] []]).
  - reflexivity.
  - intros s Hs. by apply list_elem_of_singleton in Hs as ->.
Defined.

(** X13. Without max-range estimation ([--maxrange-method none]) the
    outcome of a run does not depend on [--fuzz] or [--normal-method], nor
    on anything that the normal estimation, the angular search, [Len] or
    [transform3] would answer: every ray ends at its point. *)
Theorem run_none_ignores_estimator {M : Type}
    (Len Len' : point -> double) (Normalize3 Normalize3' : point -> point)
    (asin asin' : double -> double)
    (calculateNormal calculateNormal' : list point -> point)
    (qtree_search qtree_search' : list point -> point -> double -> list nat)
    (transform3 transform3' : M -> point -> point)
    (fuel : nat) (o : Opt.t) (fuzz' : double) (normal_method' : normal_method_t)
    (scans : list (scan M)) :
  Opt.maxrange_method o = NONE ->
  run Len Normalize3 asin calculateNormal qtree_search transform3 fuel o scans
  = run Len' Normalize3' asin' calculateNormal' qtree_search' transform3' fuel
      {| Opt.start := Opt.start o; Opt.end_ := Opt.end_ o; Opt.fuzz := fuzz';
         Opt.voxel_size := Opt.voxel_size o; Opt.diff := Opt.diff o;
         Opt.normal_method := normal_method';
         Opt.maxrange_method := Opt.maxrange_method o;
         Opt.maskdir := Opt.maskdir o; Opt.dir := Opt.dir o;
         Opt.no_subvoxel_accuracy := Opt.no_subvoxel_accuracy o |}
      scans.
Proof.
  intros Hnone. unfold run. simpl. rewrite Hnone.
  destruct (check_scan_range (Opt.start o) (Opt.end_ o)) as [[]|]; simpl; [|done].
  case_bool_decide; [done|].
  destruct (existsb refl_mismatch scans); [done|].
  destruct (build_index (Opt.voxel_size o) ∅ scans) as [occ|]; simpl; [|done].
  case_bool_decide; [done|].
  by rewrite (carving_loop_unranged Len transform3 Len' transform3').
Qed.

Lemma run_none_ignores_estimator_witness :
  run Len_model Normalize3_model asin_any normal_up search_all transform_id
      64 opts_default [scan_a; scan_b]
  = run (fun _ => zero) (fun p => p) asin_any normal_up search_all
        (fun _ _ => Point zero zero zero) 64
        {| Opt.start := 0; Opt.end_ := -1; Opt.fuzz := one; Opt.voxel_size := d_ten;
           Opt.diff := 0; Opt.normal_method := KNEAREST; Opt.maxrange_method := NONE;
           Opt.maskdir := ""; Opt.dir := "dat/"; Opt.no_subvoxel_accuracy := true |}
        [scan_a; scan_b].
Proof.
  apply (run_none_ignores_estimator Len_model (fun _ => zero)
           Normalize3_model (fun p => p) asin_any asin_any normal_up normal_up
           search_all search_all transform_id (fun _ _ => Point zero zero zero)
           64 opts_default one KNEAREST [scan_a; scan_b]).
  reflexivity.
Defined.

Lemma filter_split_perm {A : Type} (f : A -> bool) (l : list A) :
  List.filter (fun a => negb (f a)) l ++ List.filter f l ≡ₚ l.
Proof.
  induction l as [|a l IH]; simpl; [done|].
  destruct (f a); simpl.
  - rewrite <- Permutation_middle. by constructor.
  - by constructor.
Qed.

(** X14. No point is lost and none is written twice: when a run ends with
    outputs, the lines of the static file followed by those of the dynamic
    file are, up to their order, the lines of all points of all scans. *)
Theorem run_writes_every_point {M : Type}
    (Len : point -> double) (Normalize3 : point -> point) (asin : double -> double)
    (calculateNormal : list point -> point)
    (qtree_search : list point -> point -> double -> list nat)
    (transform3 : M -> point -> point)
    (fuel : nat) (o : Opt.t) (scans : list (scan M)) (out : outputs) :
  run Len Normalize3 asin calculateNormal qtree_search transform3 fuel o scans = Ret out ->
  out_static (partition out) ++ out_dynamic (partition out)
    ≡ₚ map line_of (concat (map points scans))
  /\ (length (out_static (partition out)) + length (out_dynamic (partition out))
      = length (concat (map points scans)))%nat.
Proof.
  intros Hrun.
  apply run_Ret in Hrun as (occ & maxranges & _ & _ & _ & _ & Hp & _).
  apply write_partitioning_lines in Hp as [Hd Hs]. simpl in Hd, Hs.
  assert (Hperm : out_static (partition out) ++ out_dynamic (partition out)
                    ≡ₚ map line_of (concat (map points scans))).
  { rewrite Hd, Hs, <- map_app. apply Permutation_map. apply filter_split_perm. }
  split; [done|].
  apply Permutation_length in Hperm. by rewrite length_app, length_map in Hperm.
Qed.

Lemma run_writes_every_point_witness :
  exists out,
    run Len_model Normalize3_model asin_any normal_up search_all transform_id
        64 opts_default [scan_a; scan_b] = Ret out
    /\ (length (out_static (partition out)) + length (out_dynamic (partition out))
        = length (concat (map points [scan_a; scan_b])))%nat.
Proof.
  eexists. split; [vm_compute; reflexivity|].
  refine (proj2 (run_writes_every_point Len_model Normalize3_model asin_any normal_up
                   search_all transform_id 64 opts_default [scan_a; scan_b] _ _)).
  vm_compute. reflexivity.
Defined.

(** ** The command line *)

Lemma at_table {A : Type} (values : list (string * A)) (s : string) :
  NoDup (values.*1) ->
  match (list_to_map values : gmap string A) !! s with
  | Some m => (s, m) ∈ values
  | None => forall m, (s, m) ∉ values
  end.
Proof.
  intros Hnd.
  destruct ((list_to_map values : gmap string A) !! s) as [m|] eqn:Hl.
  - by apply elem_of_list_to_map.
  - intros m Hin. apply (elem_of_list_to_map (M := gmap string)) in Hin; [|done].
    congruence.
Qed.

Lemma maxrange_method_values_NoDup : NoDup (maxrange_method_values.*1).
Proof. apply (bool_decide_unpack _). vm_compute. reflexivity. Qed.

Lemma normal_method_values_NoDup : NoDup (normal_method_values.*1).
Proof. apply (bool_decide_unpack _). vm_compute. reflexivity. Qed.

(** X15. The two [validate] overloads accept the names of their tables and
    nothing else (no other spelling or case), every other string is
    rejected with a text that quotes it, every method has a name, and no
    method has two. *)
Theorem validate_method_names (s s' : string)
    (m : maxrange_method_t) (n : normal_method_t) :
  (validate_maxrange_method s = Valid m <-> (s, m) ∈ maxrange_method_values)
  /\ ((forall m', (s, m') ∉ maxrange_method_values) <->
      validate_maxrange_method s
      = Invalid_option_value ("Unknown maxrange method: " +:+ s))
  /\ (validate_maxrange_method s = Valid m -> validate_maxrange_method s' = Valid m ->
      s = s')
  /\ (exists name, validate_maxrange_method name = Valid m)
  /\ (validate_normal_method s = Valid n <-> (s, n) ∈ normal_method_values)
  /\ ((forall n', (s, n') ∉ normal_method_values) <->
      validate_normal_method s
      = Invalid_option_value ("Unknown normal method: " +:+ s))
  /\ (validate_normal_method s = Valid n -> validate_normal_method s' = Valid n ->
      s = s')
  /\ (exists name, validate_normal_method name = Valid n).
Proof.
  assert (Hm : forall t k, validate_maxrange_method t = Valid k
                           <-> (t, k) ∈ maxrange_method_values).
  { intros t k. unfold validate_maxrange_method.
    pose proof (at_table maxrange_method_values t maxrange_method_values_NoDup) as Ht.
    destruct (list_to_map maxrange_method_values !! t) as [k'|] eqn:Hl.
    - split; [by intros [= <-]|]. intros Hin. f_equal.
      apply (elem_of_list_to_map (M := gmap string)) in Hin;
        [|apply maxrange_method_values_NoDup].
      congruence.
    - split; [discriminate|]. intros Hin. by destruct (Ht k). }
  assert (Hn : forall t k, validate_normal_method t = Valid k
                           <-> (t, k) ∈ normal_method_values).
  { intros t k. unfold validate_normal_method.
    pose proof (at_table normal_method_values t normal_method_values_NoDup) as Ht.
    destruct (list_to_map normal_method_values !! t) as [k'|] eqn:Hl.
    - split; [by intros [= <-]|]. intros Hin. f_equal.
      apply (elem_of_list_to_map (M := gmap string)) in Hin;
        [|apply normal_method_values_NoDup].
      congruence.
    - split; [discriminate|]. intros Hin. by destruct (Ht k). }
  split; [apply Hm|]. split; [|split; [|split; [|split; [apply Hn|split; [|split]]]]].
  - unfold validate_maxrange_method.
    pose proof (at_table maxrange_method_values s maxrange_method_values_NoDup) as Ht.
    destruct (list_to_map maxrange_method_values !! s) as [k'|].
    + split; [|discriminate]. intros Hno. by destruct (Hno k').
    + by split.
  - rewrite !Hm. unfold maxrange_method_values.
    rewrite !elem_of_cons, !elem_of_nil. naive_solver.
  - destruct m; eexists; apply Hm; unfold maxrange_method_values;
      rewrite !elem_of_cons; eauto.
  - unfold validate_normal_method.
    pose proof (at_table normal_method_values s normal_method_values_NoDup) as Ht.
    destruct (list_to_map normal_method_values !! s) as [k'|].
    + split; [|discriminate]. intros Hno. by destruct (Hno k').
    + by split.
  - rewrite !Hn. unfold normal_method_values.
    rewrite !elem_of_cons, !elem_of_nil. naive_solver.
  - destruct n; eexists; apply Hn; unfold normal_method_values;
      rewrite !elem_of_cons; eauto 10.
Qed.

Lemma back_app (s : string) (c : Ascii.ascii) :
  back (s +:+ String c EmptyString) = Some c.
Proof.
  induction s as [|a r IH]; [done|].
  change (String a r +:+ String c EmptyString)
    with (String a (r +:+ String c EmptyString)).
  cbn [back]. rewrite IH. by destruct r.
Qed.

(** X16. The directory that [main] goes on with always ends with the
    separator: one is appended unless the last character is one already,
    so that handing the result in again changes nothing; an empty
    argument has no last character to look at. *)
Theorem input_dir_separator (dir dir' : string) :
  input_dir (Some dir) = Ret dir' ->
  dir <> EmptyString
  /\ back dir' = Some separator
  /\ input_dir (Some dir') = Ret dir'
  /\ (if bool_decide (back dir = Some separator) then dir' = dir
      else dir' = dir +:+ String separator EmptyString).
Proof.
  unfold input_dir. destruct (back dir) as [c|] eqn:Hb; [|discriminate].
  assert (Hne : dir <> EmptyString) by (by intros ->).
  cbn [of_option mbind outcome_bind].
  destruct (Ascii.eqb_spec c separator) as [->|Hc]; intros [= <-].
  - split; [done|]. split; [done|]. rewrite Hb. cbn [of_option mbind outcome_bind].
    rewrite Ascii.eqb_refl. split; [done|]. by rewrite bool_decide_eq_true_2.
  - split; [done|]. rewrite back_app. split; [done|].
    cbn [of_option mbind outcome_bind]. rewrite Ascii.eqb_refl. split; [done|].
    rewrite bool_decide_eq_false_2; [done|]. congruence.
Qed.

Lemma input_dir_separator_witness :
  "dat" <> EmptyString
  /\ back "dat/" = Some separator
  /\ input_dir (Some "dat/") = Ret "dat/"
  /\ (if bool_decide (back "dat" = Some separator) then "dat/" = "dat"
      else "dat/" = "dat" +:+ String separator EmptyString).
Proof. apply (input_dir_separator "dat" "dat/"). reflexivity. Defined.

(** ** The names of the mask files *)

Lemma pretty_N_go_head (n : N) (s : string) :
  (0 < n)%N ->
  exists c r, pretty_N_go n s = String c r /\ c <> Ascii.ascii_of_nat 48.
Proof.
  revert s. induction (N.lt_wf_0 n) as [n _ IH]; intros s Hn.
  rewrite pretty_N_go_step by done.
  destruct (decide (n `div` 10 = 0)%N) as [Hz|Hnz].
  - rewrite Hz, pretty_N_go_0. eexists _, _. split; [done|].
    apply N.div_small_iff in Hz; [|done].
    rewrite N.mod_small by done.
    assert (n = 1 \/ n = 2 \/ n = 3 \/ n = 4 \/ n = 5 \/ n = 6
            \/ n = 7 \/ n = 8 \/ n = 9)%N as Hcases by lia.
    destruct Hcases as [->|[->|[->|[->|[->|[->|[->|[->| ->]]]]]]]]; discriminate.
  - apply IH; [apply N.div_lt; lia | by apply N.neq_0_lt_0].
Qed.

Lemma pretty_Z_head (i : Z) :
  0 < i -> exists c r, pretty i = String c r /\ c <> Ascii.ascii_of_nat 48.
Proof.
  destruct i as [|p|p]; try lia. intros _.
  unfold pretty, pretty_Z, pretty, pretty_positive, pretty, pretty_N.
  rewrite decide_False by done. by apply pretty_N_go_head.
Qed.

Lemma setw3_inj (i j : Z) : 0 <= i -> 0 <= j -> setw3 i = setw3 j -> i = j.
Proof.
  intros Hi Hj Heq.
  assert (Hz : forall k, 0 < k -> setw3 k <> setw3 0).
  { intros k Hk. destruct (pretty_Z_head k Hk) as (c & r & Hp & Hc).
    unfold setw3. rewrite Hp.
    destruct r as [|a [|b r]]; simpl; intros [= ?]; by subst. }
  destruct (decide (i = 0)) as [->|Hi0], (decide (j = 0)) as [->|Hj0]; [done| | |].
  - exfalso. apply (Hz j); [lia|done].
  - exfalso. apply (Hz i); [lia|done].
  - destruct (pretty_Z_head i ltac:(lia)) as (c & r & Hp & Hc).
    destruct (pretty_Z_head j ltac:(lia)) as (c' & r' & Hp' & Hc').
    apply (inj pretty). rewrite Hp, Hp'.
    unfold setw3 in Heq. rewrite Hp, Hp' in Heq.
    destruct r as [|a [|b r]], r' as [|a' [|b' r']]; simpl in Heq;
      injection Heq; intros; subst; done.
Qed.

Lemma length_append_string (s t : string) :
  String.length (s +:+ t) = (String.length s + String.length t)%nat.
Proof. induction s as [|a r IH]; simpl; [done|]. by rewrite IH. Qed.

Lemma append_inv_tail (s1 s2 t : string) : s1 +:+ t = s2 +:+ t -> s1 = s2.
Proof.
  revert s2. induction s1 as [|a r IH]; intros [|b r2] H; simpl in H.
  - done.
  - exfalso. apply (f_equal String.length) in H. simpl in H.
    rewrite !length_append_string in H. simpl in H. lia.
  - exfalso. apply (f_equal String.length) in H. simpl in H.
    rewrite !length_append_string in H. simpl in H. lia.
  - injection H as -> H. f_equal. by apply IH.
Qed.

Lemma append_inv_head (s t1 t2 : string) : s +:+ t1 = s +:+ t2 -> t1 = t2.
Proof. induction s as [|a r IH]; simpl; [done|]. intros [= H]. by apply IH. Qed.

Lemma mask_path_inj (maskdir : string) (i j : Z) :
  0 <= i -> 0 <= j -> mask_path maskdir i = mask_path maskdir j -> i = j.
Proof.
  intros Hi Hj. unfold mask_path. intros H.
  apply append_inv_head, append_inv_head, append_inv_tail in H.
  by apply setw3_inj.
Qed.

Lemma map_fmap {A B : Type} (f : A -> B) (l : list A) : map f l = f <$> l.
Proof. reflexivity. Qed.

Lemma scanorder_lookup (start : Z) (n k : nat) :
  0 <= start -> start + Z.of_nat n <= 2 ^ 64 -> (k < n)%nat ->
  scanorder start n !! k = Some (start + Z.of_nat k).
Proof.
  intros Hs Hn Hk. unfold scanorder.
  rewrite map_fmap, list_lookup_fmap, lookup_seq_lt by done. simpl. f_equal.
  unfold uwrap. rewrite Z.mod_small; lia.
Qed.

(** X17. The scans found are numbered from [start] upwards, and each gets a
    mask file of its own: for [n] scans (with [start + n] within
    [size_t]) the file of the [k]-th scan is named after [start + k], and
    no two of the names are the same, so that no mask is overwritten by
    another. *)
Theorem mask_files_distinct {M : Type} (voxel_size : double) (maskdir : string)
    (fv : gset voxel) (scans : list (scan M)) (files : list (string * list string))
    (start : Z) :
  0 <= start -> start + Z.of_nat (length scans) <= 2 ^ 64 ->
  map slice scans = scanorder start (length scans) ->
  write_masks voxel_size maskdir fv scans = Ret files ->
  map fst files
    = map (fun k => mask_path maskdir (start + Z.of_nat k)) (seq 0 (length scans))
  /\ NoDup (map fst files).
Proof.
  intros Hs Hn Hsl Hw.
  assert (Hpaths : map fst files = map (mask_path maskdir) (map slice scans)).
  { apply write_masks_files in Hw. clear Hsl Hn.
    induction Hw as [|s file rest fs [Hf _] _ IH]; simpl; [done|]. by rewrite Hf, IH. }
  assert (Hnum : scanorder start (length scans)
                 = map (fun k => start + Z.of_nat k) (seq 0 (length scans))).
  { apply list_eq. intros k.
    destruct (decide (k < length scans)%nat) as [Hk|Hk].
    - rewrite scanorder_lookup by done.
      by rewrite map_fmap, list_lookup_fmap, lookup_seq_lt.
    - rewrite !lookup_ge_None_2; [done| |].
      + rewrite length_map, length_seq. lia.
      + unfold scanorder. rewrite length_map, length_seq. lia. }
  rewrite Hpaths, Hsl, Hnum, map_map. split; [done|].
  apply (NoDup_fmap_2_strong (fun k => mask_path maskdir (start + Z.of_nat k))).
  - intros a b _ _ Hab. apply mask_path_inj in Hab; lia.
  - apply NoDup_seq.
Qed.

Lemma mask_files_distinct_witness :
  map fst [(mask_path "m" 0, [mask_line true]); (mask_path "m" 1, [mask_line false])]
    = map (fun k => mask_path "m" (0 + Z.of_nat k)) (seq 0 2)
  /\ NoDup (map fst [(mask_path "m" 0, [mask_line true]);
                     (mask_path "m" 1, [mask_line false])]).
Proof.
  apply (mask_files_distinct d_ten "m" {[ Voxel 5 0 0 ]} [scan_a; scan_b] _ 0).
  - lia.
  - simpl. lia.
  - reflexivity.
  - vm_compute. reflexivity.
Defined.

(** ** Max ranges that the normals method leaves behind *)

Lemma gtb_infinity_finite (d : double) : is_finite d = true -> gtb infinity d = true.
Proof. destruct d as [s|s| |s m e]; try discriminate; intros _; by destruct s. Qed.

Lemma neb_infinity_cases (d : double) : neb d infinity = false -> d = infinity.
Proof.
  unfold neb, SFeqb.
  destruct d as [s|[]| |s m e]; simpl; try discriminate; try done;
    by destruct s.
Qed.

(** A candidate that is not above a finite distance is not the infinity,
    nor is its clamped value. *)
Lemma clamped_not_infinity (q d : double) :
  is_finite d = true -> gtb q d = false ->
  neb (if ltb q zero then zero else q) infinity = true.
Proof.
  intros Hd Hgt. destruct (ltb q zero); [done|].
  destruct (neb q infinity) eqn:Hq; [done|].
  apply neb_infinity_cases in Hq. subst q.
  by rewrite gtb_infinity_finite in Hgt.
Qed.

Section NormalsRanged.

Variable Len : point -> double.
Variable Normalize3 : point -> point.
Variable asin : double -> double.
Variable calculateNormal : list point -> point.
Variable qtree_search : list point -> point -> double -> list nat.
Variables voxel_size fuzz : double.
Variable normal_method : normal_method_t.

Variable orig : list point.
Variable distances : list double.
Hypothesis distances_finite : Forall (fun d => is_finite d = true) distances.

Lemma distance_finite (k : nat) (d : double) :
  distances !! k = Some d -> is_finite d = true.
Proof.
  intros Hk. rewrite Forall_forall in distances_finite.
  apply distances_finite. by eapply list_elem_of_lookup_2.
Qed.

Lemma shadow_step_ranged (normal : point) (dividend : double)
    (maxranges maxranges' : list double) (k : nat) :
  shadow_step Normalize3 orig distances normal dividend maxranges k = Ret maxranges' ->
  forall i r, maxranges !! i = Some r -> neb r infinity = true ->
    exists r', maxranges' !! i = Some r' /\ neb r' infinity = true.
Proof.
  unfold shadow_step.
  destruct (orig !! k) as [p_k|]; simpl; [|discriminate].
  destruct (eqb _ zero); [intros [= <-]; eauto|].
  destruct (distances !! k) as [distance_k|] eqn:Hd; simpl; [|discriminate].
  destruct (gtb _ distance_k) eqn:Hgt; [intros [= <-]; eauto|].
  destruct (maxranges !! k) as [maxrange_k|] eqn:Hk; simpl; [|discriminate].
  destruct (ltb maxrange_k _); [intros [= <-]; eauto|].
  intros [= <-] i r Hi Hr.
  destruct (decide (k = i)) as [->|Hne].
  - eexists. split; [apply list_lookup_insert_eq; by eapply lookup_lt_Some|].
    eapply clamped_not_infinity; [by eapply distance_finite | done].
  - exists r. by rewrite list_lookup_insert_ne.
Qed.

Lemma shadow_loop_ranged (normal : point) (dividend : double) (shadow : list nat)
    (maxranges maxranges' : list double) :
  shadow_loop Normalize3 orig distances normal dividend maxranges shadow = Ret maxranges' ->
  forall i r, maxranges !! i = Some r -> neb r infinity = true ->
    exists r', maxranges' !! i = Some r' /\ neb r' infinity = true.
Proof.
  revert maxranges. induction shadow as [|k rest IH]; simpl; intros maxranges.
  - intros [= <-]. eauto.
  - destruct (shadow_step Normalize3 orig distances normal dividend maxranges k)
      as [m1|] eqn:Hstep; simpl; [|discriminate].
    intros Hrest i r Hi Hr.
    destruct (shadow_step_ranged _ _ _ _ _ Hstep i r Hi Hr) as (r1 & Hi1 & Hr1).
    by eapply IH.
Qed.

(** A seed has a max range that is not the infinity afterwards, and no
    point loses the one it has. *)
Lemma seed_step_ranged (maxranges maxranges' : list double) (j : nat) :
  seed_step Len Normalize3 asin calculateNormal qtree_search voxel_size fuzz
            normal_method orig distances maxranges j = Ret maxranges' ->
  (exists r', maxranges' !! j = Some r' /\ neb r' infinity = true)
  /\ forall i r, maxranges !! i = Some r -> neb r infinity = true ->
       exists r', maxranges' !! i = Some r' /\ neb r' infinity = true.
Proof.
  unfold seed_step.
  destruct (orig !! j) as [p|]; simpl; [|discriminate].
  destruct (maxranges !! j) as [maxrange_j|] eqn:Hj; simpl; [|discriminate].
  destruct (neb maxrange_j infinity) eqn:Hnj; [intros [= <-]; split; by eauto|].
  destruct (distances !! j) as [distance_j|] eqn:Hd; simpl; [|discriminate].
  destruct (seed_normal _ _ _ _ _ _ _ _) as [normal|]; simpl; [|discriminate].
  assert (Hlt : (j < length maxranges)%nat) by by eapply lookup_lt_Some.
  destruct (eqb _ zero).
  { intros [= <-]. split.
    - exists zero. split; [by apply list_lookup_insert_eq | done].
    - intros i r Hi Hr. destruct (decide (j = i)) as [->|Hne].
      + exists zero. split; [by apply list_lookup_insert_eq | done].
      + exists r. by rewrite list_lookup_insert_ne. }
  destruct (gtb _ distance_j) eqn:Hgt; [discriminate|].
  destruct (ltb (Len p) _); [discriminate|].
  intros Hshadow.
  match type of Hshadow with
  | shadow_loop _ _ _ _ _ (<[j := ?q]> _) _ = _ =>
      assert (Hq : neb q infinity = true)
        by (eapply clamped_not_infinity; [by eapply distance_finite | done])
  end.
  split.
  - eapply (shadow_loop_ranged _ _ _ _ _ Hshadow j); [|exact Hq].
    by apply list_lookup_insert_eq.
  - intros i r Hi Hr. destruct (decide (j = i)) as [->|Hne].
    + eapply (shadow_loop_ranged _ _ _ _ _ Hshadow i); [|exact Hq].
      by apply list_lookup_insert_eq.
    + eapply (shadow_loop_ranged _ _ _ _ _ Hshadow i); [|exact Hr].
      by rewrite list_lookup_insert_ne.
Qed.

Lemma seed_loop_ranged (order : list nat) (maxranges maxranges' : list double) :
  seed_loop Len Normalize3 asin calculateNormal qtree_search voxel_size fuzz
            normal_method orig distances maxranges order = Ret maxranges' ->
  (forall j, j ∈ order -> exists r', maxranges' !! j = Some r' /\ neb r' infinity = true)
  /\ forall i r, maxranges !! i = Some r -> neb r infinity = true ->
       exists r', maxranges' !! i = Some r' /\ neb r' infinity = true.
Proof.
  revert maxranges. induction order as [|j rest IH]; simpl; intros maxranges.
  - intros [= <-]. split; [|eauto]. intros j Hj. by apply elem_of_nil in Hj.
  - destruct (seed_step _ _ _ _ _ _ _ _ _ _ maxranges j) as [m1|] eqn:Hstep;
      simpl; [|discriminate].
    intros Hrest. apply seed_step_ranged in Hstep as [(r1 & Hj1 & Hr1) Hkeep1].
    apply IH in Hrest as [Hall Hkeep]. split.
    + intros i Hi. apply elem_of_cons in Hi as [->|Hi]; [by eapply Hkeep | by apply Hall].
    + intros i r Hi Hr. destruct (Hkeep1 i r Hi Hr) as (r' & Hi' & Hr'). by eapply Hkeep.
Qed.

End NormalsRanged.

(** X18. With the normals method every point of a scan ends with a max
    range: when the phase has gone through and the points of a scan are at
    finite distances, none of its max ranges is left at infinity, so that
    every ray of the scan is cut at its plane. *)
Theorem normals_leave_no_infinity {M : Type}
    (Len : point -> double) (Normalize3 : point -> point) (asin : double -> double)
    (calculateNormal : list point -> point)
    (qtree_search : list point -> point -> double -> list nat)
    (voxel_size fuzz : double) (normal_method : normal_method_t)
    (scans : list (scan M)) (R : list (list double))
    (i : nat) (s : scan M) (Ri : list double) :
  maxrange_phase Len Normalize3 asin calculateNormal qtree_search voxel_size fuzz
                 normal_method NORMALS scans = Ret R ->
  scans !! i = Some s -> R !! i = Some Ri ->
  length (points s) = length (orig_points s) ->
  Forall (fun p => is_finite (Len p) = true) (orig_points s) ->
  length Ri = length (points s)
  /\ Forall (fun r => neb r infinity = true) Ri.
Proof.
  intros Hphase Hs HR Hlen Hfin.
  assert (Hscan : normals_of_scan Len Normalize3 asin calculateNormal qtree_search
                    voxel_size fuzz normal_method s = Ret Ri).
  { eapply normals_of_scans_lookup; [|done|done].
    revert Hphase. unfold maxrange_phase. destruct normal_method; (discriminate || done). }
  assert (Hloop : seed_loop Len Normalize3 asin calculateNormal qtree_search voxel_size
                    fuzz normal_method (orig_points s) (map Len (orig_points s))
                    (no_maxranges s) (sorted_point_indices (map Len (orig_points s)))
                  = Ret Ri).
  { revert Hscan. unfold normals_of_scan. destruct normal_method; (discriminate || done). }
  assert (HlenR : length Ri = length (points s)).
  { apply seed_loop_length in Hloop. rewrite Hloop. unfold no_maxranges.
    apply length_replicate. }
  split; [done|].
  apply seed_loop_ranged in Hloop as [Hall _]; [|by apply Forall_map].
  apply Forall_lookup. intros k r Hk.
  assert (Hin : k ∈ sorted_point_indices (map Len (orig_points s))).
  { unfold sorted_point_indices. rewrite stable_sort_perm.
    apply elem_of_seq. apply lookup_lt_Some in Hk. rewrite length_map. lia. }
  destruct (Hall k Hin) as (r' & Hk' & Hr'). congruence.
Qed.

Lemma normals_leave_no_infinity_witness :
  length [S754_finite false 4654441612768875 (-49);
          S754_finite false 4677655929409652 (-49)] = length (points plane_scan)
  /\ Forall (fun r => neb r infinity = true)
            [S754_finite false 4654441612768875 (-49);
             S754_finite false 4677655929409652 (-49)].
Proof.
  apply (normals_leave_no_infinity Len_model Normalize3_model asin_any normal_up
           search_all one zero ANGLE [plane_scan]
           [[S754_finite false 4654441612768875 (-49);
             S754_finite false 4677655929409652 (-49)]] 0%nat plane_scan).
  - vm_compute. reflexivity.
  - reflexivity.
  - reflexivity.
  - reflexivity.
  - constructor; [vm_compute; reflexivity|].
    constructor; [vm_compute; reflexivity|]. constructor.
Defined.

(** ** Where the walker goes *)

(** The coordinates of the voxels that the loop delivers, axis by axis:
    [Ix], [Iy], [Iz] are kept by the axis variables from one iteration to
    the next, and [Cx], [Cy], [Cz] hold for the coordinates delivered. *)
Section WalkerCoordinates.

Context {D : Type}.
Variable visit : voxel -> D -> bool * D.
Variables ax ay az : axis.
Variables Ix Iy Iz : axis_state -> Prop.
Variables Cx Cy Cz : Z -> Prop.

Hypothesis Hx : forall minVal s, Ix s ->
  (forall g, graced ax (fst (advance minVal ax s)) (snd (advance minVal ax s)) = Some g
             -> Cx g)
  /\ (over_budget ax (fst (advance minVal ax s)) (snd (advance minVal ax s)) = false
      -> Ix (fst (advance minVal ax s)) /\ Cx (cur (fst (advance minVal ax s)))).
Hypothesis Hy : forall minVal s, Iy s ->
  (forall g, graced ay (fst (advance minVal ay s)) (snd (advance minVal ay s)) = Some g
             -> Cy g)
  /\ (over_budget ay (fst (advance minVal ay s)) (snd (advance minVal ay s)) = false
      -> Iy (fst (advance minVal ay s)) /\ Cy (cur (fst (advance minVal ay s)))).
Hypothesis Hz : forall minVal s, Iz s ->
  (forall g, graced az (fst (advance minVal az s)) (snd (advance minVal az s)) = Some g
             -> Cz g)
  /\ (over_budget az (fst (advance minVal az s)) (snd (advance minVal az s)) = false
      -> Iz (fst (advance minVal az s)) /\ Cz (cur (fst (advance minVal az s)))).

Lemma loop_iteration_coords (sx sy sz : axis_state)
    (log : list (voxel * bool)) (data : D) :
  Ix sx -> Iy sy -> Iz sz ->
  exists l,
    fst (snd (loop_iteration (traced visit) ax ay az sx sy sz (log, data))) = log ++ l
    /\ Forall (fun e => Cx (x (fst e)) /\ Cy (y (fst e)) /\ Cz (z (fst e))) l
    /\ forall sx' sy' sz',
         fst (loop_iteration (traced visit) ax ay az sx sy sz (log, data))
         = Some (sx', sy', sz') ->
         Ix sx' /\ Iy sy' /\ Iz sz'.
Proof.
  intros HIx HIy HIz. unfold loop_iteration.
  set (minVal := min (min (tMax sx) (tMax sy)) (tMax sz)).
  destruct (Hx minVal sx HIx) as [Gx Bx].
  destruct (Hy minVal sy HIy) as [Gy By].
  destruct (Hz minVal sz HIz) as [Gz Bz].
  destruct (advance minVal ax sx) as [sx1 stx].
  destruct (advance minVal ay sy) as [sy1 sty].
  destruct (advance minVal az sz) as [sz1 stz].
  cbn [fst snd] in Gx, Bx, Gy, By, Gz, Bz. unfold traced.
  repeat case_match; simplify_eq/=;
    repeat match goal with
    | H : negb ?b = _ |- _ => destruct b; simpl in H; try discriminate
    end;
    first
      [ exists []; rewrite app_nil_r; split; [reflexivity|]
      | eexists [_]; split; [reflexivity|]
      | eexists [_; _]; split; [by rewrite <- app_assoc|] ];
    (split;
     [ repeat constructor; simpl; eauto; naive_solver
     | intros ? ? ?; try discriminate; intros [= <- <- <-]; naive_solver ]).
Qed.

Lemma walk_loop_coords (fuel : nat) (sx sy sz : axis_state)
    (log : list (voxel * bool)) (data : D) :
  Ix sx -> Iy sy -> Iz sz ->
  exists l,
    fst (snd (walk_loop (traced visit) fuel ax ay az sx sy sz (log, data))) = log ++ l
    /\ Forall (fun e => Cx (x (fst e)) /\ Cy (y (fst e)) /\ Cz (z (fst e))) l.
Proof.
  revert sx sy sz log data.
  induction fuel as [|fuel IH]; intros sx sy sz log data HIx HIy HIz; cbn [walk_loop].
  - exists []. rewrite app_nil_r. split; [done | constructor].
  - destruct (loop_iteration_coords sx sy sz log data HIx HIy HIz)
      as (l1 & Hlog & Hl1 & Hnext).
    destruct (loop_iteration (traced visit) ax ay az sx sy sz (log, data))
      as [[[[sx' sy'] sz']|] [log' data']]; simpl in Hlog, Hnext; subst log'.
    + destruct (Hnext _ _ _ eq_refl) as (Jx & Jy & Jz).
      destruct (IH sx' sy' sz' (log ++ l1) data' Jx Jy Jz) as (l2 & Hl2 & HF2).
      exists (l1 ++ l2). rewrite Hl2, app_assoc. split; [done|].
      by apply Forall_app.
    + by exists l1.
Qed.

End WalkerCoordinates.

(** ** Integers as doubles *)

Lemma pos_even_half (M : positive) (X : Z) :
  Zpos M = 2 * X -> exists M1, M = xO M1 /\ Zpos M1 = X.
Proof. destruct M as [M1|M1|]; intros H; try lia. exists M1. split; [done | lia]. Qed.

(** Shifting out bits that are all zero leaves nothing to round. *)
Lemma iter_shr_1_exact (n : positive) (M q : positive) :
  Zpos M = Zpos q * 2 ^ Zpos n ->
  SpecFloat.iter_pos shr_1 n (Build_shr_record (Zpos M) false false)
  = Build_shr_record (Zpos q) false false.
Proof.
  revert M q. induction n as [n IH|n IH|]; intros M q HM; cbn [SpecFloat.iter_pos].
  - assert (HP : 0 < 2 ^ Zpos n) by (apply Z.pow_pos_nonneg; lia).
    assert (Hpow : 2 ^ Zpos n~1 = 2 * (2 ^ Zpos n * 2 ^ Zpos n)).
    { rewrite (Pos2Z.inj_xI n).
      replace (2 * Zpos n + 1) with (1 + (Zpos n + Zpos n)) by lia.
      rewrite (Z.pow_add_r 2 1) by lia. rewrite (Z.pow_add_r 2 (Zpos n)) by lia. lia. }
    rewrite Hpow in HM.
    destruct (pos_even_half M (Zpos q * (2 ^ Zpos n * 2 ^ Zpos n)) ltac:(lia))
      as (M1 & -> & HM1).
    cbn [shr_1 orb].
    assert (HQ : 0 < Zpos q * 2 ^ Zpos n) by lia.
    rewrite (IH M1 (Z.to_pos (Zpos q * 2 ^ Zpos n))) by (rewrite Z2Pos.id by lia; lia).
    apply IH. rewrite Z2Pos.id by lia. done.
  - assert (HP : 0 < 2 ^ Zpos n) by (apply Z.pow_pos_nonneg; lia).
    assert (Hpow : 2 ^ Zpos n~0 = 2 ^ Zpos n * 2 ^ Zpos n).
    { rewrite (Pos2Z.inj_xO n).
      replace (2 * Zpos n) with (Zpos n + Zpos n) by lia.
      rewrite (Z.pow_add_r 2 (Zpos n)) by lia. lia. }
    rewrite Hpow in HM.
    assert (HQ : 0 < Zpos q * 2 ^ Zpos n) by lia.
    rewrite (IH M (Z.to_pos (Zpos q * 2 ^ Zpos n))) by (rewrite Z2Pos.id by lia; lia).
    apply IH. rewrite Z2Pos.id by lia. done.
  - destruct (pos_even_half M (Zpos q) ltac:(simpl in HM; lia)) as (M1 & -> & HM1).
    cbn [shr_1 orb]. by injection HM1 as ->.
Qed.

Lemma digits2_pos_mul_pow (m q : positive) (k : Z) :
  0 <= k -> Zpos m = Zpos q * 2 ^ k ->
  Zpos (digits2_pos m) = Zpos (digits2_pos q) + k.
Proof.
  intros Hk Hm. apply digits2_pos_unique. rewrite Hm.
  pose proof (digits2_pos_bounds q) as [Blo Bhi].
  replace (Zpos (digits2_pos q) + k - 1) with ((Zpos (digits2_pos q) - 1) + k) by lia.
  rewrite !Z.pow_add_r by lia.
  assert (0 < 2 ^ k) by (apply Z.pow_pos_nonneg; lia).
  split; nia.
Qed.

(** Rounding a value that is a significand [q] at the exponent [F] that
    its magnitude asks for answers just that: from a lower exponent ... *)
Lemma binary_round_down (sx : bool) (m q : positive) (e F : Z) :
  F = fexp prec emax (Zpos (digits2_pos m) + e) -> e < F -> F <= 971 ->
  Zpos m = Zpos q * 2 ^ (F - e) ->
  binary_round prec emax sx m e = S754_finite sx q F.
Proof.
  intros HF He Hmax Hm. unfold binary_round. rewrite <- HF.
  unfold shl_align. destruct (F - e) as [|n|n] eqn:Hn; try lia.
  unfold binary_round_aux, shr_fexp. cbn [Zdigits2]. rewrite <- HF, Hn.
  cbn [shr shr_record_of_loc]. rewrite (iter_shr_1_exact n m q Hm).
  cbn [shr_m loc_of_shr_record round_nearest_even Zdigits2].
  pose proof (digits2_pos_mul_pow m q (Zpos n) ltac:(lia) Hm) as Hd.
  replace (Zpos (digits2_pos q) + (e + Zpos n))
    with (Zpos (digits2_pos m) + e) by lia.
  rewrite <- HF. replace (F - (e + Zpos n)) with 0 by lia. cbn [shr shr_m].
  destruct (Z.leb_spec (e + Zpos n) (emax - prec)) as [_|Hbad];
    [|unfold emax, prec in Hbad; lia].
  f_equal. lia.
Qed.

(** ... and from an exponent that is not lower. *)
Lemma binary_round_up (sx : bool) (m : positive) (e F : Z) :
  F = fexp prec emax (Zpos (digits2_pos m) + e) -> F <= e -> F <= 971 ->
  exists q, binary_round prec emax sx m e = S754_finite sx q F
            /\ Zpos q = Zpos m * 2 ^ (e - F).
Proof.
  intros HF He Hmax. unfold binary_round. rewrite <- HF.
  pose proof (shl_align_value m e F He) as Hval.
  pose proof (shl_align_exp m e F He) as Hexp.
  pose proof (digits2_pos_shl m e F He) as Hdig.
  destruct (shl_align m e F) as [mz ez]. simpl in Hval, Hexp, Hdig. subst ez.
  unfold binary_round_aux, shr_fexp. cbn [Zdigits2].
  rewrite Hdig. replace (Zpos (digits2_pos m) + (e - F) + F)
    with (Zpos (digits2_pos m) + e) by lia.
  rewrite <- HF, Z.sub_diag.
  cbn [shr shr_record_of_loc shr_m loc_of_shr_record round_nearest_even Zdigits2].
  rewrite Hdig. replace (Zpos (digits2_pos m) + (e - F) + F)
    with (Zpos (digits2_pos m) + e) by lia.
  rewrite <- HF, Z.sub_diag. cbn [shr shr_m].
  destruct (Z.leb_spec F (emax - prec)) as [_|Hbad]; [|unfold emax, prec in Hbad; lia].
  by exists mz.
Qed.

Lemma fexp_small (d : Z) : 1 <= d -> fexp prec emax d = Z.max (d - 53) (-1074).
Proof. reflexivity. Qed.

(** The double of a whole number below [2^53], scaled by a power of two or
    not, is the same canonical double. *)
Lemma binary_round_int (sx : bool) (p M : positive) (k : Z) :
  Zpos p < 2 ^ 53 -> 0 <= k <= 52 -> Zpos M = Zpos p * 2 ^ k ->
  exists q,
    binary_round prec emax sx M (- k)
    = S754_finite sx q (Zpos (digits2_pos p) - 53)
    /\ Zpos q = Zpos p * 2 ^ (53 - Zpos (digits2_pos p)).
Proof.
  intros Hp Hk HM.
  pose proof (digits2_pos_le p 53 ltac:(lia) Hp) as Hd.
  pose proof (digits2_pos_mul_pow M p k ltac:(lia) HM) as HdM.
  set (d := Zpos (digits2_pos p)) in *.
  assert (Hd1 : 1 <= d) by (unfold d; lia).
  assert (HF : d - 53 = fexp prec emax (Zpos (digits2_pos M) + - k)).
  { rewrite HdM. replace (d + k + - k) with d by lia. rewrite fexp_small by done. lia. }
  destruct (Z_le_gt_dec (d - 53) (- k)) as [Hle|Hgt].
  - destruct (binary_round_up sx M (- k) (d - 53) HF Hle ltac:(lia)) as (q & Hr & Hq).
    exists q. split; [done|]. rewrite Hq, HM.
    rewrite <- Z.mul_assoc, <- Z.pow_add_r by lia. f_equal. f_equal. lia.
  - assert (Hq : 0 < Zpos p * 2 ^ (53 - d))
      by (apply Z.mul_pos_pos; [lia | apply Z.pow_pos_nonneg; lia]).
    exists (Z.to_pos (Zpos p * 2 ^ (53 - d))). rewrite Z2Pos.id by done.
    split; [|done].
    apply binary_round_down; [done|lia|lia|].
    rewrite Z2Pos.id by done. rewrite HM.
    rewrite <- Z.mul_assoc, <- Z.pow_add_r by lia. f_equal. f_equal. lia.
Qed.

(** The double of a whole number [n] with [0 < |n| < 2^53]. *)
Lemma of_Z_nonzero (n : Z) :
  n <> 0 -> Z.abs n < 2 ^ 53 ->
  exists q,
    of_Z n = S754_finite (n <? 0) q (Zpos (digits2_pos (Z.to_pos (Z.abs n))) - 53)
    /\ Zpos q = Z.abs n * 2 ^ (53 - Zpos (digits2_pos (Z.to_pos (Z.abs n)))).
Proof.
  intros Hn Hb. unfold of_Z, dyadic, binary_normalize.
  destruct n as [|p|p]; [done|..]; simpl Z.abs in *; simpl Z.to_pos.
  - destruct (binary_round_int false p p 0 Hb ltac:(lia) ltac:(lia)) as (q & Hr & Hq).
    by exists q.
  - destruct (binary_round_int true p p 0 Hb ltac:(lia) ltac:(lia)) as (q & Hr & Hq).
    by exists q.
Qed.

Lemma normalize_int (n k : Z) :
  Z.abs n < 2 ^ 53 -> 0 <= k <= 52 ->
  binary_normalize prec emax (n * 2 ^ k) (- k) false = of_Z n.
Proof.
  intros Hb Hk.
  assert (HP : 0 < 2 ^ k) by (apply Z.pow_pos_nonneg; lia).
  unfold of_Z, dyadic, binary_normalize.
  destruct n as [|p|p]; [done|..]; simpl Z.abs in *.
  - destruct (Zpos p * 2 ^ k) as [|M|M] eqn:HM; try lia.
    destruct (binary_round_int false p M k Hb Hk ltac:(lia)) as (q & -> & Hq).
    destruct (binary_round_int false p p 0 Hb ltac:(lia) ltac:(lia)) as (q' & Hr' & Hq').
    change (- 0) with 0 in Hr'. rewrite Hr'. f_equal. lia.
  - destruct (Zneg p * 2 ^ k) as [|M|M] eqn:HM; try lia.
    destruct (binary_round_int true p M k Hb Hk ltac:(lia)) as (q & -> & Hq).
    destruct (binary_round_int true p p 0 Hb ltac:(lia) ltac:(lia)) as (q' & Hr' & Hq').
    change (- 0) with 0 in Hr'. rewrite Hr'. f_equal. lia.
Qed.

Lemma of_Z_aligned (n : Z) (s : bool) (q : positive) (e ez : Z) :
  n <> 0 -> Z.abs n < 2 ^ 53 -> of_Z n = S754_finite s q e ->
  ez <= e ->
  -52 <= e <= 0
  /\ cond_Zopp s (Zpos (fst (shl_align q e ez))) = n * 2 ^ (- ez).
Proof.
  intros Hn Hb Hof Hez.
  destruct (of_Z_nonzero n Hn Hb) as (q' & Hof' & Hq').
  rewrite Hof in Hof'. injection Hof' as -> -> ->.
  set (d := Zpos (digits2_pos (Z.to_pos (Z.abs n)))) in *.
  assert (Hd : 1 <= d <= 53).
  { unfold d. split; [lia|]. apply digits2_pos_le; [lia|]. rewrite Z2Pos.id by lia. done. }
  split; [lia|].
  rewrite shl_align_value by done. rewrite Hq'.
  rewrite <- Z.mul_assoc, <- Z.pow_add_r by lia.
  replace (53 - d + (d - 53 - ez)) with (- ez) by lia.
  destruct (Z.ltb_spec n 0); simpl; lia.
Qed.

Lemma of_Z_add (a b : Z) :
  Z.abs a < 2 ^ 53 -> Z.abs b < 2 ^ 53 -> Z.abs (a + b) < 2 ^ 53 ->
  add (of_Z a) (of_Z b) = of_Z (a + b).
Proof.
  intros Ha Hb Hab.
  destruct (decide (a = 0)) as [->|Ha0].
  { rewrite Z.add_0_l. change (of_Z 0) with (S754_zero false). unfold add, SFadd.
    destruct (decide (b = 0)) as [->|Hb0]; [done|].
    by destruct (of_Z_nonzero b Hb0 Hb) as (q & -> & _). }
  destruct (decide (b = 0)) as [->|Hb0].
  { rewrite Z.add_0_r. change (of_Z 0) with (S754_zero false). unfold add, SFadd.
    destruct (of_Z_nonzero a Ha0 Ha) as (q & -> & _). done. }
  destruct (of_Z_nonzero a Ha0 Ha) as (qa & Hofa & _).
  destruct (of_Z_nonzero b Hb0 Hb) as (qb & Hofb & _).
  set (ea := Zpos (digits2_pos (Z.to_pos (Z.abs a))) - 53) in *.
  set (eb := Zpos (digits2_pos (Z.to_pos (Z.abs b))) - 53) in *.
  destruct (of_Z_aligned a _ qa ea (Z.min ea eb) Ha0 Ha Hofa ltac:(lia)) as [Rea Va].
  destruct (of_Z_aligned b _ qb eb (Z.min ea eb) Hb0 Hb Hofb ltac:(lia)) as [Reb Vb].
  rewrite Hofa, Hofb. unfold add, SFadd. cbv zeta. rewrite Va, Vb.
  rewrite <- Z.mul_add_distr_r.
  replace (Z.min ea eb) with (- (- Z.min ea eb)) at 2 by lia.
  apply normalize_int; lia.
Qed.

Lemma of_Z_sub (a b : Z) :
  Z.abs a < 2 ^ 53 -> Z.abs b < 2 ^ 53 -> Z.abs (a - b) < 2 ^ 53 -> b <> 0 ->
  sub (of_Z a) (of_Z b) = of_Z (a - b).
Proof.
  intros Ha Hb Hab Hb0.
  destruct (of_Z_nonzero b Hb0 Hb) as (qb & Hofb & _).
  destruct (decide (a = 0)) as [->|Ha0].
  { change (of_Z 0) with (S754_zero false). rewrite Hofb. unfold sub, SFsub.
    destruct (of_Z_nonzero (0 - b) ltac:(lia) ltac:(lia)) as (q' & -> & Hq').
    destruct (of_Z_nonzero b Hb0 Hb) as (q2 & Hofb2 & Hq2).
    rewrite Hofb in Hofb2. injection Hofb2 as <-.
    replace (Z.abs (0 - b)) with (Z.abs b) in * by lia.
    f_equal; [|lia].
    destruct (Z.ltb_spec b 0), (Z.ltb_spec (0 - b) 0); simpl; try done; lia. }
  destruct (of_Z_nonzero a Ha0 Ha) as (qa & Hofa & _).
  set (ea := Zpos (digits2_pos (Z.to_pos (Z.abs a))) - 53) in *.
  set (eb := Zpos (digits2_pos (Z.to_pos (Z.abs b))) - 53) in *.
  destruct (of_Z_aligned a _ qa ea (Z.min ea eb) Ha0 Ha Hofa ltac:(lia)) as [Rea Va].
  destruct (of_Z_aligned b _ qb eb (Z.min ea eb) Hb0 Hb Hofb ltac:(lia)) as [Reb Vb].
  rewrite Hofa, Hofb. unfold sub, SFsub. cbv zeta. rewrite Va, Vb.
  rewrite <- Z.mul_sub_distr_r.
  replace (Z.min ea eb) with (- (- Z.min ea eb)) at 2 by lia.
  apply normalize_int; lia.
Qed.

(** The order of two positive whole numbers below [2^53] is the order of
    their doubles. *)
Lemma compare_canonical (p q mp mq : positive) :
  Zpos p < 2 ^ 53 -> Zpos q < 2 ^ 53 ->
  Zpos mp = Zpos p * 2 ^ (53 - Zpos (digits2_pos p)) ->
  Zpos mq = Zpos q * 2 ^ (53 - Zpos (digits2_pos q)) ->
  match Zpos (digits2_pos p) - 53 ?= Zpos (digits2_pos q) - 53 with
  | Lt => Lt
  | Gt => Gt
  | Eq => Pos.compare_cont Eq mp mq
  end = (Zpos p ?= Zpos q).
Proof.
  intros Hp Hq Hmp Hmq.
  pose proof (digits2_pos_bounds p) as [Plo Phi].
  pose proof (digits2_pos_bounds q) as [Qlo Qhi].
  pose proof (digits2_pos_le p 53 ltac:(lia) Hp) as Hdp.
  pose proof (digits2_pos_le q 53 ltac:(lia) Hq) as Hdq.
  set (dp := Zpos (digits2_pos p)) in *. set (dq := Zpos (digits2_pos q)) in *.
  destruct (Z.compare_spec (dp - 53) (dq - 53)) as [He|He|He].
  - assert (Hd : dp = dq) by lia. rewrite Hd in Hmp.
    assert (HP : 0 < 2 ^ (53 - dq)) by (apply Z.pow_pos_nonneg; lia).
    change (Pos.compare_cont Eq mp mq) with (Zpos mp ?= Zpos mq).
    rewrite Hmp, Hmq.
    destruct (Z.compare_spec (Zpos p) (Zpos q)) as [Hc|Hc|Hc].
    + rewrite Hc. apply Z.compare_refl.
    + apply Z.compare_lt_iff. nia.
    + apply Z.compare_gt_iff. nia.
  - symmetry. apply Z.compare_lt_iff.
    assert (2 ^ dp <= 2 ^ (dq - 1)) by (apply Z.pow_le_mono_r; lia). lia.
  - symmetry. apply Z.compare_gt_iff.
    assert (2 ^ dq <= 2 ^ (dp - 1)) by (apply Z.pow_le_mono_r; lia). lia.
Qed.

Lemma of_Z_compare (a b : Z) :
  Z.abs a < 2 ^ 53 -> Z.abs b < 2 ^ 53 ->
  SFcompare (of_Z a) (of_Z b) = Some (a ?= b).
Proof.
  intros Ha Hb.
  destruct (decide (a = 0)) as [->|Ha0], (decide (b = 0)) as [->|Hb0].
  - reflexivity.
  - destruct (of_Z_nonzero b Hb0 Hb) as (qb & -> & _).
    change (of_Z 0) with (S754_zero false). cbn [SFcompare].
    destruct (Z.ltb_spec b 0); f_equal; symmetry;
      [apply Z.compare_gt_iff | apply Z.compare_lt_iff]; lia.
  - destruct (of_Z_nonzero a Ha0 Ha) as (qa & -> & _).
    change (of_Z 0) with (S754_zero false). cbn [SFcompare].
    destruct (Z.ltb_spec a 0); f_equal; symmetry;
      [apply Z.compare_lt_iff | apply Z.compare_gt_iff]; lia.
  - destruct (of_Z_nonzero a Ha0 Ha) as (qa & -> & Hqa).
    destruct (of_Z_nonzero b Hb0 Hb) as (qb & -> & Hqb).
    cbn [SFcompare]. f_equal.
    destruct a as [|pa|pa], b as [|pb|pb]; try done; simpl Z.abs in *;
      simpl Z.to_pos in *; cbn [Z.ltb Z.compare].
    + by apply compare_canonical.
    + pose proof (compare_canonical pa pb qa qb Ha Hb Hqa Hqb) as Hc.
      change (Zpos pa ?= Zpos pb) with (Pos.compare pa pb) in Hc.
      rewrite <- Hc.
      by destruct (Zpos (digits2_pos pa) - 53 ?= Zpos (digits2_pos pb) - 53).
Qed.

Lemma gtb_of_Z (a b : Z) :
  Z.abs a < 2 ^ 53 -> Z.abs b < 2 ^ 53 -> gtb (of_Z a) (of_Z b) = (b <? a).
Proof.
  intros Ha Hb. unfold gtb, SFltb. rewrite of_Z_compare by done.
  unfold Z.ltb. by destruct (b ?= a).
Qed.

(** ** The walker and its box *)

Lemma swrap_small (n : Z) : - 2 ^ 63 <= n < 2 ^ 63 -> swrap n = n.
Proof. intros H. unfold swrap. rewrite Z.mod_small; lia. Qed.

Lemma swrap_range (n : Z) : - 2 ^ 63 <= swrap n < 2 ^ 63.
Proof.
  unfold swrap. pose proof (Z.mod_pos_bound (n + 2 ^ 63) (2 ^ 64) ltac:(lia)). lia.
Qed.

Lemma uwrap_small (n : Z) : 0 <= n < 2 ^ 64 -> uwrap n = n.
Proof. intros H. unfold uwrap. by rewrite Z.mod_small. Qed.

Lemma py_div_range (a b : double) (q : Z) :
  py_div a b = Some q -> - 2 ^ 63 <= q < 2 ^ 63.
Proof.
  unfold py_div, to_ssize_t.
  destruct (trunc (div a b)) as [n|]; [|discriminate].
  destruct (in_ssize_t n) eqn:Hn; [|discriminate].
  destruct (_ && _); intros [= <-]; [apply swrap_range|].
  unfold in_ssize_t in Hn. apply andb_true_iff in Hn as [H1 H2].
  apply Z.leb_le in H1. apply Z.ltb_lt in H2. lia.
Qed.

(** An axis that the ray does not move on. *)
Lemma axis_still (a : axis) (c : Z) :
  step a = 0 -> start_c a = c -> - 2 ^ 63 <= c < 2 ^ 63 ->
  forall minVal s, cur s = c ->
    (forall g, graced a (fst (advance minVal a s)) (snd (advance minVal a s)) = Some g
               -> g = c)
    /\ (over_budget a (fst (advance minVal a s)) (snd (advance minVal a s)) = false
        -> cur (fst (advance minVal a s)) = c
           /\ cur (fst (advance minVal a s)) = c).
Proof.
  intros Hstep <- Hr minVal s Hs. unfold advance.
  destruct (eqb minVal (tMax s)); cbn [fst snd]; unfold graced; cbn [cur mult].
  - rewrite Hstep, Z.mul_0_r, Z.add_0_r. change (0 <? 0) with false. cbv iota.
    rewrite swrap_small by done.
    split; [|done]. intros g. destruct (gtb _ _); [discriminate|]. by intros [= <-].
  - split; [|done]. intros g [= <-]. done.
Qed.

Lemma setup_axis_still (direction start_pos voxel_size : double) (sv ev : Z) :
  eqb direction zero = true ->
  step (setup_axis direction start_pos voxel_size sv ev) = 0
  /\ start_c (setup_axis direction start_pos voxel_size sv ev) = sv.
Proof. intros H. unfold setup_axis. by rewrite H. Qed.

(** What the deliveries of a walk are made of. *)
Lemma deliveries_Forall {D : Type} (visit : voxel -> D -> bool * D) (P : voxel -> Prop)
    (fuel : nat) (start_pos end_pos : point) (voxel_size : double) (data : D)
    (we : walk_end) (l : list (voxel * bool)) (cs ce : voxel) :
  deliveries visit fuel start_pos end_pos voxel_size data = Ret (we, l) ->
  voxel_of_point start_pos voxel_size = Some cs ->
  voxel_of_point end_pos voxel_size = Some ce ->
  P cs -> P (corrected_start start_pos end_pos voxel_size cs ce) ->
  (forall log d,
     exists l',
       fst (snd (walk_loop (traced visit) fuel
                   (setup_x start_pos end_pos voxel_size cs ce)
                   (setup_y start_pos end_pos voxel_size cs ce)
                   (setup_z start_pos end_pos voxel_size cs ce)
                   (enter_loop (setup_x start_pos end_pos voxel_size cs ce))
                   (enter_loop (setup_y start_pos end_pos voxel_size cs ce))
                   (enter_loop (setup_z start_pos end_pos voxel_size cs ce))
                   (log, d))) = log ++ l'
       /\ Forall (fun e => P (fst e)) l') ->
  Forall (fun e => P (fst e)) l.
Proof.
  intros Hdel Hs He Pcs Pcur Hloop. revert Hdel. unfold deliveries.
  destruct (degenerate start_pos end_pos) eqn:Hd.
  { unfold walk_voxels. rewrite Hd. intros [= <- <-]. constructor. }
  rewrite (walk_voxels_eq _ _ _ _ _ _ cs ce Hd Hs He). cbv zeta.
  repeat (rewrite traced_eq; simpl snd; simpl app).
  case_bool_decide.
  { rewrite bind_Ret. intros [= <- <-]. by repeat constructor. }
  case_bool_decide.
  { rewrite bind_Ret. intros [= <- <-]. by repeat constructor. }
  rewrite bind_Ret.
  match goal with
  | |- context [walk_loop (traced visit) fuel ?ax ?ay ?az ?sx ?sy ?sz (?lg, ?d)] =>
      destruct (Hloop lg d) as (l' & Hl' & HF);
      destruct (walk_loop (traced visit) fuel ax ay az sx sy sz (lg, d)) as [we' [lg' d']]
  end.
  simpl in Hl'. subst lg'. intros [= <- <-].
  constructor; [done|]. by constructor.
Qed.

(** X19. A ray that does not move along an axis (its two ends have the same
    coordinate there) is walked within one layer of voxels: every voxel
    delivered has, on that axis, the coordinate of the voxel of the
    start. *)
Theorem walk_keeps_layer {D : Type} (visit : voxel -> D -> bool * D) (fuel : nat)
    (start_pos end_pos : point) (voxel_size : double) (data : D)
    (we : walk_end) (l : list (voxel * bool)) (cs : voxel) :
  deliveries visit fuel start_pos end_pos voxel_size data = Ret (we, l) ->
  voxel_of_point start_pos voxel_size = Some cs ->
  (eqb (sub (p0 end_pos) (p0 start_pos)) zero = true ->
   Forall (fun e => x (fst e) = x cs) l)
  /\ (eqb (sub (p1 end_pos) (p1 start_pos)) zero = true ->
      Forall (fun e => y (fst e) = y cs) l)
  /\ (eqb (sub (p2 end_pos) (p2 start_pos)) zero = true ->
      Forall (fun e => z (fst e) = z cs) l).
Proof.
  intros Hdel Hs.
  destruct (voxel_of_point end_pos voxel_size) as [ce|] eqn:He.
  2:{ revert Hdel. unfold deliveries, walk_voxels.
      destruct (degenerate start_pos end_pos).
      - intros [= <- <-]. by repeat split; intros _; constructor.
      - rewrite Hs, He. discriminate. }
  assert (Hrange : (- 2 ^ 63 <= x cs < 2 ^ 63) /\ (- 2 ^ 63 <= y cs < 2 ^ 63)
                   /\ (- 2 ^ 63 <= z cs < 2 ^ 63)).
  { revert Hs. unfold voxel_of_point.
    destruct (py_div (p0 start_pos) voxel_size) as [qx|] eqn:Hx; [|discriminate].
    destruct (py_div (p1 start_pos) voxel_size) as [qy|] eqn:Hy; [|discriminate].
    destruct (py_div (p2 start_pos) voxel_size) as [qz|] eqn:Hz; [|discriminate].
    intros [= <-]. simpl.
    split; [by eapply py_div_range|split; by eapply py_div_range]. }
  destruct Hrange as (Rx & Ry & Rz).
  split; [|split]; intros Hdir.
  - destruct (setup_axis_still _ (p0 start_pos) voxel_size (x cs) (x ce) Hdir)
      as [Hstep Hc].
    apply (deliveries_Forall visit (fun v => x v = x cs) _ _ _ _ _ _ _ cs ce Hdel Hs He);
      [done|exact Hc|].
    intros log d.
    destruct (walk_loop_coords visit
                (setup_x start_pos end_pos voxel_size cs ce)
                (setup_y start_pos end_pos voxel_size cs ce)
                (setup_z start_pos end_pos voxel_size cs ce)
                (fun s => cur s = x cs) (fun _ => True) (fun _ => True)
                (fun c => c = x cs) (fun _ => True) (fun _ => True))
      with (fuel := fuel) (log := log) (data := d)
           (sx := enter_loop (setup_x start_pos end_pos voxel_size cs ce))
           (sy := enter_loop (setup_y start_pos end_pos voxel_size cs ce))
           (sz := enter_loop (setup_z start_pos end_pos voxel_size cs ce))
      as (l' & Hl' & HF); try done.
    + by apply axis_still.
    + exists l'. split; [done|]. eapply Forall_impl; [exact HF|]. by intros e (? & _).
  - destruct (setup_axis_still _ (p1 start_pos) voxel_size (y cs) (y ce) Hdir)
      as [Hstep Hc].
    apply (deliveries_Forall visit (fun v => y v = y cs) _ _ _ _ _ _ _ cs ce Hdel Hs He);
      [done|exact Hc|].
    intros log d.
    destruct (walk_loop_coords visit
                (setup_x start_pos end_pos voxel_size cs ce)
                (setup_y start_pos end_pos voxel_size cs ce)
                (setup_z start_pos end_pos voxel_size cs ce)
                (fun _ => True) (fun s => cur s = y cs) (fun _ => True)
                (fun _ => True) (fun c => c = y cs) (fun _ => True))
      with (fuel := fuel) (log := log) (data := d)
           (sx := enter_loop (setup_x start_pos end_pos voxel_size cs ce))
           (sy := enter_loop (setup_y start_pos end_pos voxel_size cs ce))
           (sz := enter_loop (setup_z start_pos end_pos voxel_size cs ce))
      as (l' & Hl' & HF); try done.
    + by apply axis_still.
    + exists l'. split; [done|]. eapply Forall_impl; [exact HF|]. by intros e (_ & ? & _).
  - destruct (setup_axis_still _ (p2 start_pos) voxel_size (z cs) (z ce) Hdir)
      as [Hstep Hc].
    apply (deliveries_Forall visit (fun v => z v = z cs) _ _ _ _ _ _ _ cs ce Hdel Hs He);
      [done|exact Hc|].
    intros log d.
    destruct (walk_loop_coords visit
                (setup_x start_pos end_pos voxel_size cs ce)
                (setup_y start_pos end_pos voxel_size cs ce)
                (setup_z start_pos end_pos voxel_size cs ce)
                (fun _ => True) (fun _ => True) (fun s => cur s = z cs)
                (fun _ => True) (fun _ => True) (fun c => c = z cs))
      with (fuel := fuel) (log := log) (data := d)
           (sx := enter_loop (setup_x start_pos end_pos voxel_size cs ce))
           (sy := enter_loop (setup_y start_pos end_pos voxel_size cs ce))
           (sz := enter_loop (setup_z start_pos end_pos voxel_size cs ce))
      as (l' & Hl' & HF); try done.
    + by apply axis_still.
    + exists l'. split; [done|]. eapply Forall_impl; [exact HF|]. by intros e (_ & _ & ?).
Qed.

Lemma walk_keeps_layer_witness :
  (eqb (sub (p0 ray_x_end) (p0 ray_x_start)) zero = true ->
   Forall (fun e => x (fst e) = x voxel0)
          [(voxel0, false); (voxel0, false); (Voxel 1 0 0, true); (Voxel 2 0 0, true)])
  /\ (eqb (sub (p1 ray_x_end) (p1 ray_x_start)) zero = true ->
      Forall (fun e => y (fst e) = y voxel0)
             [(voxel0, false); (voxel0, false); (Voxel 1 0 0, true); (Voxel 2 0 0, true)])
  /\ (eqb (sub (p2 ray_x_end) (p2 ray_x_start)) zero = true ->
      Forall (fun e => z (fst e) = z voxel0)
             [(voxel0, false); (voxel0, false); (Voxel 1 0 0, true); (Voxel 2 0 0, true)]).
Proof.
  apply (walk_keeps_layer visitor 8 ray_x_start ray_x_end one args_neighbour Returned).
  - vm_compute. reflexivity.
  - vm_compute. reflexivity.
Defined.

(** An axis of a walk between two voxels of moderate coordinates: [K] is
    the number of steps that the axis may take, and after [m] of them the
    walker is at [start_c a + m * step a]. *)
Lemma axis_walk (a : axis) (K : Z) :
  Z.abs (start_c a) <= 2 ^ 51 + 1 -> Z.abs K <= 2 ^ 52 + 1 ->
  (step a = 0 \/ ((step a = 1 \/ step a = -1) /\ maxMult a = of_Z K)) ->
  forall minVal s,
    (exists m, 0 <= m <= Z.max 0 K /\ cur s = start_c a + m * step a
               /\ (step a <> 0 -> mult s = m)) ->
    (forall g, graced a (fst (advance minVal a s)) (snd (advance minVal a s)) = Some g ->
               exists m, 0 <= m <= Z.max 0 K /\ g = start_c a + m * step a)
    /\ (over_budget a (fst (advance minVal a s)) (snd (advance minVal a s)) = false ->
        (exists m, 0 <= m <= Z.max 0 K
                   /\ cur (fst (advance minVal a s)) = start_c a + m * step a
                   /\ (step a <> 0 -> mult (fst (advance minVal a s)) = m))
        /\ exists m, 0 <= m <= Z.max 0 K
                     /\ cur (fst (advance minVal a s)) = start_c a + m * step a).
Proof.
  intros Hc HK Hcase minVal s (m & Hm & Hcur & Hmult). unfold advance.
  destruct (eqb minVal (tMax s)); cbn [fst snd].
  2:{ split.
      - intros g [= <-]. exists m. split; [lia|done].
      - intros _. split; exists m; repeat split; try lia; done. }
  destruct Hcase as [H0|[Hst Hmax]].
  - (* the axis does not move *)
    unfold graced, over_budget. cbn [cur mult]. rewrite H0, Z.mul_0_r, Z.add_0_r.
    change (0 <? 0) with false. cbv iota.
    rewrite swrap_small by lia. split.
    + intros g. destruct (gtb _ _); [discriminate|]. intros [= <-]. exists 0. lia.
    + intros _. split; exists 0; repeat split; lia.
  - (* the axis moves by one voxel per step *)
    assert (Hms : mult s = m) by (apply Hmult; lia).
    assert (Hm1 : uwrap (mult s + 1) = m + 1) by (rewrite Hms; apply uwrap_small; lia).
    unfold graced, over_budget. cbn [cur mult andb]. rewrite Hm1, Hmax.
    change one with (of_Z 1).
    rewrite (of_Z_add K 1) by lia. rewrite !gtb_of_Z by lia.
    destruct Hst as [H1|H1]; rewrite H1.
    + change (1 <? 0) with false. cbv iota.
      rewrite swrap_small by lia. split.
      * intros g. destruct (Z.ltb_spec K (m + 1)); [discriminate|].
        intros [= <-]. exists (m + 1). lia.
      * destruct (Z.ltb_spec K (m + 1)); [discriminate|]. intros _.
        split; exists (m + 1); repeat split; lia.
    + change (-1 <? 0) with true. cbv iota.
      rewrite (swrap_small (start_c a + (m + 1) * -1)) by lia. split.
      * intros g. destruct (Z.ltb_spec (K + 1) (m + 1)); [discriminate|].
        intros [= <-]. rewrite swrap_small by lia. exists m. lia.
      * destruct (Z.ltb_spec K (m + 1)); [discriminate|]. intros _.
        split; exists (m + 1); repeat split; lia.
Qed.

Lemma enter_loop_walk (a : axis) (K : Z) :
  exists m, 0 <= m <= Z.max 0 K /\ cur (enter_loop a) = start_c a + m * step a
            /\ (step a <> 0 -> mult (enter_loop a) = m).
Proof. exists 0. cbn [enter_loop cur mult]. repeat split; lia. Qed.

Lemma between_refl (a b : Z) : between a b a.
Proof. unfold between. lia. Qed.

Lemma setup_axis_walk (direction start_pos voxel_size : double) (sv ev : Z) :
  Z.abs sv <= 2 ^ 51 -> Z.abs ev <= 2 ^ 51 ->
  exists K,
    Z.abs (start_c (setup_axis direction start_pos voxel_size sv ev)) <= 2 ^ 51 + 1
    /\ Z.abs K <= 2 ^ 52 + 1
    /\ (step (setup_axis direction start_pos voxel_size sv ev) = 0
        \/ ((step (setup_axis direction start_pos voxel_size sv ev) = 1
             \/ step (setup_axis direction start_pos voxel_size sv ev) = -1)
            /\ maxMult (setup_axis direction start_pos voxel_size sv ev) = of_Z K))
    /\ forall m, 0 <= m <= Z.max 0 K ->
         between (start_c (setup_axis direction start_pos voxel_size sv ev)) ev
                 (start_c (setup_axis direction start_pos voxel_size sv ev)
                  + m * step (setup_axis direction start_pos voxel_size sv ev)).
Proof.
  intros Hsv Hev. unfold setup_axis.
  destruct (eqb direction zero).
  { exists 0. cbn [step start_c maxMult]. split; [lia|]. split; [lia|].
    split; [by left|]. intros m Hm. unfold between. lia. }
  destruct (gtb direction zero); cbv zeta.
  - change (1 =? -1) with false. cbn [andb]. cbv iota. cbn [step start_c maxMult].
    exists (ev - sv). split; [lia|]. split; [lia|]. split.
    + right. split; [by left|]. rewrite Z.mul_1_r, (swrap_small (ev - sv)) by lia.
      by rewrite swrap_small by lia.
    + intros m Hm. unfold between. lia.
  - change (-1 =? -1) with true. cbn [andb].
    match goal with |- context [if ?c then _ else _] => destruct c end;
      cbn [step start_c maxMult].
    + exists (sv - ev - 1). rewrite (swrap_small (sv - 1)) by lia.
      split; [lia|]. split; [lia|]. split.
      * right. split; [by right|].
        rewrite (swrap_small (ev - sv)) by lia.
        rewrite (swrap_small ((ev - sv) * -1)) by lia.
        change one with (of_Z 1). rewrite of_Z_sub by lia. f_equal. lia.
      * intros m Hm. unfold between. lia.
    + exists (sv - ev). split; [lia|]. split; [lia|]. split.
      * right. split; [by right|].
        rewrite (swrap_small (ev - sv)) by lia.
        rewrite (swrap_small ((ev - sv) * -1)) by lia. f_equal. lia.
      * intros m Hm. unfold between. lia.
Qed.

(** X20. The walker stays in the box of its ray: for voxels of the two
    ends with coordinates up to [2^51] in magnitude, every voxel delivered
    is the voxel of the start or lies, on each axis, between the first
    voxel of the walk (the voxel of the start after the corner correction)
    and the voxel of the end. *)
Theorem walk_stays_in_box {D : Type} (visit : voxel -> D -> bool * D) (fuel : nat)
    (start_pos end_pos : point) (voxel_size : double) (data : D)
    (we : walk_end) (l : list (voxel * bool)) (cs ce : voxel) :
  deliveries visit fuel start_pos end_pos voxel_size data = Ret (we, l) ->
  voxel_of_point start_pos voxel_size = Some cs ->
  voxel_of_point end_pos voxel_size = Some ce ->
  small_voxel cs -> small_voxel ce ->
  Forall (fun e => fst e = cs
                   \/ in_box (corrected_start start_pos end_pos voxel_size cs ce) ce
                             (fst e)) l.
Proof.
  intros Hdel Hs He (Sx & Sy & Sz) (Ex & Ey & Ez).
  destruct (setup_axis_walk (sub (p0 end_pos) (p0 start_pos)) (p0 start_pos) voxel_size
              (x cs) (x ce) Sx Ex) as (Kx & Bx & BKx & Cx & Hbx).
  destruct (setup_axis_walk (sub (p1 end_pos) (p1 start_pos)) (p1 start_pos) voxel_size
              (y cs) (y ce) Sy Ey) as (Ky & By & BKy & Cy & Hby).
  destruct (setup_axis_walk (sub (p2 end_pos) (p2 start_pos)) (p2 start_pos) voxel_size
              (z cs) (z ce) Sz Ez) as (Kz & Bz & BKz & Cz & Hbz).
  fold (setup_x start_pos end_pos voxel_size cs ce) in Bx, Cx, Hbx.
  fold (setup_y start_pos end_pos voxel_size cs ce) in By, Cy, Hby.
  fold (setup_z start_pos end_pos voxel_size cs ce) in Bz, Cz, Hbz.
  set (ax := setup_x start_pos end_pos voxel_size cs ce) in *.
  set (ay := setup_y start_pos end_pos voxel_size cs ce) in *.
  set (az := setup_z start_pos end_pos voxel_size cs ce) in *.
  assert (Hcur0 : corrected_start start_pos end_pos voxel_size cs ce
                  = Voxel (start_c ax) (start_c ay) (start_c az)) by reflexivity.
  apply (deliveries_Forall visit
           (fun v => v = cs
                     \/ in_box (corrected_start start_pos end_pos voxel_size cs ce) ce v)
           _ _ _ _ _ _ _ cs ce Hdel Hs He).
  - by left.
  - right. rewrite Hcur0. unfold in_box. cbn [x y z].
    split; [apply between_refl|split; apply between_refl].
  - intros log d. fold ax ay az.
    destruct (walk_loop_coords visit ax ay az
                (fun s => exists m, 0 <= m <= Z.max 0 Kx
                                    /\ cur s = start_c ax + m * step ax
                                    /\ (step ax <> 0 -> mult s = m))
                (fun s => exists m, 0 <= m <= Z.max 0 Ky
                                    /\ cur s = start_c ay + m * step ay
                                    /\ (step ay <> 0 -> mult s = m))
                (fun s => exists m, 0 <= m <= Z.max 0 Kz
                                    /\ cur s = start_c az + m * step az
                                    /\ (step az <> 0 -> mult s = m))
                (fun c => exists m, 0 <= m <= Z.max 0 Kx /\ c = start_c ax + m * step ax)
                (fun c => exists m, 0 <= m <= Z.max 0 Ky /\ c = start_c ay + m * step ay)
                (fun c => exists m, 0 <= m <= Z.max 0 Kz /\ c = start_c az + m * step az)
                (axis_walk ax Kx Bx BKx Cx) (axis_walk ay Ky By BKy Cy)
                (axis_walk az Kz Bz BKz Cz)
                fuel (enter_loop ax) (enter_loop ay) (enter_loop az) log d)
      as (l' & Hl' & HF).
    + apply enter_loop_walk.
    + apply enter_loop_walk.
    + apply enter_loop_walk.
    + exists l'. split; [done|]. eapply Forall_impl; [exact HF|].
      intros [v b] ((mx & Hmx & Hvx) & (my & Hmy & Hvy) & (mz & Hmz & Hvz)).
      right. rewrite Hcur0. unfold in_box. cbn [fst x y z] in Hvx, Hvy, Hvz |- *.
      rewrite Hvx, Hvy, Hvz.
      split; [by apply Hbx|split; [by apply Hby|by apply Hbz]].
Qed.

Lemma walk_stays_in_box_witness :
  Forall (fun e => fst e = voxel0
                   \/ in_box (corrected_start ray_x_start ray_x_end one voxel0 (Voxel 2 0 0))
                             (Voxel 2 0 0) (fst e))
         [(voxel0, false); (voxel0, false); (Voxel 1 0 0, true); (Voxel 2 0 0, true)].
Proof.
  apply (walk_stays_in_box visitor 8 ray_x_start ray_x_end one args_neighbour Returned).
  - vm_compute. reflexivity.
  - vm_compute. reflexivity.
  - vm_compute. reflexivity.
  - unfold small_voxel. simpl. lia.
  - unfold small_voxel. simpl. lia.
Defined.

(** ** Reaching the voxel of the end *)

Lemma eqb_refl (a : double) : is_nan a = false -> eqb a a = true.
Proof.
  unfold eqb, SFeqb. destruct a as [s|s| |s m e]; simpl; try done.
  - by destruct s.
  - intros _. destruct s; by rewrite Z.compare_refl, Pos.compare_cont_refl.
Qed.

Lemma eqb_leb (a b : double) : eqb a b = true -> leb b a = true.
Proof.
  unfold eqb, leb, SFeqb, SFleb. rewrite (SFcompare_antisym a b).
  by destruct (SFcompare a b) as [[]|].
Qed.

Lemma ltb_not_leb (a b : double) : ltb b a = true -> leb a b = false.
Proof.
  unfold ltb, leb, SFltb, SFleb. rewrite (SFcompare_antisym b a).
  by destruct (SFcompare b a) as [[]|].
Qed.

Lemma ltb_finite_infinity (t : double) : is_finite t = true -> ltb t infinity = true.
Proof. destruct t as [s|s| |s m e]; try discriminate; intros _; by destruct s. Qed.

(** A value that is not above [tj] is not equal to anything above [tj]. *)
Lemma blocked (minVal tj ti : double) :
  leb minVal tj = true -> ltb tj ti = true -> eqb minVal ti = false.
Proof.
  intros Hle Hlt. destruct (eqb minVal ti) eqn:E; [|done].
  apply eqb_leb in E. pose proof (leb_trans _ _ _ E Hle) as Hc.
  by rewrite (ltb_not_leb _ _ Hlt) in Hc.
Qed.

Lemma min3_cases (tx ty tz : double) :
  min (min tx ty) tz = tx \/ min (min tx ty) tz = ty \/ min (min tx ty) tz = tz.
Proof.
  destruct (min_cases (min tx ty) tz) as [-> | ->]; [|auto].
  destruct (min_cases tx ty) as [-> | ->]; auto.
Qed.

Lemma min3_leb (tx ty tz : double) :
  is_nan tx = false -> is_nan ty = false -> is_nan tz = false ->
  leb (min (min tx ty) tz) tx = true
  /\ leb (min (min tx ty) tz) ty = true
  /\ leb (min (min tx ty) tz) tz = true.
Proof.
  intros Hx Hy Hz.
  assert (Hxy : is_nan (min tx ty) = false) by (destruct (min_cases tx ty) as [-> | ->]; done).
  destruct (min_leb tx ty Hx Hy) as [L1 L2].
  destruct (min_leb (min tx ty) tz Hxy Hz) as [L3 L4].
  repeat split; eauto using leb_trans.
Qed.

Lemma gtb_infinity (t : double) : gtb t infinity = false.
Proof. unfold gtb, SFltb. destruct t as [s|s| |s m e]; simpl; try done; by destruct s. Qed.

(** The [tMax] of an axis in a walk is not a NaN. *)
Lemma axis_at_not_nan (a : axis) (K m : Z) (s : axis_state) :
  axis_ok a K -> axis_at a K m s -> is_nan (tMax s) = false.
Proof.
  intros (_ & _ & Hok) (Hm & _ & Hat).
  destruct Hat as [[H0 ->]|(Hne & _ & ->)].
  - destruct Hok as [(_ & Hinf & _)|([H1|H1] & _)]; [|lia..].
    cbn [enter_loop tMax]. by rewrite Hinf.
  - destruct Hok as [(H0 & _)|(_ & _ & Hfin)]; [done|].
    apply is_finite_not_nan. by apply Hfin.
Qed.

(** One axis in one iteration, when it steps only with a step left. *)
Lemma axis_advance_ok (a : axis) (K m : Z) (s : axis_state) (t : double) :
  axis_ok a K -> axis_at a K m s ->
  (eqb t (tMax s) = true -> step a <> 0 /\ m < K) ->
  axis_at a K (m + Z.b2z (eqb t (tMax s))) (fst (advance t a s))
  /\ snd (advance t a s) = eqb t (tMax s)
  /\ is_Some (graced a (fst (advance t a s)) (snd (advance t a s)))
  /\ over_budget a (fst (advance t a s)) (snd (advance t a s)) = false.
Proof.
  intros (Hc & HK & Hok) (Hm & Hcur & Hat) Hperm. unfold advance.
  destruct (eqb t (tMax s)) eqn:E; cbn [fst snd Z.b2z].
  2:{ rewrite Z.add_0_r. repeat split; try done; try lia. }
  destruct (Hperm eq_refl) as [Hne HmK].
  destruct Hat as [[H0 _]|(_ & Hmult & HtMax)]; [done|].
  destruct Hok as [(H0 & _)|(Hst & Hmax & Hfin)]; [done|].
  assert (Hm1 : uwrap (mult s + 1) = m + 1) by (rewrite Hmult; apply uwrap_small; lia).
  assert (Hcur1 : swrap (start_c a + (m + 1) * step a) = start_c a + (m + 1) * step a)
    by (apply swrap_small; destruct Hst as [-> | ->]; lia).
  rewrite Hm1. split; [|split; [done|split]].
  - split; [lia|]. cbn [cur mult tMax]. split; [done|]. right.
    split; [done|]. split; [done|]. unfold tMax_at.
    destruct (Z.eqb_spec (m + 1) 0); [lia|done].
  - unfold graced. cbn [cur mult]. rewrite Hmax. change one with (of_Z 1).
    rewrite (of_Z_add K 1) by lia. rewrite !gtb_of_Z by lia.
    destruct (step a <? 0).
    + destruct (Z.ltb_spec (K + 1) (m + 1)); [lia|]. by eexists.
    + destruct (Z.ltb_spec K (m + 1)); [lia|]. by eexists.
  - unfold over_budget. cbn [cur mult andb]. rewrite Hmax, gtb_of_Z by lia.
    destruct (Z.ltb_spec K (m + 1)); [lia|done].
Qed.

(** A moving axis that has no step left and steps is over its budget. *)
Lemma axis_advance_end (a : axis) (K : Z) (s : axis_state) (t : double) :
  axis_ok a K -> axis_at a K K s -> step a <> 0 -> eqb t (tMax s) = true ->
  over_budget a (fst (advance t a s)) (snd (advance t a s)) = true.
Proof.
  intros (Hc & HK & Hok) (Hm & Hcur & Hat) Hne E. unfold advance. rewrite E.
  cbn [fst snd].
  destruct Hat as [[H0 _]|(_ & Hmult & HtMax)]; [done|].
  destruct Hok as [(H0 & _)|(Hst & Hmax & Hfin)]; [done|].
  unfold over_budget. cbn [mult andb]. rewrite Hmult, uwrap_small by lia.
  rewrite Hmax, gtb_of_Z by lia. destruct (Z.ltb_spec K (K + 1)); [done|lia].
Qed.

Section LoopSteps.

Context {D : Type}.
Variable visit : voxel -> D -> bool * D.
Hypothesis never_stops : forall v d, fst (visit v d) = true.

(** An iteration in which no stepped axis is past its budget delivers the
    current voxel and goes on. *)
Lemma loop_iteration_go (ax ay az : axis) (sx sy sz : axis_state)
    (log : list (voxel * bool)) (data : D) :
  is_Some (graced ax (fst (advance (min (min (tMax sx) (tMax sy)) (tMax sz)) ax sx))
                     (snd (advance (min (min (tMax sx) (tMax sy)) (tMax sz)) ax sx))) ->
  is_Some (graced ay (fst (advance (min (min (tMax sx) (tMax sy)) (tMax sz)) ay sy))
                     (snd (advance (min (min (tMax sx) (tMax sy)) (tMax sz)) ay sy))) ->
  is_Some (graced az (fst (advance (min (min (tMax sx) (tMax sy)) (tMax sz)) az sz))
                     (snd (advance (min (min (tMax sx) (tMax sy)) (tMax sz)) az sz))) ->
  over_budget ax (fst (advance (min (min (tMax sx) (tMax sy)) (tMax sz)) ax sx))
                 (snd (advance (min (min (tMax sx) (tMax sy)) (tMax sz)) ax sx)) = false ->
  over_budget ay (fst (advance (min (min (tMax sx) (tMax sy)) (tMax sz)) ay sy))
                 (snd (advance (min (min (tMax sx) (tMax sy)) (tMax sz)) ay sy)) = false ->
  over_budget az (fst (advance (min (min (tMax sx) (tMax sy)) (tMax sz)) az sz))
                 (snd (advance (min (min (tMax sx) (tMax sy)) (tMax sz)) az sz)) = false ->
  exists l d',
    loop_iteration (traced visit) ax ay az sx sy sz (log, data)
    = (Some (fst (advance (min (min (tMax sx) (tMax sy)) (tMax sz)) ax sx),
             fst (advance (min (min (tMax sx) (tMax sy)) (tMax sz)) ay sy),
             fst (advance (min (min (tMax sx) (tMax sy)) (tMax sz)) az sz)),
       (log ++ l
            ++ [(Voxel (cur (fst (advance (min (min (tMax sx) (tMax sy)) (tMax sz)) ax sx)))
                       (cur (fst (advance (min (min (tMax sx) (tMax sy)) (tMax sz)) ay sy)))
                       (cur (fst (advance (min (min (tMax sx) (tMax sy)) (tMax sz)) az sz))),
                 true)],
        d')).
Proof.
  unfold loop_iteration. set (t := min (min (tMax sx) (tMax sy)) (tMax sz)).
  destruct (advance t ax sx) as [sx1 stx].
  destruct (advance t ay sy) as [sy1 sty].
  destruct (advance t az sz) as [sz1 stz].
  cbn [fst snd]. intros [gx ->] [gy ->] [gz ->] -> -> ->.
  destruct (_ && _ && _).
  - repeat (rewrite traced_eq, never_stops; cbn [fst snd negb]).
    eexists [_], _. by rewrite <- app_assoc.
  - cbn [negb]. rewrite !traced_eq, !never_stops. cbn [fst snd negb].
    eexists [], _. reflexivity.
Qed.

(** An iteration in which a stepped axis is past its budget leaves the
    loop. *)
Lemma loop_iteration_over (ax ay az : axis) (sx sy sz : axis_state)
    (log : list (voxel * bool)) (data : D) :
  over_budget ax (fst (advance (min (min (tMax sx) (tMax sy)) (tMax sz)) ax sx))
                 (snd (advance (min (min (tMax sx) (tMax sy)) (tMax sz)) ax sx)) = true
  \/ over_budget ay (fst (advance (min (min (tMax sx) (tMax sy)) (tMax sz)) ay sy))
                    (snd (advance (min (min (tMax sx) (tMax sy)) (tMax sz)) ay sy)) = true
  \/ over_budget az (fst (advance (min (min (tMax sx) (tMax sy)) (tMax sz)) az sz))
                    (snd (advance (min (min (tMax sx) (tMax sy)) (tMax sz)) az sz)) = true ->
  exists l d',
    loop_iteration (traced visit) ax ay az sx sy sz (log, data) = (None, (log ++ l, d')).
Proof.
  unfold loop_iteration. set (t := min (min (tMax sx) (tMax sy)) (tMax sz)).
  destruct (advance t ax sx) as [sx1 stx].
  destruct (advance t ay sy) as [sy1 sty].
  destruct (advance t az sz) as [sz1 stz].
  cbn [fst snd]. intros Hover.
  destruct (_ && _ && _).
  - destruct (graced ax sx1 stx) as [gx|]; [|exists [], data; by rewrite app_nil_r].
    destruct (graced ay sy1 sty) as [gy|]; [|exists [], data; by rewrite app_nil_r].
    destruct (graced az sz1 stz) as [gz|]; [|exists [], data; by rewrite app_nil_r].
    rewrite !traced_eq, !never_stops. cbn [fst snd negb].
    destruct (over_budget ax sx1 stx); [by eexists [_], _|].
    destruct (over_budget ay sy1 sty); [by eexists [_], _|].
    destruct (over_budget az sz1 stz); [by eexists [_], _|].
    by destruct Hover as [?|[?|?]].
  - cbn [negb].
    destruct (over_budget ax sx1 stx); [exists [], data; by rewrite app_nil_r|].
    destruct (over_budget ay sy1 sty); [exists [], data; by rewrite app_nil_r|].
    destruct (over_budget az sz1 stz); [exists [], data; by rewrite app_nil_r|].
    by destruct Hover as [?|[?|?]].
Qed.

End LoopSteps.

Lemma still_tMax (a : axis) (K m : Z) (s : axis_state) :
  axis_ok a K -> axis_at a K m s -> step a = 0 -> tMax s = infinity.
Proof.
  intros (_ & _ & Hok) (_ & _ & Hat) H0.
  destruct Hat as [[_ ->]|(Hne & _)]; [|done].
  destruct Hok as [(_ & Hinf & _)|([H1|H1] & _)]; [done|lia..].
Qed.

Lemma moving_tMax (a : axis) (K m : Z) (s : axis_state) :
  axis_ok a K -> axis_at a K m s -> step a <> 0 -> is_finite (tMax s) = true.
Proof.
  intros (_ & _ & Hok) (Hm & _ & Hat) Hne.
  destruct Hat as [[H0 _]|(_ & _ & ->)]; [done|].
  destruct Hok as [(H0 & _)|(_ & _ & Hfin)]; [done|]. by apply Hfin.
Qed.

(** The crossing of an axis with a step left comes before that of an axis
    without one. *)
Lemma blocks (a b : axis) (Ka Kb ma mb : Z) (sa sb : axis_state) :
  axis_ok a Ka -> axis_ok b Kb -> axis_at a Ka ma sa -> axis_at b Kb mb sb ->
  waits_for a b Ka Kb -> step b <> 0 -> mb < Kb -> ~ (step a <> 0 /\ ma < Ka) ->
  ltb (tMax sb) (tMax sa) = true.
Proof.
  intros Hoka Hokb Hata Hatb Hw Hb Hmb Hna.
  destruct (decide (step a = 0)) as [H0|Hne].
  - rewrite (still_tMax a Ka ma sa) by done.
    apply ltb_finite_infinity. by eapply moving_tMax.
  - assert (ma = Ka) as -> by (destruct Hata as (? & _); lia).
    destruct Hata as (_ & _ & [[H0 _]|(_ & _ & ->)]); [done|].
    destruct Hatb as (Hm & _ & [[H0 _]|(_ & _ & ->)]); [done|].
    apply Hw; [done|done|lia].
Qed.

(** So an axis steps only with a step left, as long as some axis has one. *)
Lemma permitted (a b : axis) (Ka Kb ma mb : Z) (sa sb : axis_state) (t : double) :
  axis_ok a Ka -> axis_ok b Kb -> axis_at a Ka ma sa -> axis_at b Kb mb sb ->
  waits_for a b Ka Kb -> step b <> 0 -> mb < Kb -> leb t (tMax sb) = true ->
  eqb t (tMax sa) = true -> step a <> 0 /\ ma < Ka.
Proof.
  intros Hoka Hokb Hata Hatb Hw Hb Hmb Hle He.
  destruct (decide (step a <> 0 /\ ma < Ka)) as [|Hna]; [done|].
  pose proof (blocks a b Ka Kb ma mb sa sb Hoka Hokb Hata Hatb Hw Hb Hmb Hna) as Hlt.
  by rewrite (blocked _ _ _ Hle Hlt) in He.
Qed.

(** The least [tMax] is not that of a still axis when an axis moves. *)
Lemma least_is_moving (a b : axis) (Ka Kb ma mb : Z) (sa sb : axis_state) (t : double) :
  axis_ok a Ka -> axis_ok b Kb -> axis_at a Ka ma sa -> axis_at b Kb mb sb ->
  step b <> 0 -> leb t (tMax sb) = true -> t = tMax sa -> step a <> 0.
Proof.
  intros Hoka Hokb Hata Hatb Hb Hle -> H0.
  rewrite (still_tMax a Ka ma sa) in Hle by done.
  pose proof (moving_tMax b Kb mb sb Hokb Hatb Hb) as Hfin.
  by rewrite (ltb_not_leb _ _ (ltb_finite_infinity _ Hfin)) in Hle.
Qed.

Section Reach.

Context {D : Type}.
Variable visit : voxel -> D -> bool * D.
Hypothesis never_stops : forall v d, fst (visit v d) = true.

Variables ax ay az : axis.
Variables Kx Ky Kz : Z.
Hypothesis okx : axis_ok ax Kx.
Hypothesis oky : axis_ok ay Ky.
Hypothesis okz : axis_ok az Kz.
Hypothesis moving : step ax <> 0 \/ step ay <> 0 \/ step az <> 0.
Hypothesis wxy : waits_for ax ay Kx Ky.
Hypothesis wxz : waits_for ax az Kx Kz.
Hypothesis wyx : waits_for ay ax Ky Kx.
Hypothesis wyz : waits_for ay az Ky Kz.
Hypothesis wzx : waits_for az ax Kz Kx.
Hypothesis wzy : waits_for az ay Kz Ky.

(** While an axis has a step left, an iteration takes at least one step,
    none past a budget, delivers the voxel it has come to and goes on. *)
Lemma iteration_steps (mx my mz : Z) (sx sy sz : axis_state)
    (log : list (voxel * bool)) (data : D) :
  axis_at ax Kx mx sx -> axis_at ay Ky my sy -> axis_at az Kz mz sz ->
  (step ax <> 0 /\ mx < Kx) \/ (step ay <> 0 /\ my < Ky) \/ (step az <> 0 /\ mz < Kz) ->
  exists mx' my' mz' sx' sy' sz' l d',
    loop_iteration (traced visit) ax ay az sx sy sz (log, data)
    = (Some (sx', sy', sz'),
       (log ++ l ++ [(Voxel (cur sx') (cur sy') (cur sz'), true)], d'))
    /\ axis_at ax Kx mx' sx' /\ axis_at ay Ky my' sy' /\ axis_at az Kz mz' sz'
    /\ (Kx - mx') + (Ky - my') + (Kz - mz') < (Kx - mx) + (Ky - my) + (Kz - mz).
Proof.
  intros Hx Hy Hz Hmay.
  set (t := min (min (tMax sx) (tMax sy)) (tMax sz)).
  pose proof (axis_at_not_nan _ _ _ _ okx Hx) as Nx.
  pose proof (axis_at_not_nan _ _ _ _ oky Hy) as Ny.
  pose proof (axis_at_not_nan _ _ _ _ okz Hz) as Nz.
  destruct (min3_leb _ _ _ Nx Ny Nz) as (Lx & Ly & Lz). fold t in Lx, Ly, Lz.
  assert (Px : eqb t (tMax sx) = true -> step ax <> 0 /\ mx < Kx).
  { destruct Hmay as [?|[[? ?]|[? ?]]]; [done|..]; intros E.
    - by eapply (permitted ax ay Kx Ky mx my sx sy t).
    - by eapply (permitted ax az Kx Kz mx mz sx sz t). }
  assert (Py : eqb t (tMax sy) = true -> step ay <> 0 /\ my < Ky).
  { destruct Hmay as [[? ?]|[?|[? ?]]]; [|done|]; intros E.
    - by eapply (permitted ay ax Ky Kx my mx sy sx t).
    - by eapply (permitted ay az Ky Kz my mz sy sz t). }
  assert (Pz : eqb t (tMax sz) = true -> step az <> 0 /\ mz < Kz).
  { destruct Hmay as [[? ?]|[[? ?]|?]]; [| |done]; intros E.
    - by eapply (permitted az ax Kz Kx mz mx sz sx t).
    - by eapply (permitted az ay Kz Ky mz my sz sy t). }
  destruct (axis_advance_ok ax Kx mx sx t okx Hx Px) as (Ax & Sx & Gx & Ox).
  destruct (axis_advance_ok ay Ky my sy t oky Hy Py) as (Ay & Sy & Gy & Oy).
  destruct (axis_advance_ok az Kz mz sz t okz Hz Pz) as (Az & Sz & Gz & Oz).
  destruct (loop_iteration_go visit never_stops ax ay az sx sy sz log data
              Gx Gy Gz Ox Oy Oz) as (l & d' & Hit).
  fold t in Hit.
  exists (mx + Z.b2z (eqb t (tMax sx))), (my + Z.b2z (eqb t (tMax sy))),
         (mz + Z.b2z (eqb t (tMax sz))).
  eexists _, _, _, l, d'. split; [exact Hit|].
  split; [done|]. split; [done|]. split; [done|].
  assert (Hsome : eqb t (tMax sx) = true \/ eqb t (tMax sy) = true
                  \/ eqb t (tMax sz) = true).
  { destruct (min3_cases (tMax sx) (tMax sy) (tMax sz)) as [E|[E|E]]; fold t in E.
    - left. rewrite E. by apply eqb_refl.
    - right. left. rewrite E. by apply eqb_refl.
    - right. right. rewrite E. by apply eqb_refl. }
  destruct (eqb t (tMax sx)), (eqb t (tMax sy)), (eqb t (tMax sz));
    cbn [Z.b2z]; try lia; by destruct Hsome as [?|[?|?]].
Qed.

(** With no step left on any axis the next iteration leaves the loop. *)
Lemma iteration_ends (sx sy sz : axis_state) (log : list (voxel * bool)) (data : D) :
  axis_at ax Kx Kx sx -> axis_at ay Ky Ky sy -> axis_at az Kz Kz sz ->
  exists l d',
    loop_iteration (traced visit) ax ay az sx sy sz (log, data) = (None, (log ++ l, d')).
Proof.
  intros Hx Hy Hz.
  set (t := min (min (tMax sx) (tMax sy)) (tMax sz)).
  pose proof (axis_at_not_nan _ _ _ _ okx Hx) as Nx.
  pose proof (axis_at_not_nan _ _ _ _ oky Hy) as Ny.
  pose proof (axis_at_not_nan _ _ _ _ okz Hz) as Nz.
  destruct (min3_leb _ _ _ Nx Ny Nz) as (Lx & Ly & Lz). fold t in Lx, Ly, Lz.
  apply (loop_iteration_over visit never_stops). fold t.
  destruct (min3_cases (tMax sx) (tMax sy) (tMax sz)) as [E|[E|E]]; fold t in E.
  - left. apply (axis_advance_end ax Kx sx t okx Hx); [|rewrite E; by apply eqb_refl].
    destruct moving as [?|[?|?]]; [done|..].
    + by eapply (least_is_moving ax ay Kx Ky Kx Ky sx sy t).
    + by eapply (least_is_moving ax az Kx Kz Kx Kz sx sz t).
  - right. left.
    apply (axis_advance_end ay Ky sy t oky Hy); [|rewrite E; by apply eqb_refl].
    destruct moving as [?|[?|?]]; [|done|].
    + by eapply (least_is_moving ay ax Ky Kx Ky Kx sy sx t).
    + by eapply (least_is_moving ay az Ky Kz Ky Kz sy sz t).
  - right. right.
    apply (axis_advance_end az Kz sz t okz Hz); [|rewrite E; by apply eqb_refl].
    destruct moving as [?|[?|?]]; [| |done].
    + by eapply (least_is_moving az ax Kz Kx Kz Kx sz sx t).
    + by eapply (least_is_moving az ay Kz Ky Kz Ky sz sy t).
Qed.

(** The loop comes to the voxel that lies [K] steps along every axis,
    delivers it and returns, within one iteration more than there are
    steps. *)
Lemma walk_loop_reaches (fuel : nat) (mx my mz : Z) (sx sy sz : axis_state)
    (log : list (voxel * bool)) (data : D) :
  axis_at ax Kx mx sx -> axis_at ay Ky my sy -> axis_at az Kz mz sz ->
  Voxel (cur sx) (cur sy) (cur sz) ∈ map fst log ->
  (Kx - mx) + (Ky - my) + (Kz - mz) < Z.of_nat fuel ->
  exists l d',
    walk_loop (traced visit) fuel ax ay az sx sy sz (log, data)
    = (Returned, (log ++ l, d'))
    /\ Voxel (start_c ax + Kx * step ax) (start_c ay + Ky * step ay)
             (start_c az + Kz * step az) ∈ map fst (log ++ l).
Proof.
  revert mx my mz sx sy sz log data.
  induction fuel as [|fuel IH]; intros mx my mz sx sy sz log data Hx Hy Hz Hin Hfuel.
  { destruct Hx as (? & _), Hy as (? & _), Hz as (? & _). lia. }
  cbn [walk_loop].
  destruct (decide ((step ax <> 0 /\ mx < Kx) \/ (step ay <> 0 /\ my < Ky)
                    \/ (step az <> 0 /\ mz < Kz))) as [Hmay|Hend].
  - destruct (iteration_steps mx my mz sx sy sz log data Hx Hy Hz Hmay)
      as (mx' & my' & mz' & sx' & sy' & sz' & l & d' & -> & Hx' & Hy' & Hz' & Hless).
    destruct (IH mx' my' mz' sx' sy' sz'
                (log ++ l ++ [(Voxel (cur sx') (cur sy') (cur sz'), true)]) d'
                Hx' Hy' Hz') as (l2 & d2 & -> & Hreach).
    + rewrite !map_app. simpl. rewrite !elem_of_app. right. right. by left.
    + lia.
    + exists ((l ++ [(Voxel (cur sx') (cur sy') (cur sz'), true)]) ++ l2), d2.
      rewrite !app_assoc in *. by split.
  - assert (Ex : mx = Kx).
    { destruct okx as (_ & ? & [(? & _ & _ & ?)|(Hst & _)]), Hx as (? & _); [lia|].
      destruct (decide (mx < Kx)); [|lia]. exfalso. apply Hend. left. lia. }
    assert (Ey : my = Ky).
    { destruct oky as (_ & ? & [(? & _ & _ & ?)|(Hst & _)]), Hy as (? & _); [lia|].
      destruct (decide (my < Ky)); [|lia]. exfalso. apply Hend. right. left. lia. }
    assert (Ez : mz = Kz).
    { destruct okz as (_ & ? & [(? & _ & _ & ?)|(Hst & _)]), Hz as (? & _); [lia|].
      destruct (decide (mz < Kz)); [|lia]. exfalso. apply Hend. right. right. lia. }
    subst mx my mz.
    destruct (iteration_ends sx sy sz log data Hx Hy Hz) as (l & d' & ->).
    exists l, d'. split; [done|].
    rewrite map_app, elem_of_app. left.
    destruct Hx as (_ & <- & _), Hy as (_ & <- & _), Hz as (_ & <- & _). done.
Qed.

End Reach.

(** Two finite doubles that compare equal are the same or two zeros, and
    the voxelizer does not tell them apart. *)
Lemma py_div_eqb (a b voxel_size : double) :
  is_finite a = true -> is_finite b = true -> eqb a b = true ->
  py_div a voxel_size = py_div b voxel_size.
Proof.
  intros Fa Fb He. unfold eqb, SFeqb in He.
  destruct a as [sa|sa| |sa ma ea], b as [sb|sb| |sb mb eb];
    simpl in Fa, Fb, He; try discriminate Fa; try discriminate Fb; try discriminate He;
    try (exfalso; destruct sa; destruct sb; discriminate He).
  - destruct voxel_size as [[]|[]| |[] ? ?], sa, sb; reflexivity.
  - assert (sa = sb /\ ea = eb /\ ma = mb) as (-> & -> & ->); [|done].
    change (PosDef.Pos.compare_cont Eq ma mb) with (Pos.compare ma mb) in He.
    destruct sa, sb; try discriminate He;
      destruct (Z.compare_spec ea eb) as [Hc|Hc|Hc]; try discriminate He;
      destruct (Pos.compare_spec ma mb) as [Hm|Hm|Hm]; try discriminate He;
      by repeat split.
Qed.

(** On an axis that the ray does not move along, the two ends are in
    voxels of the same coordinate. *)
Lemma still_same_coordinate (s e voxel_size : double) (sv ev : Z) :
  valid_double s -> is_finite s = true -> valid_double e -> is_finite e = true ->
  eqb (sub e s) zero = true ->
  py_div s voxel_size = Some sv -> py_div e voxel_size = Some ev -> ev = sv.
Proof.
  intros Vs Fs Ve Fe Hd Hs He.
  apply sub_eq_zero in Hd; try done.
  rewrite (py_div_eqb e s voxel_size Fe Fs Hd) in He. congruence.
Qed.

Lemma finite_crossings_spec (a : axis) (K : Z) :
  finite_crossings a K = true -> step a <> 0 ->
  forall m, 0 <= m <= K -> is_finite (tMax_at a m) = true.
Proof.
  unfold finite_crossings. intros H Hne m Hm.
  apply orb_true_iff in H as [H|H]; [apply Z.eqb_eq in H; done|].
  rewrite forallb_forall in H. apply H. apply list_elem_of_In, elem_of_seqZ. lia.
Qed.

Lemma crosses_before_spec (b a : axis) (Kb Ka : Z) :
  crosses_before b a Kb Ka = true -> waits_for a b Ka Kb.
Proof.
  unfold crosses_before, waits_for. intros H Ha Hb m Hm.
  apply orb_true_iff in H as [H|H];
    [apply orb_true_iff in H as [H|H]; apply Z.eqb_eq in H; done|].
  rewrite forallb_forall in H. apply H. apply list_elem_of_In, elem_of_seqZ. lia.
Qed.

(** What the set-up leaves for an axis between two small voxels. *)
Lemma setup_axis_ok (direction start_pos voxel_size : double) (sv ev : Z) :
  Z.abs sv <= 2 ^ 51 -> Z.abs ev <= 2 ^ 51 ->
  0 <= steps_of (setup_axis direction start_pos voxel_size sv ev) ev ->
  finite_crossings (setup_axis direction start_pos voxel_size sv ev)
                   (steps_of (setup_axis direction start_pos voxel_size sv ev) ev) = true ->
  axis_ok (setup_axis direction start_pos voxel_size sv ev)
          (steps_of (setup_axis direction start_pos voxel_size sv ev) ev)
  /\ (step (setup_axis direction start_pos voxel_size sv ev) <> 0 ->
      start_c (setup_axis direction start_pos voxel_size sv ev)
      + steps_of (setup_axis direction start_pos voxel_size sv ev) ev
        * step (setup_axis direction start_pos voxel_size sv ev) = ev)
  /\ (step (setup_axis direction start_pos voxel_size sv ev) = 0 ->
      eqb direction zero = true
      /\ start_c (setup_axis direction start_pos voxel_size sv ev) = sv)
  /\ (eqb direction zero = false ->
      step (setup_axis direction start_pos voxel_size sv ev) <> 0)
  /\ steps_of (setup_axis direction start_pos voxel_size sv ev) ev <= Z.abs (ev - sv).
Proof.
  intros Hsv Hev. unfold steps_of, axis_ok.
  intros HK Hfin. pose proof (finite_crossings_spec _ _ Hfin) as Hfin'. clear Hfin.
  revert HK Hfin'. unfold setup_axis.
  destruct (eqb direction zero).
  { cbn [step start_c maxMult tMaxStart]. intros _ _.
    rewrite Z.mul_0_r. repeat split; try done; try lia. by left. }
  destruct (gtb direction zero); cbv zeta.
  - change (1 =? -1) with false. cbn [andb]. cbv iota.
    cbn [step start_c maxMult tMaxStart]. intros HK Hfin.
    split; [|repeat split; try done; lia].
    split; [lia|]. split; [lia|]. right. split; [by left|]. split; [|by apply Hfin].
    rewrite (swrap_small (ev - sv)) by lia.
    rewrite swrap_small by lia. done.
  - change (-1 =? -1) with true. cbn [andb].
    match goal with |- context [if ?c then _ else _] => destruct c eqn:Hcorner end;
      cbn [step start_c maxMult tMaxStart]; intros HK Hfin.
    + rewrite (swrap_small (sv - 1)) in * by lia.
      split; [|repeat split; try done; lia].
      split; [lia|]. split; [lia|]. right. split; [by right|]. split; [|by apply Hfin].
      rewrite (swrap_small (ev - sv)) by lia.
      rewrite (swrap_small ((ev - sv) * -1)) by lia.
      change one with (of_Z 1). rewrite of_Z_sub by lia. f_equal. lia.
    + split; [|repeat split; try done; lia].
      split; [lia|]. split; [lia|]. right. split; [by right|]. split; [|by apply Hfin].
      rewrite (swrap_small (ev - sv)) by lia.
      rewrite (swrap_small ((ev - sv) * -1)) by lia. f_equal.
Qed.

Lemma enter_loop_at (a : axis) (K : Z) : 0 <= K -> axis_at a K 0 (enter_loop a).
Proof.
  intros HK. split; [lia|]. split; [cbn [enter_loop cur]; lia|].
  destruct (decide (step a = 0)); [by left|]. right. by repeat split.
Qed.

Lemma voxel_of_point_coords (p : point) (voxel_size : double) (v : voxel) :
  voxel_of_point p voxel_size = Some v ->
  py_div (p0 p) voxel_size = Some (x v)
  /\ py_div (p1 p) voxel_size = Some (y v)
  /\ py_div (p2 p) voxel_size = Some (z v).
Proof.
  unfold voxel_of_point.
  destruct (py_div (p0 p) voxel_size) as [qx|]; [|discriminate].
  destruct (py_div (p1 p) voxel_size) as [qy|]; [|discriminate].
  destruct (py_div (p2 p) voxel_size) as [qz|]; [|discriminate].
  by intros [= <-].
Qed.

(** The coordinate that an axis comes to with its last step is that of the
    voxel of the end. *)
Lemma axis_end_coordinate (s e voxel_size : double) (sv ev : Z) :
  valid_double s -> is_finite s = true -> valid_double e -> is_finite e = true ->
  py_div s voxel_size = Some sv -> py_div e voxel_size = Some ev ->
  Z.abs sv <= 2 ^ 51 -> Z.abs ev <= 2 ^ 51 ->
  0 <= steps_of (setup_axis (sub e s) s voxel_size sv ev) ev ->
  finite_crossings (setup_axis (sub e s) s voxel_size sv ev)
                   (steps_of (setup_axis (sub e s) s voxel_size sv ev) ev) = true ->
  start_c (setup_axis (sub e s) s voxel_size sv ev)
  + steps_of (setup_axis (sub e s) s voxel_size sv ev) ev
    * step (setup_axis (sub e s) s voxel_size sv ev) = ev.
Proof.
  intros Vs Fs Ve Fe Hs He Hsv Hev HK Hfin.
  destruct (setup_axis_ok (sub e s) s voxel_size sv ev Hsv Hev HK Hfin)
    as (_ & Hmove & Hstill & _).
  destruct (decide (step (setup_axis (sub e s) s voxel_size sv ev) = 0)) as [H0|Hne];
    [|by apply Hmove].
  destruct (Hstill H0) as [Hd Hc]. rewrite H0, Hc, Z.mul_0_r, Z.add_0_r.
  symmetry. exact (still_same_coordinate s e voxel_size sv ev Vs Fs Ve Fe Hd Hs He).
Qed.

(** C4 (amended). For two different positions [s] and [e] that the
    voxelizer places in [cs] and [ce], the first voxel delivered is [cs],
    with any fuel and any visitor; if [ce] is [cs], or is the start voxel
    after the corner correction, it is delivered and the walk returns.
    If the visitor never answers "stop", the voxels have coordinates of at
    most [2^51], and the crossings that the walker computes are ordered as
    those of the ray ([ray_ordered]: the voxel of the end lies ahead, every
    [tMax] on the way is finite, and no axis leaves the voxel of the end
    before the other axes have reached it), then with one iteration more
    than there are steps between the two voxels the walker delivers [ce]
    and returns. *)
Theorem walk_reaches_end {D : Type} (visit : voxel -> D -> bool * D) (fuel : nat)
    (start_pos end_pos : point) (voxel_size : double) (data : D) (cs ce : voxel) :
  valid_point start_pos -> valid_point end_pos ->
  same_position start_pos end_pos = false ->
  voxel_of_point start_pos voxel_size = Some cs ->
  voxel_of_point end_pos voxel_size = Some ce ->
  (exists we rest,
     deliveries visit fuel start_pos end_pos voxel_size data
       = Ret (we, (cs, fst (visit cs data)) :: rest)
     /\ (cs = ce -> we = Returned /\ rest = [])
     /\ (cs <> ce -> corrected_start start_pos end_pos voxel_size cs ce = ce ->
         we = Returned /\ exists go, rest = [(ce, go)]))
  /\ ((forall v d, fst (visit v d) = true) ->
      small_voxel cs -> small_voxel ce ->
      ray_ordered start_pos end_pos voxel_size cs ce = true ->
      Z.abs (x ce - x cs) + Z.abs (y ce - y cs) + Z.abs (z ce - z cs) < Z.of_nat fuel ->
      exists l,
        deliveries visit fuel start_pos end_pos voxel_size data = Ret (Returned, l)
        /\ ce ∈ map fst l).
Proof.
  intros Vs Ve Hne Hs He.
  pose proof (different_positions _ _ Vs Ve Hne) as Hd.
  split; [by apply deliveries_head|].
  intros Hgo (Sx & Sy & Sz) (Ex & Ey & Ez) Hord Hfuel.
  unfold deliveries. rewrite (walk_voxels_eq _ _ _ _ _ _ cs ce Hd Hs He). cbv zeta.
  repeat (rewrite traced_eq; simpl snd; simpl app).
  case_bool_decide as Hse.
  { rewrite bind_Ret. eexists. split; [reflexivity|]. subst ce. cbn [fst snd map].
    by left. }
  case_bool_decide as Hce.
  { rewrite bind_Ret. eexists. split; [reflexivity|]. cbn [fst snd map].
    rewrite Hce. right. by left. }
  rewrite bind_Ret.
  destruct (voxel_of_point_coords _ _ _ Hs) as (Hsx & Hsy & Hsz).
  destruct (voxel_of_point_coords _ _ _ He) as (Hex & Hey & Hez).
  destruct Vs as ([Vs0 Fs0] & [Vs1 Fs1] & [Vs2 Fs2]).
  destruct Ve as ([Ve0 Fe0] & [Ve1 Fe1] & [Ve2 Fe2]).
  unfold ray_ordered, crossings_ordered in Hord. cbv zeta in Hord.
  repeat match type of Hord with
         | _ && _ = true =>
             let H := fresh "Ho" in apply andb_true_iff in Hord as [Hord H]
         end.
  rename Hord into Hkx. apply Z.leb_le in Hkx, Ho9, Ho8.
  unfold setup_x, setup_y, setup_z in *.
  set (ax := setup_axis (sub (p0 end_pos) (p0 start_pos)) (p0 start_pos) voxel_size
                        (x cs) (x ce)) in *.
  set (ay := setup_axis (sub (p1 end_pos) (p1 start_pos)) (p1 start_pos) voxel_size
                        (y cs) (y ce)) in *.
  set (az := setup_axis (sub (p2 end_pos) (p2 start_pos)) (p2 start_pos) voxel_size
                        (z cs) (z ce)) in *.
  destruct (setup_axis_ok _ (p0 start_pos) voxel_size (x cs) (x ce) Sx Ex Hkx Ho7)
    as (okx & _ & _ & Mx & Bx).
  destruct (setup_axis_ok _ (p1 start_pos) voxel_size (y cs) (y ce) Sy Ey Ho9 Ho6)
    as (oky & _ & _ & My & By).
  destruct (setup_axis_ok _ (p2 start_pos) voxel_size (z cs) (z ce) Sz Ez Ho8 Ho5)
    as (okz & _ & _ & Mz & Bz).
  fold ax in okx, Mx, Bx. fold ay in oky, My, By. fold az in okz, Mz, Bz.
  assert (Hmoving : step ax <> 0 \/ step ay <> 0 \/ step az <> 0).
  { unfold degenerate in Hd.
    destruct (eqb (sub (p0 end_pos) (p0 start_pos)) zero); [|left; by apply Mx].
    destruct (eqb (sub (p1 end_pos) (p1 start_pos)) zero); [|right; left; by apply My].
    destruct (eqb (sub (p2 end_pos) (p2 start_pos)) zero); [done|].
    right; right; by apply Mz. }
  match goal with
  | |- context [walk_loop (traced visit) fuel ax ay az ?sx ?sy ?sz (?lg, ?d)] =>
      destruct (walk_loop_reaches visit Hgo ax ay az
                  (steps_of ax (x ce)) (steps_of ay (y ce)) (steps_of az (z ce))
                  okx oky okz Hmoving
                  (crosses_before_spec _ _ _ _ Ho4) (crosses_before_spec _ _ _ _ Ho3)
                  (crosses_before_spec _ _ _ _ Ho2) (crosses_before_spec _ _ _ _ Ho1)
                  (crosses_before_spec _ _ _ _ Ho0) (crosses_before_spec _ _ _ _ Ho)
                  fuel 0 0 0 sx sy sz lg d)
        as (l & d' & Hloop & Hreach)
  end.
  - by apply enter_loop_at.
  - by apply enter_loop_at.
  - by apply enter_loop_at.
  - simpl. right. by left.
  - lia.
  - rewrite Hloop. simpl. eexists. split; [reflexivity|].
    assert (Heq : Voxel (start_c ax + steps_of ax (x ce) * step ax)
                        (start_c ay + steps_of ay (y ce) * step ay)
                        (start_c az + steps_of az (z ce) * step az) = ce).
    { unfold ax, ay, az.
      rewrite (axis_end_coordinate (p0 start_pos) (p0 end_pos) voxel_size (x cs) (x ce))
        by done.
      rewrite (axis_end_coordinate (p1 start_pos) (p1 end_pos) voxel_size (y cs) (y ce))
        by done.
      rewrite (axis_end_coordinate (p2 start_pos) (p2 end_pos) voxel_size (z cs) (z ce))
        by done.
      by destruct ce. }
    rewrite Heq in Hreach. exact Hreach.
Qed.

Lemma walk_reaches_end_witness :
  (exists we rest,
     deliveries keep_going 0 ray_x_start ray_short_end one tt
       = Ret (we, (voxel0, true) :: rest)
     /\ (voxel0 = voxel0 -> we = Returned /\ rest = [])
     /\ (voxel0 <> voxel0 ->
         corrected_start ray_x_start ray_short_end one voxel0 voxel0 = voxel0 ->
         we = Returned /\ exists go, rest = [(voxel0, go)]))
  /\ exists l,
       deliveries keep_going 8 ray_x_start ray_diag_end one tt = Ret (Returned, l)
       /\ Voxel 2 1 0 ∈ map fst l.
Proof.
  split.
  - refine (proj1 (walk_reaches_end keep_going 0 ray_x_start ray_short_end one tt
                     voxel0 voxel0 _ _ _ _ _)).
    + repeat split; vm_compute; reflexivity.
    + repeat split; vm_compute; reflexivity.
    + vm_compute. reflexivity.
    + vm_compute. reflexivity.
    + vm_compute. reflexivity.
  - refine (proj2 (walk_reaches_end keep_going 8 ray_x_start ray_diag_end one tt
                     voxel0 (Voxel 2 1 0) _ _ _ _ _) _ _ _ _ _).
    + repeat split; vm_compute; reflexivity.
    + repeat split; vm_compute; reflexivity.
    + vm_compute. reflexivity.
    + vm_compute. reflexivity.
    + vm_compute. reflexivity.
    + done.
    + unfold small_voxel. simpl. lia.
    + unfold small_voxel. simpl. lia.
    + vm_compute. reflexivity.
    + simpl. lia.
Defined.

(** For the ray of the counterexample the order fails. *)
Lemma corner_ray_not_ordered :
  ray_ordered ray_corner_start ray_corner_end one (Voxel (-3) 3 0) (Voxel (-2) (-3) 0)
  = false.
Proof. vm_compute. reflexivity. Qed.
